(** * lc0 search core: a shallow embedding of [src/mcts/search.cc]

    The tree of [Node]s lives in an arena ([list Node]); a [Node*] is an
    index into it and [nullptr] is [None].  Every C++ function of
    [search.cc] that the properties below talk about is written as a Rocq
    function over that arena, loops as structural recursion on a fuel that
    is taken from the size of the arena.  A result [None] stands for a run
    that has no defined outcome in C++ (a null or dangling dereference, a
    float-to-int conversion out of range, a loop that never ends).

    [float] is IEEE binary32 and [double] is IEEE binary64, both through
    [SpecFloat] of the standard library (round to nearest even, one operation
    at a time, no fused multiply-add). *)

From Stdlib Require Import ZArith List Bool Lia String.
From Stdlib Require Import Floats.SpecFloat.
From stdpp Require Import base list.

Local Open Scope Z_scope.

(* ------------------------------------------------------------------ *)
(** ** Machine numbers *)

(** [int] of the source: 32-bit two's complement. *)
Definition INT_MIN : Z := - 2 ^ 31.
Definition INT_MAX : Z := 2 ^ 31 - 1.
Definition wrap_int (z : Z) : Z := (z + 2 ^ 31) mod 2 ^ 32 - 2 ^ 31.

(** [uint16_t] of the source. *)
Definition wrap_u16 (z : Z) : Z := z mod 2 ^ 16.

(** [std::min] on [int]. *)
Definition std_min (a b : Z) : Z := if b <? a then b else a.

Module F32.
Definition prec : Z := 24.
Definition emax : Z := 128.
Definition of_Z (z : Z) : spec_float := binary_normalize prec emax z 0 false.
Definition zero : spec_float := S754_zero false.
Definition one : spec_float := of_Z 1.
Definition add : spec_float -> spec_float -> spec_float := SFadd prec emax.
Definition sub : spec_float -> spec_float -> spec_float := SFsub prec emax.
Definition mul : spec_float -> spec_float -> spec_float := SFmul prec emax.
Definition div : spec_float -> spec_float -> spec_float := SFdiv prec emax.
Definition neg : spec_float -> spec_float := SFopp.
(** [x > y] *)
Definition gtb (x y : spec_float) : bool := SFltb y x.
(** [int(x)]: truncation toward zero, undefined outside the range of
    [int] and on NaN and infinities. *)
Definition trunc (x : spec_float) : option Z :=
  match x with
  | S754_zero _ => Some 0
  | S754_finite s m e =>
      let a := Z.shiftl (Zpos m) e in Some (if s then - a else a)
  | _ => None
  end.
Definition to_int (x : spec_float) : option Z :=
  match trunc x with
  | Some z => if (INT_MIN <=? z) && (z <=? INT_MAX) then Some z else None
  | None => None
  end.
End F32.

Module F64.
Definition prec : Z := 53.
Definition emax : Z := 1024.
Definition of_Z (z : Z) : spec_float := binary_normalize prec emax z 0 false.
Definition add : spec_float -> spec_float -> spec_float := SFadd prec emax.
Definition sub : spec_float -> spec_float -> spec_float := SFsub prec emax.
Definition mul : spec_float -> spec_float -> spec_float := SFmul prec emax.
Definition div : spec_float -> spec_float -> spec_float := SFdiv prec emax.
Definition sqrt : spec_float -> spec_float := SFsqrt prec emax.
(** [float] to [double]: exact, the mantissa is re-aligned. *)
Definition of_F32 (x : spec_float) : spec_float :=
  match x with
  | S754_finite s m e => binary_round prec emax s m e
  | _ => x
  end.
(** [double] to [float]: rounded to nearest even. *)
Definition to_F32 (x : spec_float) : spec_float :=
  match x with
  | S754_finite s m e => binary_round F32.prec F32.emax s m e
  | _ => x
  end.
End F64.

(* ------------------------------------------------------------------ *)
(** ** Data model *)

(** A [Node*]: an index into the arena. *)
Abbreviation ptr := nat (only parsing).

(** The fields of [Node] that [search.cc] reads and writes.  The header
    that declares them is not among the sources, so the counters are kept
    as integers with no width of their own; the locals of [search.cc] that
    receive them ([int], [uint16_t]) wrap as C++ says. *)
Record Node {Move Board : Type} : Type := mkNode {
  parent : option ptr;
  child : option ptr;
  sibling : option ptr;
  move : Move;
  board : Board;
  no_capture_ply : Z;
  repetitions : Z;
  ply_count : Z;
  n_in_flight : Z;
  n : Z;
  v : spec_float;
  q : spec_float;
  w : spec_float;
  p : spec_float;
  max_depth : Z;
  full_depth : Z;
  is_terminal : bool
}.
Arguments Node : clear implicits.
Arguments mkNode {Move Board}.

(** One element of [board.GenerateValidMoves()]. *)
Record MoveAndBoard {Move Board : Type} : Type := mkMoveAndBoard {
  mb_move : Move;
  mb_board : Board;
  reset_50_moves : bool
}.
Arguments MoveAndBoard : clear implicits.
Arguments mkMoveAndBoard {Move Board}.

(** What the evaluation cache stores under a fingerprint. *)
Record CachedValue : Type := mkCachedValue {
  cv_q : spec_float;
  cv_p : list (Z * spec_float)
}.

Record SearchLimits : Type := mkSearchLimits {
  visits : Z;
  playouts : Z;
  time_ms : Z
}.

Record ThinkingInfo {Move : Type} : Type := mkThinkingInfo {
  depth : Z;
  seldepth : Z;
  time : Z;
  nodes : Z;
  hashfull : Z;
  nps : Z;
  score : spec_float;
  pv : list Move;
  comment : string
}.
Arguments ThinkingInfo : clear implicits.
Arguments mkThinkingInfo {Move}.

(** A call the search makes to its host. *)
Inductive Callback {Move : Type} : Type :=
| InfoCallback (info : ThinkingInfo Move)
| BestMoveCallback (best ponder : Move).
Arguments Callback : clear implicits.

(** The collaborators of the search: board rules, moves, the node methods
    declared outside [search.cc], the evaluation cache, the network, the
    clock and [log] of the C library.  Their code is not among the sources,
    and the search is written over any implementation of them.
    [EncodeNode] is a function of [search.cc] itself, but it only moves
    bitboards of [ChessBoard] into planes and no property below looks into
    the planes, so it is taken the same way. *)
Class Collaborators (Move Board InputPlanes NNCache : Type) : Type := {
  (* Move *)
  Move_null : Move;
  Move_Mirror : Move -> Move;
  as_nn_index : Move -> Z;
  (* ChessBoard *)
  Board_null : Board;
  GenerateValidMoves : Board -> list (MoveAndBoard Move Board);
  GeneratePseudovalidMoves : Board -> list Move;
  IsUnderCheck : Board -> bool;
  HasMatingMaterial : Board -> bool;
  Board_Mirror : Board -> Board;
  flipped : Board -> bool;
  (* Node methods that look at the history of a node *)
  BoardHash : list (Node Move Board) -> ptr -> Z;
  ComputeRepetitions : list (Node Move Board) -> ptr -> Z;
  EncodeNode : list (Node Move Board) -> ptr -> InputPlanes;
  (* NNCache *)
  ContainsKey : NNCache -> Z -> bool;
  Lookup : NNCache -> Z -> option CachedValue;
  Insert : NNCache -> Z -> CachedValue -> NNCache;
  GetSize : NNCache -> Z;
  GetCapacity : NNCache -> Z;
  (* Network *)
  nn_q : InputPlanes -> spec_float;
  nn_p : InputPlanes -> Z -> spec_float;
  (* <cmath> *)
  log : spec_float -> spec_float;
  (* std::chrono::steady_clock: the k-th reading, in ms since start_time_ *)
  steady_clock : nat -> Z
}.

(* ------------------------------------------------------------------ *)
(** ** Field assignments

    [set_f x nd] is the node [nd] after [nd.f = x]. *)

Section NodeFields.
Context {Move Board : Type}.

Definition set_parent (x : option ptr) (nd : Node Move Board) : Node Move Board :=
  mkNode
     x (child nd) (sibling nd) (move nd) (board nd) (no_capture_ply nd)
     (repetitions nd) (ply_count nd) (n_in_flight nd) (n nd) (v nd) (q nd)
     (w nd) (p nd) (max_depth nd) (full_depth nd) (is_terminal nd).

Definition set_child (x : option ptr) (nd : Node Move Board) : Node Move Board :=
  mkNode
     (parent nd) x (sibling nd) (move nd) (board nd) (no_capture_ply nd)
     (repetitions nd) (ply_count nd) (n_in_flight nd) (n nd) (v nd) (q nd)
     (w nd) (p nd) (max_depth nd) (full_depth nd) (is_terminal nd).

Definition set_sibling (x : option ptr) (nd : Node Move Board) : Node Move Board :=
  mkNode
     (parent nd) (child nd) x (move nd) (board nd) (no_capture_ply nd)
     (repetitions nd) (ply_count nd) (n_in_flight nd) (n nd) (v nd) (q nd)
     (w nd) (p nd) (max_depth nd) (full_depth nd) (is_terminal nd).

Definition set_move (x : Move) (nd : Node Move Board) : Node Move Board :=
  mkNode
     (parent nd) (child nd) (sibling nd) x (board nd) (no_capture_ply nd)
     (repetitions nd) (ply_count nd) (n_in_flight nd) (n nd) (v nd) (q nd)
     (w nd) (p nd) (max_depth nd) (full_depth nd) (is_terminal nd).

Definition set_board (x : Board) (nd : Node Move Board) : Node Move Board :=
  mkNode
     (parent nd) (child nd) (sibling nd) (move nd) x (no_capture_ply nd)
     (repetitions nd) (ply_count nd) (n_in_flight nd) (n nd) (v nd) (q nd)
     (w nd) (p nd) (max_depth nd) (full_depth nd) (is_terminal nd).

Definition set_no_capture_ply (x : Z) (nd : Node Move Board) : Node Move Board :=
  mkNode
     (parent nd) (child nd) (sibling nd) (move nd) (board nd) x
     (repetitions nd) (ply_count nd) (n_in_flight nd) (n nd) (v nd) (q nd)
     (w nd) (p nd) (max_depth nd) (full_depth nd) (is_terminal nd).

Definition set_repetitions (x : Z) (nd : Node Move Board) : Node Move Board :=
  mkNode
     (parent nd) (child nd) (sibling nd) (move nd) (board nd) (no_capture_ply nd)
     x (ply_count nd) (n_in_flight nd) (n nd) (v nd) (q nd)
     (w nd) (p nd) (max_depth nd) (full_depth nd) (is_terminal nd).

Definition set_ply_count (x : Z) (nd : Node Move Board) : Node Move Board :=
  mkNode
     (parent nd) (child nd) (sibling nd) (move nd) (board nd) (no_capture_ply nd)
     (repetitions nd) x (n_in_flight nd) (n nd) (v nd) (q nd)
     (w nd) (p nd) (max_depth nd) (full_depth nd) (is_terminal nd).

Definition set_n_in_flight (x : Z) (nd : Node Move Board) : Node Move Board :=
  mkNode
     (parent nd) (child nd) (sibling nd) (move nd) (board nd) (no_capture_ply nd)
     (repetitions nd) (ply_count nd) x (n nd) (v nd) (q nd)
     (w nd) (p nd) (max_depth nd) (full_depth nd) (is_terminal nd).

Definition set_n (x : Z) (nd : Node Move Board) : Node Move Board :=
  mkNode
     (parent nd) (child nd) (sibling nd) (move nd) (board nd) (no_capture_ply nd)
     (repetitions nd) (ply_count nd) (n_in_flight nd) x (v nd) (q nd)
     (w nd) (p nd) (max_depth nd) (full_depth nd) (is_terminal nd).

Definition set_v (x : spec_float) (nd : Node Move Board) : Node Move Board :=
  mkNode
     (parent nd) (child nd) (sibling nd) (move nd) (board nd) (no_capture_ply nd)
     (repetitions nd) (ply_count nd) (n_in_flight nd) (n nd) x (q nd)
     (w nd) (p nd) (max_depth nd) (full_depth nd) (is_terminal nd).

Definition set_q (x : spec_float) (nd : Node Move Board) : Node Move Board :=
  mkNode
     (parent nd) (child nd) (sibling nd) (move nd) (board nd) (no_capture_ply nd)
     (repetitions nd) (ply_count nd) (n_in_flight nd) (n nd) (v nd) x
     (w nd) (p nd) (max_depth nd) (full_depth nd) (is_terminal nd).

Definition set_w (x : spec_float) (nd : Node Move Board) : Node Move Board :=
  mkNode
     (parent nd) (child nd) (sibling nd) (move nd) (board nd) (no_capture_ply nd)
     (repetitions nd) (ply_count nd) (n_in_flight nd) (n nd) (v nd) (q nd)
     x (p nd) (max_depth nd) (full_depth nd) (is_terminal nd).

Definition set_p (x : spec_float) (nd : Node Move Board) : Node Move Board :=
  mkNode
     (parent nd) (child nd) (sibling nd) (move nd) (board nd) (no_capture_ply nd)
     (repetitions nd) (ply_count nd) (n_in_flight nd) (n nd) (v nd) (q nd)
     (w nd) x (max_depth nd) (full_depth nd) (is_terminal nd).

Definition set_max_depth (x : Z) (nd : Node Move Board) : Node Move Board :=
  mkNode
     (parent nd) (child nd) (sibling nd) (move nd) (board nd) (no_capture_ply nd)
     (repetitions nd) (ply_count nd) (n_in_flight nd) (n nd) (v nd) (q nd)
     (w nd) (p nd) x (full_depth nd) (is_terminal nd).

Definition set_full_depth (x : Z) (nd : Node Move Board) : Node Move Board :=
  mkNode
     (parent nd) (child nd) (sibling nd) (move nd) (board nd) (no_capture_ply nd)
     (repetitions nd) (ply_count nd) (n_in_flight nd) (n nd) (v nd) (q nd)
     (w nd) (p nd) (max_depth nd) x (is_terminal nd).

Definition set_is_terminal (x : bool) (nd : Node Move Board) : Node Move Board :=
  mkNode
     (parent nd) (child nd) (sibling nd) (move nd) (board nd) (no_capture_ply nd)
     (repetitions nd) (ply_count nd) (n_in_flight nd) (n nd) (v nd) (q nd)
     (w nd) (p nd) (max_depth nd) (full_depth nd) x.

End NodeFields.

(* ------------------------------------------------------------------ *)
(** ** The search object

    The members of [Search] that [search.cc] uses.  [node_pool_] is the
    arena itself.  [clock_reads] counts the readings of the steady clock
    made so far, and [callbacks] is the list of calls made to
    [info_callback_] and [best_move_callback_], oldest first. *)

Record Search {Move Board NNCache : Type} : Type := mkSearch {
  node_pool_ : list (Node Move Board);
  root_node_ : ptr;
  cache_ : NNCache;
  limits_ : SearchLimits;
  initial_visits_ : Z;
  total_playouts_ : Z;
  stop_ : bool;
  responded_bestmove_ : bool;
  best_move_node_ : option ptr;
  last_outputted_best_move_node_ : option ptr;
  uci_info_ : ThinkingInfo Move;
  kMiniBatchSize : Z;
  kMiniPrefetchBatch : Z;
  kAggresiveCaching : bool;
  kCpuct : spec_float;
  clock_reads : nat;
  callbacks : list (Callback Move)
}.
Arguments Search : clear implicits.
Arguments mkSearch {Move Board NNCache}.

Section SearchFields.
Context {Move Board NNCache : Type}.

Definition set_node_pool_ (x : list (Node Move Board))
  (s : Search Move Board NNCache) : Search Move Board NNCache :=
  mkSearch x (root_node_ s) (cache_ s) (limits_ s) (initial_visits_ s)
    (total_playouts_ s) (stop_ s) (responded_bestmove_ s)
    (best_move_node_ s) (last_outputted_best_move_node_ s) (uci_info_ s)
    (kMiniBatchSize s) (kMiniPrefetchBatch s) (kAggresiveCaching s)
    (kCpuct s) (clock_reads s) (callbacks s).

Definition set_cache_ (x : NNCache)
  (s : Search Move Board NNCache) : Search Move Board NNCache :=
  mkSearch (node_pool_ s) (root_node_ s) x (limits_ s) (initial_visits_ s)
    (total_playouts_ s) (stop_ s) (responded_bestmove_ s)
    (best_move_node_ s) (last_outputted_best_move_node_ s) (uci_info_ s)
    (kMiniBatchSize s) (kMiniPrefetchBatch s) (kAggresiveCaching s)
    (kCpuct s) (clock_reads s) (callbacks s).

Definition set_total_playouts_ (x : Z)
  (s : Search Move Board NNCache) : Search Move Board NNCache :=
  mkSearch (node_pool_ s) (root_node_ s) (cache_ s) (limits_ s)
    (initial_visits_ s) x (stop_ s) (responded_bestmove_ s)
    (best_move_node_ s) (last_outputted_best_move_node_ s) (uci_info_ s)
    (kMiniBatchSize s) (kMiniPrefetchBatch s) (kAggresiveCaching s)
    (kCpuct s) (clock_reads s) (callbacks s).

Definition set_stop_ (x : bool)
  (s : Search Move Board NNCache) : Search Move Board NNCache :=
  mkSearch (node_pool_ s) (root_node_ s) (cache_ s) (limits_ s)
    (initial_visits_ s) (total_playouts_ s) x (responded_bestmove_ s)
    (best_move_node_ s) (last_outputted_best_move_node_ s) (uci_info_ s)
    (kMiniBatchSize s) (kMiniPrefetchBatch s) (kAggresiveCaching s)
    (kCpuct s) (clock_reads s) (callbacks s).

Definition set_responded_bestmove_ (x : bool)
  (s : Search Move Board NNCache) : Search Move Board NNCache :=
  mkSearch (node_pool_ s) (root_node_ s) (cache_ s) (limits_ s)
    (initial_visits_ s) (total_playouts_ s) (stop_ s) x (best_move_node_ s)
    (last_outputted_best_move_node_ s) (uci_info_ s) (kMiniBatchSize s)
    (kMiniPrefetchBatch s) (kAggresiveCaching s) (kCpuct s) (clock_reads s)
    (callbacks s).

Definition set_best_move_node_ (x : option ptr)
  (s : Search Move Board NNCache) : Search Move Board NNCache :=
  mkSearch (node_pool_ s) (root_node_ s) (cache_ s) (limits_ s)
    (initial_visits_ s) (total_playouts_ s) (stop_ s)
    (responded_bestmove_ s) x (last_outputted_best_move_node_ s)
    (uci_info_ s) (kMiniBatchSize s) (kMiniPrefetchBatch s)
    (kAggresiveCaching s) (kCpuct s) (clock_reads s) (callbacks s).

Definition set_last_outputted_best_move_node_ (x : option ptr)
  (s : Search Move Board NNCache) : Search Move Board NNCache :=
  mkSearch (node_pool_ s) (root_node_ s) (cache_ s) (limits_ s)
    (initial_visits_ s) (total_playouts_ s) (stop_ s)
    (responded_bestmove_ s) (best_move_node_ s) x (uci_info_ s)
    (kMiniBatchSize s) (kMiniPrefetchBatch s) (kAggresiveCaching s)
    (kCpuct s) (clock_reads s) (callbacks s).

Definition set_uci_info_ (x : ThinkingInfo Move)
  (s : Search Move Board NNCache) : Search Move Board NNCache :=
  mkSearch (node_pool_ s) (root_node_ s) (cache_ s) (limits_ s)
    (initial_visits_ s) (total_playouts_ s) (stop_ s)
    (responded_bestmove_ s) (best_move_node_ s)
    (last_outputted_best_move_node_ s) x (kMiniBatchSize s)
    (kMiniPrefetchBatch s) (kAggresiveCaching s) (kCpuct s) (clock_reads s)
    (callbacks s).

Definition set_clock_reads (x : nat)
  (s : Search Move Board NNCache) : Search Move Board NNCache :=
  mkSearch (node_pool_ s) (root_node_ s) (cache_ s) (limits_ s)
    (initial_visits_ s) (total_playouts_ s) (stop_ s)
    (responded_bestmove_ s) (best_move_node_ s)
    (last_outputted_best_move_node_ s) (uci_info_ s) (kMiniBatchSize s)
    (kMiniPrefetchBatch s) (kAggresiveCaching s) (kCpuct s) x (callbacks s).

Definition set_callbacks (x : list (Callback Move))
  (s : Search Move Board NNCache) : Search Move Board NNCache :=
  mkSearch (node_pool_ s) (root_node_ s) (cache_ s) (limits_ s)
    (initial_visits_ s) (total_playouts_ s) (stop_ s)
    (responded_bestmove_ s) (best_move_node_ s)
    (last_outputted_best_move_node_ s) (uci_info_ s) (kMiniBatchSize s)
    (kMiniPrefetchBatch s) (kAggresiveCaching s) (kCpuct s) (clock_reads s)
    x.

End SearchFields.

(* ------------------------------------------------------------------ *)
(** ** The functions of [search.cc] *)

Section Model.
Context {Move Board InputPlanes NNCache : Type}.
Context {collab : Collaborators Move Board InputPlanes NNCache}.

(** *** Node methods declared outside [search.cc] *)

(** Modelled from the spec: [Node::ComputeU] is not among the sources; the
    selector's score is given as U(i) = p_i / (1 + n_i + n_in_flight_i). *)
Definition ComputeU (nd : Node Move Board) : spec_float :=
  F32.div (p nd) (F32.of_Z (1 + n nd + n_in_flight nd)).

(** Modelled from the spec: [Node::ComputeQ] is not among the sources; the
    selector's score uses Q(i) = q_i, and 0 for an unvisited node. *)
Definition ComputeQ (nd : Node Move Board) : spec_float :=
  if n nd =? 0 then F32.zero else q nd.

(** Modelled from the spec: [NodePool::GetNode] is not among the sources; a
    node handed out by the pool has no links, zero counters and statistics,
    and is not terminal. *)
Definition fresh_node : Node Move Board :=
  mkNode None None None Move_null Board_null 0 0 0 0 0
    F32.zero F32.zero F32.zero F32.zero 0 0 false.

(** *** The caching computation *)

(** Modelled from the spec: [CachingComputation] is not among the sources.
    It is the list of the inputs added so far, in insertion order; an input
    is either a hit, with the cached entry, or a miss, with what is sent to
    the network. *)
Inductive BatchItem : Type :=
| CacheHit (cv : CachedValue)
| CacheMiss (hash : Z) (planes : InputPlanes) (moves : list Z).

Definition is_miss (it : BatchItem) : bool :=
  match it with CacheMiss _ _ _ => true | CacheHit _ => false end.

(** Modelled from the spec: [add_input_by_hash]: if the cache has [h],
    record the cached entry and return "cached"; else return "miss". *)
Definition AddInputByHash (cache : NNCache) (comp : list BatchItem) (hash : Z)
  : bool * list BatchItem :=
  match Lookup cache hash with
  | Some cv => (true, comp ++ [CacheHit cv])
  | None => (false, comp)
  end.

(** Modelled from the spec: [add_input] enqueues a cache-miss computation. *)
Definition AddInput (comp : list BatchItem) (hash : Z) (planes : InputPlanes)
  (moves : list Z) : list BatchItem :=
  comp ++ [CacheMiss hash planes moves].

(** Modelled from the spec: the count of enqueued miss items. *)
Definition GetCacheMisses (comp : list BatchItem) : Z :=
  Z.of_nat (length (filter (fun it => is_miss it = true) comp)).

(** Modelled from the spec: total items (hits and misses). *)
Definition GetBatchSize (comp : list BatchItem) : Z :=
  Z.of_nat (length comp).

(** Modelled from the spec: [compute_blocking] sends the misses to the
    network and inserts each result into the cache under its fingerprint. *)
Definition ComputeBlocking (cache : NNCache) (comp : list BatchItem) : NNCache :=
  fold_left
    (fun c it =>
       match it with
       | CacheMiss h pl mv =>
           Insert c h (mkCachedValue (nn_q pl) (map (fun m => (m, nn_p pl m)) mv))
       | CacheHit _ => c
       end)
    comp cache.

Fixpoint assoc_prior (l : list (Z * spec_float)) (move_index : Z) : spec_float :=
  match l with
  | [] => F32.zero
  | (m, x) :: l' => if m =? move_index then x else assoc_prior l' move_index
  end.

(** Modelled from the spec: readout over hits and misses in insertion
    order.  A hit answers from the cached entry, a miss from the network. *)
Definition item_q (it : BatchItem) : spec_float :=
  match it with
  | CacheHit cv => cv_q cv
  | CacheMiss _ pl _ => nn_q pl
  end.

Definition item_p (it : BatchItem) (move_index : Z) : spec_float :=
  match it with
  | CacheHit cv => assoc_prior (cv_p cv) move_index
  | CacheMiss _ pl _ => nn_p pl move_index
  end.

Definition GetQVal (comp : list BatchItem) (i : nat) : option spec_float :=
  it ← comp !! i; Some (item_q it).

Definition GetPVal (comp : list BatchItem) (i : nat) (move_index : Z)
  : option spec_float :=
  it ← comp !! i; Some (item_p it move_index).

(** *** [Search::AddNodeToCompute] *)

(** [for (Node* iter = node->child; iter; iter = iter->sibling)
       moves.emplace_back(iter->move.as_nn_index());] *)
Fixpoint child_moves (fuel : nat) (pool : list (Node Move Board))
  (iter : option ptr) : option (list Z) :=
  match iter with
  | None => Some []
  | Some c =>
      match fuel with
      | O => None
      | S f =>
          nd ← pool !! c;
          rest ← child_moves f pool (sibling nd);
          Some (as_nn_index (move nd) :: rest)
      end
  end.

(** Returns whether the node was already in cache. *)
Definition AddNodeToCompute (pool : list (Node Move Board)) (cache : NNCache)
  (node : ptr) (comp : list BatchItem) (add_if_cached : bool)
  : option (bool * list BatchItem) :=
  nd ← pool !! node;
  let hash := BoardHash pool node in
  let '(hit, comp1) :=
    if add_if_cached then AddInputByHash cache comp hash
    else (ContainsKey cache hash, comp) in
  if hit then Some (true, comp1)
  else
    let planes := EncodeNode pool node in
    moves ← match child nd with
            | Some _ => child_moves (length pool) pool (child nd)
            | None => Some (map as_nn_index (GeneratePseudovalidMoves (board nd)))
            end;
    Some (false, AddInput comp1 hash planes moves).

(** *** [GetBestChild] *)

(** The loop of [GetBestChild], entered at [node] with the running [best]
    and [best_node]. *)
Fixpoint GetBestChild_loop (fuel : nat) (pool : list (Node Move Board))
  (node : option ptr) (best : Z) (best_node : option ptr)
  : option (option ptr) :=
  match node with
  | None => Some best_node
  | Some c =>
      match fuel with
      | O => None
      | S f =>
          nd ← pool !! c;
          let k := wrap_int (n nd + n_in_flight nd) in
          if best <? k
          then GetBestChild_loop f pool (sibling nd) k (Some c)
          else GetBestChild_loop f pool (sibling nd) best best_node
      end
  end.

(** Returns a child with most visits. *)
Definition GetBestChild (pool : list (Node Move Board)) (parent_ : ptr)
  : option (option ptr) :=
  nd ← pool !! parent_;
  GetBestChild_loop (length pool) pool (child nd) (-1) None.

(** *** [Search::GetBestMoveInternal] *)

Definition GetBestMoveInternal (s : Search Move Board NNCache)
  : option (Move * Move) :=
  let pool := node_pool_ s in
  rootnd ← pool !! root_node_ s;
  match child rootnd with
  | None => Some (Move_null, Move_null)
  | Some _ =>
      ob ← GetBestChild pool (root_node_ s);
      best_node ← ob;
      bnd ← pool !! best_node;
      let mv := if negb (flipped (board bnd))
                then Move_Mirror (move bnd) else move bnd in
      ponder_move ←
        match child bnd with
        | Some _ =>
            oc ← GetBestChild pool best_node;
            c ← oc;
            cnd ← pool !! c;
            Some (if flipped (board bnd)
                  then Move_Mirror (move cnd) else move cnd)
        | None => Some Move_null
        end;
      Some (mv, ponder_move)
  end.

(** *** [Search::ExtendNode] *)

(** One turn of the loop that adds the valid moves as children: a node is
    taken from the pool, linked after [prev_node] and filled in. *)
Definition add_child (pool : list (Node Move Board)) (node prev_node : ptr)
  (mv : MoveAndBoard Move Board) : option (list (Node Move Board) * ptr) :=
  let new_node := length pool in
  let pool := pool ++ [fresh_node] in
  nd ← pool !! node;
  let pool := alter (set_parent (Some node)) new_node pool in
  let pool :=
    if bool_decide (prev_node = node)
    then alter (set_child (Some new_node)) node pool
    else alter (set_sibling (Some new_node)) prev_node pool in
  let pool := alter (set_move (mb_move mv)) new_node pool in
  let pool := alter (set_board (mb_board mv)) new_node pool in
  let pool := alter (fun x => set_board (Board_Mirror (board x)) x) new_node pool in
  let pool :=
    alter (set_no_capture_ply
             (if reset_50_moves mv then 0 else no_capture_ply nd + 1))
          new_node pool in
  let pool := alter (set_ply_count (ply_count nd + 1)) new_node pool in
  Some (pool, new_node).

Fixpoint add_children (pool : list (Node Move Board)) (node prev_node : ptr)
  (valid_moves : list (MoveAndBoard Move Board))
  : option (list (Node Move Board)) :=
  match valid_moves with
  | [] => Some pool
  | mv :: rest =>
      '(pool1, new_node) ← add_child pool node prev_node mv;
      add_children pool1 node new_node rest
  end.

(** [node->is_terminal = true; node->v = x;] *)
Definition make_terminal (x : spec_float) (nd : Node Move Board)
  : Node Move Board :=
  set_v x (set_is_terminal true nd).

Definition ExtendNode (pool : list (Node Move Board)) (node : ptr)
  : option (list (Node Move Board)) :=
  nd ← pool !! node;
  let valid_moves := GenerateValidMoves (board nd) in
  match valid_moves with
  | [] =>
      (* Checkmate or stalemate. *)
      if IsUnderCheck (board nd)
      then Some (<[node := make_terminal F32.one nd]> pool)
      else Some (<[node := make_terminal F32.zero nd]> pool)
  | _ :: _ =>
      if negb (HasMatingMaterial (board nd))
      then Some (<[node := make_terminal F32.zero nd]> pool)
      else if 100 <=? no_capture_ply nd
      then Some (<[node := make_terminal F32.zero nd]> pool)
      else
        let nd1 := set_repetitions (ComputeRepetitions pool node) nd in
        if 2 <=? repetitions nd1
        then Some (<[node := make_terminal F32.zero nd1]> pool)
        else add_children (<[node := nd1]> pool) node node valid_moves
  end.

(** *** [Search::PickNodeToExtend] *)

(** [kCpuct * std::sqrt(node->n + 1)], computed in [double] and stored in a
    [float]. *)
Definition puct_factor (cpuct : spec_float) (nd : Node Move Board) : spec_float :=
  F64.to_F32 (F64.mul (F64.of_F32 cpuct) (F64.sqrt (F64.of_Z (n nd + 1)))).

(** [factor * iter->ComputeU() + iter->ComputeQ()] *)
Definition puct_score (factor : spec_float) (nd : Node Move Board) : spec_float :=
  F32.add (F32.mul factor (ComputeU nd)) (ComputeQ nd).

(** Undo the increments of ancestor nodes:
    [for (node = node->parent; node != root_node_->parent; node = node->parent)
       --node->n_in_flight;]
    entered with [node] already moved to the parent. *)
Fixpoint unwind (fuel : nat) (pool : list (Node Move Board)) (root : ptr)
  (node : option ptr) : option (list (Node Move Board)) :=
  rootnd ← pool !! root;
  if bool_decide (node = parent rootnd) then Some pool
  else
    match fuel with
    | O => None
    | S f =>
        c ← node;
        nd ← pool !! c;
        unwind f (<[c := set_n_in_flight (n_in_flight nd - 1) nd]> pool)
               root (parent nd)
    end.

(** The loop over the children of a node that keeps the best score seen so
    far in [best] and the child that reached it in [node]. *)
Fixpoint pick_child (fuel : nat) (pool : list (Node Move Board))
  (factor : spec_float) (iter : option ptr) (best : spec_float) (node : ptr)
  : option ptr :=
  match iter with
  | None => Some node
  | Some c =>
      match fuel with
      | O => None
      | S f =>
          nd ← pool !! c;
          let score_ := puct_score factor nd in
          if F32.gtb score_ best
          then pick_child f pool factor (sibling nd) score_ c
          else pick_child f pool factor (sibling nd) best node
      end
  end.

(** What one turn of the [while (true)] of [PickNodeToExtend] ends with. *)
Inductive PickStep : Type :=
| PickBusy (pool : list (Node Move Board))
| PickFound (pool : list (Node Move Board)) (node : ptr)
| PickDescend (pool : list (Node Move Board)) (node : ptr).

(** One turn of the [while (true)] of [PickNodeToExtend], at [node]. *)
Definition pick_step (pool : list (Node Move Board)) (root : ptr)
  (cpuct : spec_float) (node : ptr) : option PickStep :=
  nd ← pool !! node;
  if (n nd =? 0) && (0 <? n_in_flight nd)
  then
    (* The node is currently being processed by another thread. *)
    pool1 ← unwind (length pool) pool root (parent nd);
    Some (PickBusy pool1)
  else
    let nd1 := set_n_in_flight (n_in_flight nd + 1) nd in
    let pool1 := <[node := nd1]> pool in
    match child nd1 with
    | None => Some (PickFound pool1 node)
    | Some _ =>
        let factor := puct_factor cpuct nd1 in
        c ← pick_child (length pool1) pool1 factor (child nd1)
              (F32.of_Z (-100)) node;
        Some (PickDescend pool1 c)
    end.

Fixpoint PickNodeToExtend_loop (fuel : nat) (pool : list (Node Move Board))
  (root : ptr) (cpuct : spec_float) (node : ptr)
  : option (list (Node Move Board) * option ptr) :=
  match fuel with
  | O => None
  | S f =>
      st ← pick_step pool root cpuct node;
      match st with
      | PickBusy pool1 => Some (pool1, None)
      | PickFound pool1 c => Some (pool1, Some c)
      | PickDescend pool1 c => PickNodeToExtend_loop f pool1 root cpuct c
      end
  end.

Definition PickNodeToExtend (pool : list (Node Move Board)) (root : ptr)
  (cpuct : spec_float) (node : ptr)
  : option (list (Node Move Board) * option ptr) :=
  PickNodeToExtend_loop (S (length pool)) pool root cpuct node.

(** *** [Search::PrefetchIntoCache] *)

(** [operator<] of [std::pair<float, Node*>]; nodes are compared by their
    place in the arena. *)
Definition scored_ltb (a b : spec_float * ptr) : bool :=
  SFltb a.1 b.1 || (negb (SFltb b.1 a.1) && (a.2 <? b.2)%nat).

Fixpoint insert_scored (x : spec_float * ptr) (l : list (spec_float * ptr))
  : list (spec_float * ptr) :=
  match l with
  | [] => [x]
  | y :: l' => if scored_ltb x y then x :: l else y :: insert_scored x l'
  end.

(** [std::partial_sort(begin + first, begin + middle, end)]: the smallest
    [middle - first] elements of the tail come first, in increasing order.
    The standard leaves the order of the rest open; here the rest is left in
    increasing order as well. *)
Definition partial_sort (first middle : nat) (scores : list (spec_float * ptr))
  : list (spec_float * ptr) :=
  take first scores ++ foldr insert_scored [] (drop first scores).

(** [for (Node* iter = node->child; iter; iter = iter->sibling)
       scores.emplace_back(factor * iter->ComputeU() + iter->ComputeQ(), iter);] *)
Fixpoint child_scores (fuel : nat) (pool : list (Node Move Board))
  (factor : spec_float) (iter : option ptr)
  : option (list (spec_float * ptr)) :=
  match iter with
  | None => Some []
  | Some c =>
      match fuel with
      | O => None
      | S f =>
          nd ← pool !! c;
          rest ← child_scores f pool factor (sibling nd);
          Some ((puct_score factor nd, c) :: rest)
      end
  end.

(** [int(n->p * factor / (next_score - q) - n->n - n->n_in_flight) + 1] *)
Definition visits_to_overtake (factor next_score q_ : spec_float)
  (nd : Node Move Board) : option Z :=
  t ← F32.to_int
        (F32.sub
           (F32.sub (F32.div (F32.mul (p nd) factor) (F32.sub next_score q_))
                    (F32.of_Z (n nd)))
           (F32.of_Z (n_in_flight nd)));
  if t + 1 <=? INT_MAX then Some (t + 1) else None.

(** The loop over [scores] of [PrefetchIntoCache]; [rec] is the recursive
    call, [k] counts the turns that are left and [i] is the loop index. *)
Fixpoint prefetch_children
  (rec : ptr -> Z -> list BatchItem -> option (Z * list BatchItem))
  (pool : list (Node Move Board)) (factor : spec_float)
  (k : nat) (i : nat) (scores : list (spec_float * ptr))
  (first_unsorted_index : nat) (budget budget_to_spend total_budget_spent : Z)
  (comp : list BatchItem) : option (Z * list BatchItem) :=
  match k with
  | O => Some (total_budget_spent, comp)
  | S k' =>
      if budget <=? 0 then Some (total_budget_spent, comp)
      else
        let size := length scores in
        (* Sort next chunk of a vector. 3 of a time. *)
        let '(scores, first_unsorted_index) :=
          if negb (first_unsorted_index =? size)%nat
             && (first_unsorted_index <=? i + 2)%nat
          then
            let new_unsorted_index :=
              Nat.min size (if budget <? 2 then (first_unsorted_index + 2)%nat
                            else (first_unsorted_index + 3)%nat) in
            (partial_sort first_unsorted_index new_unsorted_index scores,
             new_unsorted_index)
          else (scores, first_unsorted_index) in
        '(_, c) ← scores !! i;
        nd ← pool !! c;
        (* Last node gets the same budget as prev-to-last node. *)
        budget_to_spend ←
          (if negb (i =? size - 1)%nat
           then
             '(next_score, _) ← scores !! S i;
             let q_ := ComputeQ nd in
             if F32.gtb next_score q_
             then
               t ← visits_to_overtake factor next_score q_ nd;
               Some (std_min budget t)
             else Some budget
           else Some budget_to_spend);
        '(budget_spent, comp1) ← rec c budget_to_spend comp;
        prefetch_children rec pool factor k' (S i) scores first_unsorted_index
          (budget - budget_spent) budget_to_spend
          (total_budget_spent + budget_spent) comp1
  end.

(** Prefetches up to [budget] nodes into cache.  Returns number of nodes
    prefetched. *)
Fixpoint PrefetchIntoCache_rec (fuel : nat) (pool : list (Node Move Board))
  (cache : NNCache) (aggressive : bool) (cpuct : spec_float)
  (node : ptr) (budget : Z) (comp : list BatchItem)
  : option (Z * list BatchItem) :=
  match fuel with
  | O => None
  | S f =>
      if budget <=? 0 then Some (0, comp)
      else
        nd ← pool !! node;
        (* We are in a leaf, which is not yet being processed. *)
        if n nd + n_in_flight nd =? 0
        then
          '(cached, comp1) ← AddNodeToCompute pool cache node comp false;
          if cached : bool then Some ((if aggressive then 0 else 1), comp1)
          else Some (1, comp1)
        else
          (* A node in progress of expansion or terminal: not prefetching. *)
          match child nd with
          | None => Some (0, comp)
          | Some _ =>
              let factor := puct_factor cpuct nd in
              scores ← child_scores (length pool) pool factor (child nd);
              prefetch_children
                (PrefetchIntoCache_rec f pool cache aggressive cpuct)
                pool factor (length scores) 0%nat scores 0%nat
                budget budget 0 comp
          end
  end.

Definition PrefetchIntoCache (s : Search Move Board NNCache) (node : ptr)
  (budget : Z) (comp : list BatchItem) : option (Z * list BatchItem) :=
  PrefetchIntoCache_rec (S (length (node_pool_ s))) (node_pool_ s) (cache_ s)
    (kAggresiveCaching s) (kCpuct s) node budget comp.

(** *** Progress reports *)

(** [GetTimeSinceStart()]: one more reading of the clock. *)
Definition GetTimeSinceStart (s : Search Move Board NNCache)
  : Z * Search Move Board NNCache :=
  (steady_clock (clock_reads s), set_clock_reads (S (clock_reads s)) s).

(** [-191 * log(2 / (q * 0.99 + 1) - 1)], in [double]. *)
Definition centipawns (q_ : spec_float) : spec_float :=
  F64.mul (F64.of_Z (-191))
    (log (F64.sub
            (F64.div (F64.of_Z 2)
               (F64.add (F64.mul (F64.of_F32 q_)
                                 (F64.div (F64.of_Z 99) (F64.of_Z 100)))
                        (F64.of_Z 1)))
            (F64.of_Z 1))).

(** [for (Node* iter = best_move_node_; iter; iter = GetBestChild(iter))] *)
Fixpoint principal_variation (fuel : nat) (pool : list (Node Move Board))
  (iter : option ptr) : option (list Move) :=
  match iter with
  | None => Some []
  | Some c =>
      match fuel with
      | O => None
      | S f =>
          nd ← pool !! c;
          let m := if negb (flipped (board nd))
                   then Move_Mirror (move nd) else move nd in
          next ← GetBestChild pool c;
          rest ← principal_variation f pool next;
          Some (m :: rest)
      end
  end.

Definition SendUciInfo (s : Search Move Board NNCache)
  : option (Search Move Board NNCache) :=
  match best_move_node_ s with
  | None => Some s
  | Some b =>
      let pool := node_pool_ s in
      let s := set_last_outputted_best_move_node_ (Some b) s in
      rootnd ← pool !! root_node_ s;
      let '(time_, s) := GetTimeSinceStart s in
      if GetCapacity (cache_ s) =? 0 then None
      else
        bnd ← pool !! b;
        pv_ ← principal_variation (S (length pool)) pool (Some b);
        let info :=
          mkThinkingInfo
            (full_depth rootnd)
            (max_depth rootnd)
            time_
            (total_playouts_ s + initial_visits_ s)
            (Z.quot (GetSize (cache_ s) * 1000) (GetCapacity (cache_ s)))
            (if time_ =? 0 then 0
             else Z.quot (total_playouts_ s * 1000) time_)
            (centipawns (q bnd))
            pv_
            EmptyString in
        let s := set_uci_info_ info s in
        Some (set_callbacks (callbacks s ++ [InfoCallback info]) s)
  end.

(** Decides whether anything important changed in stats and new info should
    be shown to a user. *)
Definition MaybeOutputInfo (s : Search Move Board NNCache)
  : option (Search Move Board NNCache) :=
  match best_move_node_ s with
  | None => Some s
  | Some b =>
      if bool_decide (Some b ≠ last_outputted_best_move_node_ s)
      then SendUciInfo s
      else
        rootnd ← node_pool_ s !! root_node_ s;
        if negb (depth (uci_info_ s) =? full_depth rootnd)
           || negb (seldepth (uci_info_ s) =? max_depth rootnd)
        then SendUciInfo s
        else Some s
  end.

(** *** Stop conditions *)

(** [limits_.playouts >= 0 && total_playouts_ >= limits_.playouts] *)
Definition playouts_condition (s : Search Move Board NNCache) : bool :=
  (0 <=? playouts (limits_ s)) && (playouts (limits_ s) <=? total_playouts_ s).

(** [limits_.visits >= 0 && total_playouts_ + initial_visits_ >= limits_.visits] *)
Definition visits_condition (s : Search Move Board NNCache) : bool :=
  (0 <=? visits (limits_ s))
  && (visits (limits_ s) <=? total_playouts_ s + initial_visits_ s).

(** [limits_.time_ms >= 0 && GetTimeSinceStart() >= limits_.time_ms]; the
    clock is read only when the limit is not negative. *)
Definition time_condition (s : Search Move Board NNCache)
  : bool * Search Move Board NNCache :=
  if 0 <=? time_ms (limits_ s)
  then
    let '(t, s1) := GetTimeSinceStart s in
    (time_ms (limits_ s) <=? t, s1)
  else (false, s).

(** The three [if]s of [MaybeTriggerStop] that may set [stop_]. *)
Definition check_limits (s : Search Move Board NNCache)
  : Search Move Board NNCache :=
  let s := if playouts_condition s then set_stop_ true s else s in
  let s := if visits_condition s then set_stop_ true s else s in
  let '(c, s) := time_condition s in
  if c then set_stop_ true s else s.

Definition MaybeTriggerStop (s : Search Move Board NNCache)
  : option (Search Move Board NNCache) :=
  let s := check_limits s in
  if stop_ s && negb (responded_bestmove_ s)
  then
    let s := set_responded_bestmove_ true s in
    s ← SendUciInfo s;
    best_move ← GetBestMoveInternal s;
    let s := set_callbacks
               (callbacks s ++ [BestMoveCallback best_move.1 best_move.2]) s in
    Some (set_best_move_node_ None s)
  else Some s.

Definition Stop (s : Search Move Board NNCache) : Search Move Board NNCache :=
  set_stop_ true s.

Definition Abort (s : Search Move Board NNCache) : Search Move Board NNCache :=
  set_stop_ true (set_responded_bestmove_ true s).

(** [Search::~Search]: [Abort(); Wait();], where [Wait] joins the worker
    threads and touches no member that is kept here. *)
Definition Destroy (s : Search Move Board NNCache) : Search Move Board NNCache :=
  Abort s.

(** *** [Search::Worker] *)

(** Gather nodes to process in the current batch: the [for] loop over [i],
    with [k] turns left. *)
Fixpoint gather (k : nat) (i : Z) (s : Search Move Board NNCache)
  (comp : list BatchItem) (nodes_to_process : list ptr) (new_nodes : Z)
  : option (Search Move Board NNCache * list BatchItem * list ptr * Z) :=
  match k with
  | O => Some (s, comp, nodes_to_process, new_nodes)
  | S k' =>
      if (0 <? i) && (GetCacheMisses comp =? 0)
      then Some (s, comp, nodes_to_process, new_nodes)
      else
        '(pool1, picked) ← PickNodeToExtend (node_pool_ s) (root_node_ s)
                              (kCpuct s) (root_node_ s);
        let s := set_node_pool_ pool1 s in
        match picked with
        | None => Some (s, comp, nodes_to_process, new_nodes)
        | Some node =>
            let new_nodes := new_nodes + 1 in
            let nodes_to_process := nodes_to_process ++ [node] in
            nd ← pool1 !! node;
            if is_terminal nd
            then gather k' (i + 1) s comp nodes_to_process new_nodes
            else
              pool2 ← ExtendNode pool1 node;
              let s := set_node_pool_ pool2 s in
              nd2 ← pool2 !! node;
              if negb (is_terminal nd2)
              then
                (* [add_if_cached] is left to its default, [true] *)
                '(_, comp1) ← AddNodeToCompute pool2 (cache_ s) node comp true;
                gather k' (i + 1) s comp1 nodes_to_process new_nodes
              else gather k' (i + 1) s comp nodes_to_process new_nodes
        end
  end.

(** Populate P values:
    [for (Node* n = node->child; n; n = n->sibling)
       { float p = GetPVal(idx, n->move.as_nn_index()); total += p; n->p = p; }] *)
Fixpoint populate_priors (fuel : nat) (pool : list (Node Move Board))
  (comp : list BatchItem) (idx : nat) (iter : option ptr) (total : spec_float)
  : option (list (Node Move Board) * spec_float) :=
  match iter with
  | None => Some (pool, total)
  | Some c =>
      match fuel with
      | O => None
      | S f =>
          nd ← pool !! c;
          x ← GetPVal comp idx (as_nn_index (move nd));
          populate_priors f (<[c := set_p x nd]> pool) comp idx (sibling nd)
            (F32.add total x)
      end
  end.

(** Scale P values to add up to 1.0:
    [for (Node* n = node->child; n; n = n->sibling) n->p /= total;] *)
Fixpoint scale_priors (fuel : nat) (pool : list (Node Move Board))
  (iter : option ptr) (total : spec_float) : option (list (Node Move Board)) :=
  match iter with
  | None => Some pool
  | Some c =>
      match fuel with
      | O => None
      | S f =>
          nd ← pool !! c;
          scale_priors f (<[c := set_p (F32.div (p nd) total) nd]> pool)
            (sibling nd) total
      end
  end.

(** The body of the loop over [nodes_to_process] that reads the outputs of
    the network, for a node that is not terminal. *)
Definition apply_nn_output (pool : list (Node Move Board))
  (comp : list BatchItem) (idx : nat) (node : ptr)
  : option (list (Node Move Board)) :=
  nd ← pool !! node;
  (* Populate Q value. *)
  x ← GetQVal comp idx;
  let pool := <[node := set_v (F32.neg x) nd]> pool in
  '(pool, total) ← populate_priors (length pool) pool comp idx (child nd) F32.zero;
  if F32.gtb total F32.zero
  then scale_priors (length pool) pool (child nd) total
  else Some pool.

Fixpoint apply_nn_outputs (pool : list (Node Move Board))
  (comp : list BatchItem) (idx_in_computation : nat)
  (nodes_to_process : list ptr) : option (list (Node Move Board)) :=
  match nodes_to_process with
  | [] => Some pool
  | node :: rest =>
      nd ← pool !! node;
      if is_terminal nd
      then apply_nn_outputs pool comp idx_in_computation rest
      else
        pool1 ← apply_nn_output pool comp idx_in_computation node;
        apply_nn_outputs pool1 comp (S idx_in_computation) rest
  end.

(** [for (Node* iter = n->child; iter; iter = iter->sibling)
       if (cur_full_depth > iter->full_depth) cur_full_depth = iter->full_depth;] *)
Fixpoint min_full_depth (fuel : nat) (pool : list (Node Move Board))
  (iter : option ptr) (cur_full_depth : Z) : option Z :=
  match iter with
  | None => Some cur_full_depth
  | Some c =>
      match fuel with
      | O => None
      | S f =>
          nd ← pool !! c;
          min_full_depth f pool (sibling nd)
            (if full_depth nd <? cur_full_depth then full_depth nd
             else cur_full_depth)
      end
  end.

(** The statistics of one node on the way up: W, N, the virtual loss and Q. *)
Definition update_stats (v_ : spec_float) (nd : Node Move Board)
  : Node Move Board :=
  (* Add new value to W. *)
  let nd := set_w (F32.add (w nd) v_) nd in
  (* Increment N. *)
  let nd := set_n (n nd + 1) nd in
  (* Decrement virtual loss. *)
  let nd := set_n_in_flight (n_in_flight nd - 1) nd in
  (* Recompute Q. *)
  set_q (F32.div (w nd) (F32.of_Z (n nd))) nd.

(** The body of the walk up to the root, at the node [c]: statistics, max
    depth, full depth and best move.  It answers with the arena, the best
    root child, [cur_full_depth], [full_depth_updated] and [n->parent]. *)
Definition backup_node (pool : list (Node Move Board)) (root : ptr)
  (best_move_node : option ptr) (c : ptr) (v_ : spec_float)
  (depth_ cur_full_depth : Z) (full_depth_updated : bool)
  : option (list (Node Move Board) * option ptr * Z * bool * option ptr) :=
  nd ← pool !! c;
  let nd := update_stats v_ nd in
  (* Max depth. *)
  let nd := if max_depth nd <? depth_ then set_max_depth depth_ nd else nd in
  let pool := <[c := nd]> pool in
  (* Full depth. *)
  '(pool, cur_full_depth, full_depth_updated) ←
    (if full_depth_updated && (full_depth nd <=? cur_full_depth)
     then
       m ← min_full_depth (length pool) pool (child nd) cur_full_depth;
       if full_depth nd <=? m
       then Some (<[c := set_full_depth (wrap_u16 (m + 1)) nd]> pool,
                  wrap_u16 (m + 1), full_depth_updated)
       else Some (pool, m, false)
     else Some (pool, cur_full_depth, full_depth_updated));
  (* Best move. *)
  best_move_node ←
    (if bool_decide (parent nd = Some root)
     then
       match best_move_node with
       | None => Some (Some c)
       | Some b =>
           bnd ← pool !! b;
           Some (if n bnd <? n nd then Some c else best_move_node)
       end
     else Some best_move_node);
  Some (pool, best_move_node, cur_full_depth, full_depth_updated, parent nd).

(** The walk from a processed node up to the root:
    [for (Node* n = node; n != root_node_->parent; n = n->parent)];
    [v] is flipped for the opponent at every step. *)
Fixpoint backup_loop (fuel : nat) (pool : list (Node Move Board)) (root : ptr)
  (best_move_node : option ptr) (cur : option ptr) (v_ : spec_float)
  (depth_ cur_full_depth : Z) (full_depth_updated : bool)
  : option (list (Node Move Board) * option ptr) :=
  rootnd ← pool !! root;
  if bool_decide (cur = parent rootnd) then Some (pool, best_move_node)
  else
    match fuel with
    | O => None
    | S f =>
        c ← cur;
        let depth_ := wrap_u16 (depth_ + 1) in
        '(pool, best_move_node, cur_full_depth, full_depth_updated, next) ←
          backup_node pool root best_move_node c v_ depth_ cur_full_depth
            full_depth_updated;
        backup_loop f pool root best_move_node next (F32.neg v_)
          depth_ cur_full_depth full_depth_updated
    end.

(** The body of the loop over [nodes_to_process] that updates the nodes. *)
Definition backup (pool : list (Node Move Board)) (root : ptr)
  (best_move_node : option ptr) (node : ptr)
  : option (list (Node Move Board) * option ptr) :=
  nd ← pool !! node;
  backup_loop (length pool) pool root best_move_node (Some node) (v nd) 0
    (if is_terminal nd then 999 else 0) true.

Fixpoint backup_all (pool : list (Node Move Board)) (root : ptr)
  (best_move_node : option ptr) (nodes_to_process : list ptr)
  : option (list (Node Move Board) * option ptr) :=
  match nodes_to_process with
  | [] => Some (pool, best_move_node)
  | node :: rest =>
      '(pool1, best1) ← backup pool root best_move_node node;
      backup_all pool1 root best1 rest
  end.

(** One turn of the [while (true)] of [Worker], up to the exit check. *)
Definition Worker_iteration (s : Search Move Board NNCache)
  : option (Search Move Board NNCache) :=
  (* Gather nodes to process in the current batch. *)
  '(s, comp, nodes_to_process, new_nodes) ←
    gather (Z.to_nat (kMiniBatchSize s)) 0 s [] [] 0;
  (* Try to prefetch nodes which are likely useful in future. *)
  comp ←
    (if (0 <? GetCacheMisses comp)
        && (GetCacheMisses comp <? kMiniPrefetchBatch s)
     then
       '(_, comp1) ← PrefetchIntoCache s (root_node_ s)
                        (kMiniPrefetchBatch s - GetCacheMisses comp) comp;
       Some comp1
     else Some comp);
  (* Evaluate nodes through NN. *)
  s ←
    (if negb (GetBatchSize comp =? 0)
     then
       let s := set_cache_ (ComputeBlocking (cache_ s) comp) s in
       pool ← apply_nn_outputs (node_pool_ s) comp 0 nodes_to_process;
       Some (set_node_pool_ pool s)
     else Some s);
  (* Update nodes. *)
  let s := set_total_playouts_ (total_playouts_ s + new_nodes) s in
  '(pool, best) ← backup_all (node_pool_ s) (root_node_ s) (best_move_node_ s)
                    nodes_to_process;
  let s := set_best_move_node_ best (set_node_pool_ pool s) in
  s ← MaybeOutputInfo s;
  MaybeTriggerStop s.

End Model.

(* ------------------------------------------------------------------ *)
(** ** Vocabulary of the properties *)

Section Vocabulary.
Context {Move Board : Type}.

(** [chain next pool stop start l]: following the link [next] from [start]
    visits exactly the nodes [l], in that order, and then reaches [stop].
    With [next := sibling] and [stop := None] this is a child list; with
    [next := parent] it is the path from a node towards the root. *)
Inductive chain (next : Node Move Board -> option ptr)
  (pool : list (Node Move Board)) (stop : option ptr)
  : option ptr -> list ptr -> Prop :=
| chain_nil : chain next pool stop stop []
| chain_cons c nd l :
    Some c ≠ stop ->
    pool !! c = Some nd ->
    chain next pool stop (next nd) l ->
    chain next pool stop (Some c) (c :: l).

(** The children of the node at [c], in child-list order. *)
Definition children (pool : list (Node Move Board)) (c : ptr)
  (cs : list ptr) : Prop :=
  exists nd, pool !! c = Some nd /\ chain sibling pool None (child nd) cs.

(** The path from [c] up to the root inclusive: it ends where the parent of
    the root is reached. *)
Definition path_to_root (pool : list (Node Move Board)) (root : ptr)
  (c : ptr) (path : list ptr) : Prop :=
  exists rootnd, pool !! root = Some rootnd /\
    chain parent pool (parent rootnd) (Some c) path.

(** [n + n_in_flight] of the node at [c]. *)
Definition visits_started (pool : list (Node Move Board)) (c : ptr) : Z :=
  match pool !! c with
  | Some nd => n nd + n_in_flight nd
  | None => 0
  end.

(** Two arenas with the same links. *)
Definition same_links (pool pool' : list (Node Move Board)) : Prop :=
  length pool' = length pool /\
  forall c nd, pool !! c = Some nd ->
    exists nd', pool' !! c = Some nd' /\
      parent nd' = parent nd /\ child nd' = child nd /\
      sibling nd' = sibling nd.

End Vocabulary.

(** The element of a list that is best for a strict order [ltb], the first
    one among equals: no element is strictly better, and every element
    before it is strictly worse. *)
Definition first_best {A K : Type} (ltb : K -> K -> bool)
  (key : A -> K) (l : list A) (i : nat) (a : A) : Prop :=
  l !! i = Some a /\
  (forall j a', l !! j = Some a' -> ltb (key a) (key a') = false) /\
  (forall j a', (j < i)%nat -> l !! j = Some a' -> ltb (key a') (key a) = true).

(** The running maximum that the loops of [GetBestChild] and
    [PickNodeToExtend] keep: an element replaces the candidate when its key
    is strictly better than the best key so far. *)
Fixpoint fold_best {A K : Type} (ltb : K -> K -> bool) (key : A -> K)
  (l : list A) (best : K) (cand : option A) : K * option A :=
  match l with
  | [] => (best, cand)
  | a :: l' =>
      if ltb best (key a) then fold_best ltb key l' (key a) (Some a)
      else fold_best ltb key l' best cand
  end.

(** [y] can be placed against any strict inequality [x < z]: it is above
    [x] or below [z].  Every integer can; a float can unless it is NaN. *)
Definition placeable {K : Type} (ltb : K -> K -> bool) (y : K) : Prop :=
  forall x z, ltb x z = true -> ltb x y = true \/ ltb y z = true.

(** [best] is a child with the greatest [n + n_in_flight] among [cs], the
    first one in child-list order among those with the greatest. *)
Definition most_visited {Move Board : Type} (pool : list (Node Move Board))
  (cs : list ptr) (best : ptr) : Prop :=
  exists i, first_best Z.ltb (visits_started pool) cs i best.

(** The counters of the nodes [cs] fit the [int] that [GetBestChild] adds
    them up in. *)
Definition counters_fit_int {Move Board : Type} (pool : list (Node Move Board))
  (cs : list ptr) : Prop :=
  forall c, c ∈ cs -> 0 <= visits_started pool c <= INT_MAX.

(* ------------------------------------------------------------------ *)
(** ** The life of a search object *)

(** What can happen to a search object.  The members [stop_] and
    [responded_bestmove_] are only touched under [counters_mutex_], by
    [MaybeTriggerStop], [Stop] and [Abort]; a worker is seen either doing a
    whole turn of its loop or only the stop check at the end of one. *)
Inductive Event : Type :=
| WorkerTurn      (* one turn of the loop of [Worker] *)
| WorkerCheck     (* [MaybeTriggerStop] by a worker *)
| CallStop        (* [Search::Stop] *)
| CallAbort       (* [Search::Abort] *)
| CallDestroy.    (* [Search::~Search] *)

(** The events that come from the workers, not from the host. *)
Definition is_worker_event (ev : Event) : bool :=
  match ev with
  | WorkerTurn | WorkerCheck => true
  | CallStop | CallAbort | CallDestroy => false
  end.

Definition is_best_move_callback {Move : Type} (cb : Callback Move) : bool :=
  match cb with
  | BestMoveCallback _ _ => true
  | InfoCallback _ => false
  end.

(** How many times the best-move callback was invoked. *)
Fixpoint best_move_calls {Move : Type} (cbs : list (Callback Move)) : nat :=
  match cbs with
  | [] => 0%nat
  | cb :: rest =>
      ((if is_best_move_callback cb then 1 else 0) + best_move_calls rest)%nat
  end.

Section Life.
Context {Move Board InputPlanes NNCache : Type}.
Context {collab : Collaborators Move Board InputPlanes NNCache}.

Definition step (ev : Event) (s : Search Move Board NNCache)
  : option (Search Move Board NNCache) :=
  match ev with
  | WorkerTurn => Worker_iteration s
  | WorkerCheck => MaybeTriggerStop s
  | CallStop => Some (Stop s)
  | CallAbort => Some (Abort s)
  | CallDestroy => Some (Destroy s)
  end.

Fixpoint run (evs : list Event) (s : Search Move Board NNCache)
  : option (Search Move Board NNCache) :=
  match evs with
  | [] => Some s
  | ev :: rest => s1 ← step ev s; run rest s1
  end.

(** What the other threads do to the search object while a worker makes
    one turn of its loop.  The worker reads and writes [stop_] and
    [responded_bestmove_] under [counters_mutex_] only, twice a turn: in
    [MaybeTriggerStop], and in the exit check, which takes the mutex again
    after [MaybeTriggerStop] has released it.  [during_turn] is what the
    others do up to the stop check of the turn; as the turn touches neither
    member before that check, it is taken before the turn.
    [before_exit_check] is what they do between the stop check and the exit
    check.  As in [step], a turn of another worker is taken as a whole. *)
Record Interference : Type := mkInterference {
  during_turn : list Event;
  before_exit_check : list Event
}.

(** [Search::Worker]: the exit check is at the end of the loop.  [others]
    has the interference of each turn, in order; the answer is [None] when
    the worker has not left its loop within these turns. *)
Fixpoint Worker (others : list Interference) (s : Search Move Board NNCache)
  : option (Search Move Board NNCache) :=
  match others with
  | [] => None
  | o :: rest =>
      s ← run (during_turn o) s;
      s ← Worker_iteration s;
      s ← run (before_exit_check o) s;
      (* If required to stop, stop. *)
      if stop_ s then Some s else Worker rest s
  end.

(** All three limits are negative. *)
Definition no_limit (s : Search Move Board NNCache) : Prop :=
  playouts (limits_ s) < 0 /\ visits (limits_ s) < 0 /\ time_ms (limits_ s) < 0.

End Life.

(** [s'] has the limits, the stop flag and the latch of [s], and as many
    best-move callbacks behind it. *)
Definition quiet {Move Board NNCache : Type}
  (s s' : Search Move Board NNCache) : Prop :=
  limits_ s' = limits_ s /\
  stop_ s' = stop_ s /\
  responded_bestmove_ s' = responded_bestmove_ s /\
  best_move_calls (callbacks s') = best_move_calls (callbacks s).

(* ------------------------------------------------------------------ *)
(** ** The expander, as the specification words it *)

(** Terminal detection in the order of the specification, first match
    wins: the value of a terminal node, or [None] when no rule applies. *)
Definition terminal_value (no_legal_moves under_check mating_material : bool)
  (fifty_move_counter repeated : Z) : option spec_float :=
  if no_legal_moves then Some (if under_check then F32.one else F32.zero)
  else if negb mating_material then Some F32.zero
  else if 100 <=? fifty_move_counter then Some F32.zero
  else if 2 <=? repeated then Some F32.zero
  else None.

Section Expansion.
Context {Move Board InputPlanes NNCache : Type}.
Context {collab : Collaborators Move Board InputPlanes NNCache}.

(** The child that [ExtendNode] makes for the move [mv] of a node at [node]
    with 50-move counter [ncp] and ply [ply]; [sib] is its sibling link. *)
Definition new_child (node : ptr) (ncp ply : Z) (mv : MoveAndBoard Move Board)
  (sib : option ptr) : Node Move Board :=
  mkNode (Some node) None sib (mb_move mv) (Board_Mirror (mb_board mv))
    (if reset_50_moves mv then 0 else ncp + 1) 0 (ply + 1) 0 0
    F32.zero F32.zero F32.zero F32.zero 0 0 false.

(** The children made for [moves], the first of them placed at [base]. *)
Fixpoint new_children (node : ptr) (ncp ply : Z) (base : nat)
  (moves : list (MoveAndBoard Move Board)) : list (Node Move Board) :=
  match moves with
  | [] => []
  | mv :: rest =>
      new_child node ncp ply mv
        (match rest with [] => None | _ :: _ => Some (S base) end)
      :: new_children node ncp ply (S base) rest
  end.

(** The link that makes the first new child reachable: the [child] of the
    node when [prev_node] is the node itself, the [sibling] of [prev_node]
    otherwise. *)
Definition link_first (pool : list (Node Move Board)) (node prev_node : ptr)
  (moves : list (MoveAndBoard Move Board)) : list (Node Move Board) :=
  match moves with
  | [] => pool
  | _ :: _ =>
      if bool_decide (prev_node = node)
      then alter (set_child (Some (length pool))) node pool
      else alter (set_sibling (Some (length pool))) prev_node pool
  end.

End Expansion.

(* ------------------------------------------------------------------ *)
(** ** Backup *)

(** The value after [i] sign flips. *)
Definition flipped_value (i : nat) (x : spec_float) : spec_float :=
  Nat.iter i F32.neg x.

(** Every node with visits has [q == w / n]. *)
Definition q_is_mean {Move Board : Type} (pool : list (Node Move Board))
  : Prop :=
  forall c nd, pool !! c = Some nd -> 0 < n nd ->
    q nd = F32.div (w nd) (F32.of_Z (n nd)).

(** The node [nd'] is [nd] after one backup with value [x]: W, N, the
    virtual loss and Q. *)
Definition backed_up {Move Board : Type} (x : spec_float)
  (nd nd' : Node Move Board) : Prop :=
  w nd' = F32.add (w nd) x /\
  n nd' = n nd + 1 /\
  n_in_flight nd' = n_in_flight nd - 1 /\
  q nd' = F32.div (w nd') (F32.of_Z (n nd')).

(* ------------------------------------------------------------------ *)
(** ** The order of the floats *)

(** The place of a float that is not NaN in the order of the floats:
    smaller floats have lexicographically smaller places. *)
Definition float_rank (x : spec_float) : option (Z * Z * Z) :=
  match x with
  | S754_nan => None
  | S754_infinity true => Some (-2, 0, 0)
  | S754_infinity false => Some (2, 0, 0)
  | S754_zero _ => Some (0, 0, 0)
  | S754_finite true m e => Some (-1, - e, - Zpos m)
  | S754_finite false m e => Some (1, e, Zpos m)
  end.

Definition lex_lt (a b : Z * Z * Z) : Prop :=
  a.1.1 < b.1.1 \/
  (a.1.1 = b.1.1 /\ (a.1.2 < b.1.2 \/ (a.1.2 = b.1.2 /\ a.2 < b.2))).


(* ------------------------------------------------------------------ *)
(** ** Selection *)

(** The PUCT score that [PickNodeToExtend] gives the child at [c] of a node
    [nd]. *)
Definition child_score {Move Board : Type} (pool : list (Node Move Board))
  (cpuct : spec_float) (nd : Node Move Board) (c : nat) : spec_float :=
  match pool !! c with
  | Some cnd => puct_score (puct_factor cpuct nd) cnd
  | None => S754_nan
  end.

(** Some other worker has reserved the node: it was never visited and is in
    flight. *)
Definition reserved {Move Board : Type} (nd : Node Move Board) : bool :=
  (n nd =? 0) && (0 <? n_in_flight nd).

(* ------------------------------------------------------------------ *)
(** ** Priors *)

Section Priors.
Context {Move Board InputPlanes NNCache : Type}.
Context {collab : Collaborators Move Board InputPlanes NNCache}.

(** The prior that the output [it] of the network gives the move of the
    node at [c]. *)
Definition raw_prior (pool : list (Node Move Board)) (it : BatchItem)
  (c : nat) : spec_float :=
  match pool !! c with
  | Some cnd => item_p it (as_nn_index (move cnd))
  | None => S754_nan
  end.

(** The running [float] sum of the raw priors of [cs], in list order,
    started at [total]. *)
Definition raw_total (pool : list (Node Move Board)) (it : BatchItem)
  (cs : list nat) (total : spec_float) : spec_float :=
  fold_left (fun t c => F32.add t (raw_prior pool it c)) cs total.

End Priors.

(* ------------------------------------------------------------------ *)
(** ** Reservations along a path *)

Section Reservations.
Context {Move Board : Type}.

(** [++node->n_in_flight] *)
Definition reserve_node (nd : Node Move Board) : Node Move Board :=
  set_n_in_flight (n_in_flight nd + 1) nd.

(** The arena after one reservation at every node of [path]. *)
Definition reserve_path (path : list nat) (pool : list (Node Move Board))
  : list (Node Move Board) :=
  foldr (fun c acc => alter reserve_node c acc) pool path.

(** Below the root the arena is a tree: a node that is reached from the
    root has a child list, and each of its children has it as parent (so
    that the path of a child is the child followed by the path of the
    node). *)
Definition tree_below (pool : list (Node Move Board)) (root : nat) : Prop :=
  forall c anc,
    path_to_root pool root c (c :: anc) ->
    exists cs, children pool c cs /\
      forall x, x ∈ cs -> path_to_root pool root x (x :: c :: anc).

(** Every node with children has a child whose score is above the -100
    that the selector starts from, and no child whose score is NaN. *)
Definition scores_sane (pool : list (Node Move Board)) (cpuct : spec_float)
  : Prop :=
  forall c nd cs,
    pool !! c = Some nd -> children pool c cs -> cs <> [] ->
    (forall x, x ∈ cs -> child_score pool cpuct nd x <> S754_nan) /\
    (exists x, x ∈ cs /\
       F32.gtb (child_score pool cpuct nd x) (F32.of_Z (-100)) = true).

End Reservations.

(** [nd'] is [nd] but for the fields that [ExtendNode] writes at the node
    it expands: [child], [v], [is_terminal] and [repetitions]. *)
Definition same_but_expansion {Move Board : Type} (nd nd' : Node Move Board)
  : Prop :=
  parent nd' = parent nd /\ sibling nd' = sibling nd /\
  move nd' = move nd /\ board nd' = board nd /\
  no_capture_ply nd' = no_capture_ply nd /\ ply_count nd' = ply_count nd /\
  n_in_flight nd' = n_in_flight nd /\ n nd' = n nd /\
  q nd' = q nd /\ w nd' = w nd /\ p nd' = p nd /\
  max_depth nd' = max_depth nd /\ full_depth nd' = full_depth nd.

(* ------------------------------------------------------------------ *)
(** ** What a batch is made of *)

Section BatchVocabulary.
Context {Move Board : Type}.

(** [nd'] is [nd] but for [n_in_flight]. *)
Definition same_but_flight (nd nd' : Node Move Board) : Prop :=
  nd' = set_n_in_flight (n_in_flight nd') nd.

(** Two arenas with the same nodes but for their [n_in_flight]. *)
Definition flight_only (pool pool' : list (Node Move Board)) : Prop :=
  length pool' = length pool /\
  forall c nd, pool !! c = Some nd ->
    exists nd', pool' !! c = Some nd' /\ same_but_flight nd nd'.

(** The expander is done with the node: it is terminal or it has got
    children. *)
Definition settled (nd : Node Move Board) : Prop :=
  is_terminal nd = true \/ child nd <> None.

(** The node at [c] is in the arena and is not terminal. *)
Definition awaits_network (pool : list (Node Move Board)) (c : nat) : bool :=
  match pool !! c with
  | Some nd => negb (is_terminal nd)
  | None => false
  end.

End BatchVocabulary.

(* ------------------------------------------------------------------ *)
(** ** What the prefetcher adds *)

Section PrefetchVocabulary.
Context {Move Board InputPlanes NNCache : Type}.
Context {collab : Collaborators Move Board InputPlanes NNCache}.

(** The answer [r] of a prefetch that was entered with the computation
    [comp] and [total] spent so far: the computation has only grown, by
    inputs that are misses, no more of them than was spent; with aggressive
    caching exactly as many. *)
Definition prefetch_adds (aggressive : bool)
  (comp : list (@BatchItem InputPlanes)) (total : Z)
  (r : Z * list (@BatchItem InputPlanes)) : Prop :=
  exists added,
    r.2 = comp ++ added /\
    Forall (fun it => is_miss it = true) added /\
    Z.of_nat (length added) <= r.1 - total /\
    (aggressive = true -> r.1 - total = Z.of_nat (length added)).

End PrefetchVocabulary.

(* ------------------------------------------------------------------ *)
(** ** Reports *)

Definition is_info_callback {Move : Type} (cb : Callback Move) : bool :=
  match cb with
  | InfoCallback _ => true
  | BestMoveCallback _ _ => false
  end.

(* ------------------------------------------------------------------ *)
(** ** What a playout keeps *)

Section PlayoutVocabulary.
Context {Move Board : Type}.

(** [nd'] is [nd] but for [v] and [p]. *)
Definition same_but_eval (nd nd' : Node Move Board) : Prop :=
  nd' = set_p (p nd') (set_v (v nd') nd).

(** Two arenas with the same nodes but for their [v] and [p]. *)
Definition eval_only (pool pool' : list (Node Move Board)) : Prop :=
  length pool' = length pool /\
  forall c nd, pool !! c = Some nd ->
    exists nd', pool' !! c = Some nd' /\ same_but_eval nd nd'.

(** Every node of [pool] is in [pool'] with the same [parent], [sibling],
    [n] and [n_in_flight], and, but for the node at [leaf], the same
    [child]. *)
Definition keeps (leaf : nat) (pool pool' : list (Node Move Board)) : Prop :=
  forall c nd, pool !! c = Some nd ->
    exists nd', pool' !! c = Some nd' /\
      parent nd' = parent nd /\ sibling nd' = sibling nd /\
      n nd' = n nd /\ n_in_flight nd' = n_in_flight nd /\
      (c <> leaf -> child nd' = child nd).

End PlayoutVocabulary.

(* ------------------------------------------------------------------ *)
(** ** The bookkeeping of the backup *)

Section BookkeepingVocabulary.
Context {Move Board : Type}.

(** No node has a negative [n]. *)
Definition visits_nonneg (pool : list (Node Move Board)) : Prop :=
  forall c nd, pool !! c = Some nd -> 0 <= n nd.

(** No node has a negative [full_depth]. *)
Definition full_depth_nonneg (pool : list (Node Move Board)) : Prop :=
  forall c nd, pool !! c = Some nd -> 0 <= full_depth nd.

(** The visits of the best node, 0 when there is none. *)
Definition best_visits (pool : list (Node Move Board)) (best : option nat)
  : Z :=
  match best with
  | Some b => match pool !! b with Some bn => n bn | None => 0 end
  | None => 0
  end.

(** The best node, if any, has the root as its parent, and no node that
    has the root as its parent has more visits than the best node; without
    a best node none of them has a visit. *)
Definition best_is_most_visited (pool : list (Node Move Board)) (root : nat)
  (best : option nat) : Prop :=
  (forall b, best = Some b ->
     exists bn, pool !! b = Some bn /\ parent bn = Some root) /\
  (forall x xn, pool !! x = Some xn -> parent xn = Some root ->
     n xn <= best_visits pool best).

End BookkeepingVocabulary.

(* ------------------------------------------------------------------ *)
(** ** The turns of the gathering loop *)

Section GatherVocabulary.
Context {Move Board InputPlanes NNCache : Type}.
Context {collab : Collaborators Move Board InputPlanes NNCache}.

(** One turn of the gathering loop of [Worker] in which the selector
    returned a node: the node, the arena the selector was entered with, the
    arena the turn left and the input the turn added to the computation, if
    it added one. *)
Record Gathered : Type := mkGathered {
  gathered_node : ptr;
  arena_before : list (Node Move Board);
  arena_after : list (Node Move Board);
  gathered_input : option (@BatchItem InputPlanes)
}.

(** [it] is the input that [AddNodeToCompute] makes of the node at [node],
    cached entries wanted. *)
Definition input_of (pool : list (Node Move Board)) (cache : NNCache)
  (node : ptr) (it : @BatchItem InputPlanes) : Prop :=
  exists hit, AddNodeToCompute pool cache node [] true = Some (hit, [it]).

(** What the turn [t] did: the selector, entered at the root, returned the
    node; a node that was already terminal was left alone; any other node
    was given to the expander, and unless that made it terminal, its input
    was added to the computation. *)
Definition gather_turn (root : ptr) (cpuct : spec_float) (cache : NNCache)
  (t : Gathered) : Prop :=
  exists pool1 nd,
    PickNodeToExtend (arena_before t) root cpuct root
    = Some (pool1, Some (gathered_node t)) /\
    pool1 !! gathered_node t = Some nd /\
    if is_terminal nd
    then arena_after t = pool1 /\ gathered_input t = None
    else
      ExtendNode pool1 (gathered_node t) = Some (arena_after t) /\
      exists nd2, arena_after t !! gathered_node t = Some nd2 /\
        if is_terminal nd2 then gathered_input t = None
        else exists it,
          input_of (arena_after t) cache (gathered_node t) it /\
          gathered_input t = Some it.

(** Turns that follow one another, the first one entered with [pool]. *)
Fixpoint gather_turns (root : ptr) (cpuct : spec_float) (cache : NNCache)
  (pool : list (Node Move Board)) (ts : list Gathered) : Prop :=
  match ts with
  | [] => True
  | t :: rest =>
      arena_before t = pool /\ gather_turn root cpuct cache t /\
      gather_turns root cpuct cache (arena_after t) rest
  end.

(** The arena that the turns [ts] leave. *)
Fixpoint arena_left (pool : list (Node Move Board)) (ts : list Gathered)
  : list (Node Move Board) :=
  match ts with
  | [] => pool
  | t :: rest => arena_left (arena_after t) rest
  end.

(** The inputs that the turns [ts] added, in order. *)
Definition gathered_inputs (ts : list Gathered)
  : list (@BatchItem InputPlanes) :=
  omap gathered_input ts.

(** How the gathering loop, allowed [k] turns and entered with the arena
    [pool] and an empty computation, is left after the turns [ts] with the
    arena [pool']: all [k] turns are done; or a turn was done and no input
    awaits the network; or the selector gave up, which is the one case in
    which the arena changes after the last turn.  No turn but the first was
    started with no input awaiting the network. *)
Definition gathering_done (k : nat) (root : ptr) (cpuct : spec_float)
  (pool : list (Node Move Board)) (ts : list Gathered)
  (pool' : list (Node Move Board)) : Prop :=
  (length ts <= k)%nat /\
  (forall j, (0 < j < length ts)%nat ->
     GetCacheMisses (gathered_inputs (take j ts)) <> 0) /\
  (((length ts = k \/
     ((0 < length ts)%nat /\ GetCacheMisses (gathered_inputs ts) = 0)) /\
    pool' = arena_left pool ts) \/
   PickNodeToExtend (arena_left pool ts) root cpuct root = Some (pool', None)).

End GatherVocabulary.

(* ------------------------------------------------------------------ *)
(** ** The visits of a batch *)

(** How many of the paths go through the node at [c]. *)
Definition visits_through (c : nat) (paths : list (list nat)) : Z :=
  Z.of_nat (length (filter (fun path => c ∈ path) paths)).

(** The arena [pool'] is [pool] after the nodes on [paths] were backed up,
    each path once: every node of [pool] has one more visit and one
    reservation less for each path through it, and its links as before. *)
Definition visited_along {Move Board : Type} (paths : list (list nat))
  (pool pool' : list (Node Move Board)) : Prop :=
  length pool' = length pool /\
  forall c nd, pool !! c = Some nd ->
    exists nd', pool' !! c = Some nd' /\
      parent nd' = parent nd /\ child nd' = child nd /\
      sibling nd' = sibling nd /\
      n nd' = n nd + visits_through c paths /\
      n_in_flight nd' = n_in_flight nd - visits_through c paths.

(* ------------------------------------------------------------------ *)
(** ** The batch of a turn *)

Section TurnVocabulary.
Context {Move Board InputPlanes NNCache : Type}.
Context {collab : Collaborators Move Board InputPlanes NNCache}.

(** The turn of the loop of [Worker] that goes from [s] to [s'] gathered
    the batch [ts] and backed it up along [paths]: the gathering loop made
    the turns [ts] and left the arena [gathered]; reading the outputs of
    the network only wrote [v] and [p] and left [evaluated]; the nodes of
    the batch, in order, have [paths] as their paths up to the root, and the
    arena of [s'] is [evaluated] visited along these paths; and
    [total_playouts_] has grown by the number of nodes of the batch. *)
Definition batch_done (s s' : Search Move Board NNCache) (ts : list Gathered)
  (paths : list (list nat)) : Prop :=
  let root := root_node_ s in
  exists gathered evaluated,
    gather_turns root (kCpuct s) (cache_ s) (node_pool_ s) ts /\
    gathering_done (Z.to_nat (kMiniBatchSize s)) root (kCpuct s)
      (node_pool_ s) ts gathered /\
    eval_only gathered evaluated /\
    Forall2 (path_to_root (node_pool_ s') root) (map gathered_node ts) paths /\
    visited_along paths evaluated (node_pool_ s') /\
    total_playouts_ s' = total_playouts_ s + Z.of_nat (length ts).

End TurnVocabulary.


(* ------------------------------------------------------------------ *)
(** ** A small game to run the search on

    Positions are numbered; positions 0, 1 and 2 have two moves each, to
    positions [2 k + 1] and [2 k + 2], and the other positions have none.
    The network answers value 0 and prior 1/2 for every move; the cache is
    an association list that never evicts. *)

Module Toy.

Definition Move : Type := Z.
Definition Board : Type := (Z * bool)%type.
Definition InputPlanes : Type := Z.
Definition NNCache : Type := list (Z * CachedValue).

Definition valid_moves (b : Board) : list (MoveAndBoard Move Board) :=
  if b.1 <? 3
  then [mkMoveAndBoard 1 (2 * b.1 + 1, b.2) false;
        mkMoveAndBoard 2 (2 * b.1 + 2, b.2) true]
  else [].

Definition hash_of (pool : list (Node Move Board)) (c : ptr) : Z :=
  match pool !! c with Some nd => (board nd).1 | None => 0 end.

Fixpoint cache_lookup (cache : NNCache) (h : Z) : option CachedValue :=
  match cache with
  | [] => None
  | (k, x) :: rest => if k =? h then Some x else cache_lookup rest h
  end.

Definition half : spec_float := F32.div (F32.of_Z 1) (F32.of_Z 2).

#[global] Instance collaborators : Collaborators Move Board InputPlanes NNCache := {
  Move_null := 0;
  Move_Mirror m := - m;
  as_nn_index m := Z.abs m;
  Board_null := (0, false);
  GenerateValidMoves := valid_moves;
  GeneratePseudovalidMoves b := map mb_move (valid_moves b);
  IsUnderCheck b := Z.odd b.1;
  HasMatingMaterial b := negb (b.1 =? 2);
  Board_Mirror b := (b.1, negb b.2);
  flipped b := b.2;
  BoardHash := hash_of;
  ComputeRepetitions _ _ := 0;
  EncodeNode := hash_of;
  ContainsKey cache h := match cache_lookup cache h with Some _ => true | None => false end;
  Lookup := cache_lookup;
  Insert cache h x := (h, x) :: cache;
  GetSize cache := Z.of_nat (length cache);
  GetCapacity _ := 1000;
  nn_q _ := F32.zero;
  nn_p _ _ := half;
  log x := x;
  steady_clock k := 10 * Z.of_nat k
}.

(** A node of the toy game with the given links, move, position, counters,
    statistics and prior. *)
Definition node (parent_ child_ sibling_ : option ptr) (move_ : Z) (pos : Z)
  (n_ n_in_flight_ : Z) (w_ q_ p_ : spec_float) : Node Move Board :=
  mkNode parent_ child_ sibling_ move_ (pos, false) 0 0 0 n_in_flight_ n_
    F32.zero q_ w_ p_ 0 0 false.

(** A search object over [pool] rooted at node 0, with the default options
    (minibatch 16, prefetch 64, no aggressive caching, cpuct 170 / 100). *)
Definition search (pool : list (Node Move Board)) (limits : SearchLimits)
  : Search Move Board NNCache :=
  mkSearch pool 0%nat [] limits 0 0 false false None None
    (mkThinkingInfo (-1) (-1) (-1) (-1) (-1) (-1) F32.zero [] EmptyString)
    16 64 false (F32.div (F32.of_Z 170) (F32.of_Z 100)) 0%nat [].

(** A root visited three times with two children visited once each; the
    second child has two children of its own, node 3 being in flight. *)
Definition small_tree : list (Node Move Board) :=
  [ node None (Some 1%nat) None 0 0 3 0 F32.zero F32.zero F32.zero;
    node (Some 0%nat) None (Some 2%nat) 1 1 1 0 F32.zero F32.zero half;
    node (Some 0%nat) (Some 3%nat) None 2 2 1 1 F32.zero F32.zero half;
    node (Some 2%nat) None (Some 4%nat) 1 5 0 1 F32.zero F32.zero half;
    node (Some 2%nat) None None 2 6 0 0 F32.zero F32.zero half ].

Definition no_limits : SearchLimits := mkSearchLimits (-1) (-1) (-1).

(** The default [kCpuct]: the option value 170 divided by [100.0f]. *)
Definition cpuct : spec_float := F32.div (F32.of_Z 170) (F32.of_Z 100).

End Toy.

(** A search that has just been created on a root that was never visited. *)
Definition root_only : list (Node Toy.Move Toy.Board) :=
  [Toy.node None None None 0 0 0 0 F32.zero F32.zero F32.zero].

Definition fresh_search : Search Toy.Move Toy.Board Toy.NNCache :=
  Toy.search root_only Toy.no_limits.

(** Three turns of a worker, a [Stop] seen by the next stop check, then an
    [Abort], one more turn and the destructor. *)
Definition a_life : list Event :=
  [WorkerTurn; WorkerTurn; WorkerTurn; CallStop; WorkerCheck;
   CallAbort; WorkerTurn; CallDestroy].

(** A root visited three times with two children visited once each, which
    tie in every statistic; each of them has two children that were never
    visited.  Nothing is cached. *)
Definition twin_tree : list (Node Toy.Move Toy.Board) :=
  [ Toy.node None (Some 1%nat) None 0 0 3 0 F32.zero F32.zero F32.zero;
    Toy.node (Some 0%nat) (Some 3%nat) (Some 2%nat) 1 1 1 0
      F32.zero F32.zero Toy.half;
    Toy.node (Some 0%nat) (Some 5%nat) None 2 2 1 0
      F32.zero F32.zero Toy.half;
    Toy.node (Some 1%nat) None (Some 4%nat) 1 3 0 0 F32.zero F32.zero Toy.half;
    Toy.node (Some 1%nat) None None 2 4 0 0 F32.zero F32.zero Toy.half;
    Toy.node (Some 2%nat) None (Some 6%nat) 1 5 0 0 F32.zero F32.zero Toy.half;
    Toy.node (Some 2%nat) None None 2 6 0 0 F32.zero F32.zero Toy.half ].

(* ------------------------------------------------------------------ *)
(** ** Tactics for concrete arenas *)

(** Builds the child list or the path of a concrete arena. *)
Ltac chain_tac :=
  solve [ repeat first
            [ apply chain_nil
            | eapply chain_cons; [discriminate | reflexivity | simpl ] ] ].

(** Settles a statement about every member of a concrete list. *)
Ltac members_tac tac :=
  refine (proj1 (Forall_forall _ _) _);
  repeat (apply Forall_cons; split; [tac|]);
  apply Forall_nil_2.


(** The arena of [fresh_search] after the first node of a batch was
    gathered: the selector has reserved the root ([n = 0],
    [n_in_flight = 1]) and the expander has given it its two children; the
    root is not yet evaluated or backed up. *)
Definition expanded_root : list (Node Toy.Move Toy.Board) :=
  Eval vm_compute in
    match PickNodeToExtend root_only 0%nat Toy.cpuct 0%nat with
    | Some (pool, Some c) => default pool (ExtendNode pool c)
    | _ => root_only
    end.

(** A search over [Toy.small_tree] whose workers take one node a turn
    (minibatch 1), the other options being the default ones. *)
Definition one_by_one : Search Toy.Move Toy.Board Toy.NNCache :=
  mkSearch Toy.small_tree 0%nat [] Toy.no_limits 0 0 false false None None
    (mkThinkingInfo (-1) (-1) (-1) (-1) (-1) (-1) F32.zero [] EmptyString)
    1 64 false Toy.cpuct 0%nat [].


(* ------------------------------------------------------------------ *)
(** ** Running maximum *)

Section FoldBest.
Context {A K : Type} (ltb : K -> K -> bool) (key : A -> K).
Hypothesis ltb_irrefl : forall x, ltb x x = false.
Hypothesis ltb_trans :
  forall x y z, ltb x y = true -> ltb y z = true -> ltb x z = true.

Lemma ltb_asym x y : ltb x y = true -> ltb y x = false.
Proof.
  intros Hxy. destruct (ltb y x) eqn:Hyx; [|done].
  rewrite <- (ltb_irrefl x). symmetry. by eapply ltb_trans.
Qed.

Lemma fold_best_spec (l : list A) (best : K) (cand : option A) :
  (forall a, a ∈ l -> placeable ltb (key a)) ->
  ((forall a, a ∈ l -> ltb best (key a) = false) /\
   fold_best ltb key l best cand = (best, cand))
  \/
  (exists i a, first_best ltb key l i a /\ ltb best (key a) = true /\
     fold_best ltb key l best cand = (key a, Some a)).
Proof.
  revert best cand.
  induction l as [|a0 l IH]; intros best cand Hpl; simpl.
  - left. split; [|done]. intros a Ha. by apply elem_of_nil in Ha.
  - assert (Hpl' : forall a, a ∈ l -> placeable ltb (key a)).
    { intros a Ha. apply Hpl. by right. }
    destruct (ltb best (key a0)) eqn:Hb.
    + right.
      destruct (IH (key a0) (Some a0) Hpl') as [[Hno Heq]|(i & a & Hfb & Hlt & Heq)].
      * exists 0%nat, a0. split; [|done].
        split; [done|]. split.
        -- intros [|j] a' Hj; simpl in Hj.
           ++ injection Hj as <-. apply ltb_irrefl.
           ++ apply Hno. by eapply list_elem_of_lookup_2.
        -- intros j a' Hj. lia.
      * exists (S i), a. destruct Hfb as (Hi & Hmax & Hbefore).
        split; [|split; [by eapply ltb_trans|done]].
        split; [done|]. split.
        -- intros [|j] a' Hj; simpl in Hj.
           ++ injection Hj as <-. by apply ltb_asym.
           ++ by eapply Hmax.
        -- intros [|j] a' Hlt' Hj; simpl in Hj.
           ++ by injection Hj as <-.
           ++ eapply Hbefore; [|done]. lia.
    + destruct (IH best cand Hpl') as [[Hno Heq]|(i & a & Hfb & Hlt & Heq)].
      * left. split; [|done].
        intros a Ha. apply elem_of_cons in Ha as [->|Ha]; [done|by apply Hno].
      * right. exists (S i), a. destruct Hfb as (Hi & Hmax & Hbefore).
        split; [|done].
        split; [done|]. split.
        -- intros [|j] a' Hj; simpl in Hj.
           ++ injection Hj as <-.
              destruct (ltb (key a) (key a0)) eqn:Hc; [|done].
              rewrite <- Hb. symmetry. by eapply ltb_trans.
           ++ by eapply Hmax.
        -- intros [|j] a' Hlt' Hj; simpl in Hj.
           ++ injection Hj as <-.
              destruct (Hpl a0 ltac:(by left) _ _ Hlt) as [Hx|Hx]; [|done].
              congruence.
           ++ eapply Hbefore; [|done]. lia.
Qed.

End FoldBest.

(* ------------------------------------------------------------------ *)
(** ** Chains of links *)

Section Chains.
Context {Move Board : Type}.
Implicit Types (pool : list (Node Move Board)) (next : Node Move Board -> option ptr).

Lemma chain_det next pool stop start l1 l2 :
  chain next pool stop start l1 -> chain next pool stop start l2 -> l1 = l2.
Proof.
  intros H1. revert l2.
  induction H1 as [|c nd l Hne Hnd _ IH]; intros l2 H2; inversion H2; subst;
    try done.
  f_equal. apply IH. congruence.
Qed.

Lemma chain_lookup next pool stop start l c :
  chain next pool stop start l -> c ∈ l -> is_Some (pool !! c).
Proof.
  induction 1 as [|c0 nd l Hne Hnd _ IH]; intros Hin.
  - by apply elem_of_nil in Hin.
  - apply elem_of_cons in Hin as [->|Hin]; [by eexists|by apply IH].
Qed.

Lemma chain_from_member next pool stop start l c :
  chain next pool stop start l -> c ∈ l ->
  exists l', chain next pool stop (Some c) (c :: l') /\
             (length l' < length l)%nat.
Proof.
  induction 1 as [|c0 nd l Hne Hnd Hch IH]; intros Hin.
  - by apply elem_of_nil in Hin.
  - apply elem_of_cons in Hin as [->|Hin].
    + exists l. split; [by econstructor|simpl; lia].
    + destruct (IH Hin) as (l' & Hl' & Hlen). exists l'. split; [done|simpl; lia].
Qed.

Lemma chain_NoDup next pool stop start l :
  chain next pool stop start l -> NoDup l.
Proof.
  induction 1 as [|c nd l Hne Hnd Hch IH]; [constructor|].
  constructor; [|done].
  intros Hin.
  destruct (chain_from_member _ _ _ _ _ _ Hch Hin) as (l' & Hl' & Hlen).
  assert (Heq : c :: l' = c :: l).
  { eapply chain_det; [done|]. by econstructor. }
  injection Heq as ->. lia.
Qed.

Lemma chain_length next pool stop start l :
  chain next pool stop start l -> (length l <= length pool)%nat.
Proof.
  intros Hch.
  assert (Hsub : l ⊆+ seq 0%nat (length pool)); [|
    apply submseteq_length in Hsub; by rewrite length_seq in Hsub].
  apply NoDup_submseteq; [by eapply chain_NoDup|].
  intros c Hc. apply elem_of_seq.
  destruct (chain_lookup _ _ _ _ _ _ Hch Hc) as [nd Hnd].
  apply lookup_lt_Some in Hnd. lia.
Qed.

Lemma chain_same_links next pool pool' stop start l :
  (forall c nd, pool !! c = Some nd ->
     exists nd', pool' !! c = Some nd' /\ next nd' = next nd) ->
  chain next pool stop start l -> chain next pool' stop start l.
Proof.
  intros Hl. induction 1 as [|c nd l Hne Hnd _ IH]; [constructor|].
  destruct (Hl _ _ Hnd) as (nd' & Hnd' & Hnext).
  econstructor; [done|done|]. by rewrite Hnext.
Qed.

End Chains.

(* ------------------------------------------------------------------ *)
(** ** [GetBestChild] and [GetBestMoveInternal] *)

Section BestChild.
Context {Move Board : Type}.
Implicit Types (pool : list (Node Move Board)).

Lemma wrap_int_id z : INT_MIN <= z <= INT_MAX -> wrap_int z = z.
Proof.
  unfold wrap_int, INT_MIN, INT_MAX. intros Hz.
  rewrite Z.mod_small; lia.
Qed.

Lemma placeable_Z y : placeable Z.ltb y.
Proof. intros x z Hxz. destruct (Z.ltb_spec x y), (Z.ltb_spec y z); auto; lia. Qed.

Lemma GetBestChild_loop_fold fuel pool start cs best best_node :
  chain sibling pool None start cs -> (length cs <= fuel)%nat ->
  GetBestChild_loop fuel pool start best best_node
  = Some (fold_best Z.ltb (fun c => wrap_int (visits_started pool c))
            cs best best_node).2.
Proof.
  intros Hch. revert fuel best best_node.
  induction Hch as [|c nd l Hne Hnd _ IH]; intros fuel best best_node Hlen.
  - by destruct fuel.
  - destruct fuel as [|fuel]; simpl in Hlen; [lia|].
    assert (Hk : visits_started pool c = n nd + n_in_flight nd).
    { unfold visits_started. by rewrite Hnd. }
    simpl. rewrite Hnd, Hk. simpl.
    destruct (best <? wrap_int (n nd + n_in_flight nd)); apply IH; lia.
Qed.

Lemma first_best_ext {A K : Type} (ltb : K -> K -> bool) (f g : A -> K) l i a :
  (forall x, x ∈ l -> f x = g x) ->
  first_best ltb f l i a -> first_best ltb g l i a.
Proof.
  intros Hfg (Hi & Hmax & Hbefore).
  assert (Ha : f a = g a) by (apply Hfg; by eapply list_elem_of_lookup_2).
  split; [done|]. split.
  - intros j a' Hj. rewrite <- Ha, <- (Hfg a'); [by eapply Hmax|].
    by eapply list_elem_of_lookup_2.
  - intros j a' Hlt Hj. rewrite <- Ha, <- (Hfg a'); [by eapply Hbefore|].
    by eapply list_elem_of_lookup_2.
Qed.

Lemma GetBestChild_most_visited pool c cs :
  children pool c cs -> cs <> [] -> counters_fit_int pool cs ->
  exists best, GetBestChild pool c = Some (Some best) /\
               most_visited pool cs best.
Proof.
  intros (nd & Hnd & Hch) Hne Hfit.
  unfold GetBestChild. rewrite Hnd. simpl.
  rewrite (GetBestChild_loop_fold _ _ _ cs); [|done|by eapply chain_length].
  destruct (fold_best_spec Z.ltb (fun c => wrap_int (visits_started pool c))
              Z.ltb_irrefl
              (fun x y z Hxy Hyz => proj2 (Z.ltb_lt x z)
                 (Z.lt_trans _ _ _ (proj1 (Z.ltb_lt x y) Hxy)
                                    (proj1 (Z.ltb_lt y z) Hyz)))
              cs (-1) None (fun a _ => placeable_Z _))
    as [[Hno _]|(i & a & Hfb & _ & Heq)].
  - destruct cs as [|c0 cs]; [done|].
    specialize (Hno c0 ltac:(by left)).
    specialize (Hfit c0 ltac:(by left)).
    rewrite wrap_int_id in Hno; [|unfold INT_MIN; lia].
    apply Z.ltb_ge in Hno. lia.
  - rewrite Heq. simpl. exists a. split; [done|]. exists i.
    eapply first_best_ext; [|done].
    intros x Hx. simpl. apply wrap_int_id.
    specialize (Hfit x Hx). unfold INT_MIN. lia.
Qed.

Lemma GetBestChild_no_children pool c :
  children pool c [] -> GetBestChild pool c = Some None.
Proof.
  intros (nd & Hnd & Hch). unfold GetBestChild. rewrite Hnd. simpl.
  inversion Hch as [Hc|]. by destruct (length pool).
Qed.

Lemma children_det pool c cs1 cs2 :
  children pool c cs1 -> children pool c cs2 -> cs1 = cs2.
Proof.
  intros (nd1 & Hnd1 & Hch1) (nd2 & Hnd2 & Hch2).
  assert (nd1 = nd2) as -> by congruence. by eapply chain_det.
Qed.

Lemma children_nil_iff pool c nd cs :
  pool !! c = Some nd -> children pool c cs -> (child nd = None <-> cs = []).
Proof.
  intros Hnd (nd' & Hnd' & Hch).
  assert (nd' = nd) as -> by congruence.
  inversion Hch; subst; split; congruence.
Qed.

End BestChild.

(* ------------------------------------------------------------------ *)
(** ** What the parts of a worker's turn leave alone *)

Section Frames.
Context {Move Board InputPlanes NNCache : Type}.
Context {collab : Collaborators Move Board InputPlanes NNCache}.
Implicit Types (s : Search Move Board NNCache).

Lemma set_node_pool_twice s pool1 pool2 :
  set_node_pool_ pool2 (set_node_pool_ pool1 s) = set_node_pool_ pool2 s.
Proof. reflexivity. Qed.

Lemma set_node_pool_same s : set_node_pool_ (node_pool_ s) s = s.
Proof. by destruct s. Qed.

(** Gathering only changes the arena. *)
Lemma gather_frame k i s comp nodes_to_process new_nodes s' comp' nodes' new' :
  gather k i s comp nodes_to_process new_nodes = Some (s', comp', nodes', new') ->
  s' = set_node_pool_ (node_pool_ s') s.
Proof.
  revert i s comp nodes_to_process new_nodes.
  induction k as [|k IH]; intros i s comp nodes_to_process new_nodes Hg;
    simpl in Hg.
  - injection Hg as <- _ _ _. by rewrite set_node_pool_same.
  - destruct ((0 <? i) && (GetCacheMisses comp =? 0)).
    { injection Hg as <- _ _ _. by rewrite set_node_pool_same. }
    destruct (PickNodeToExtend _ _ _ _) as [[pool1 [node|]]|]; simpl in Hg;
      [| |done].
    2:{ by injection Hg as <- _ _ _. }
    destruct (pool1 !! node) as [nd|]; simpl in Hg; [|done].
    destruct (is_terminal nd).
    { apply IH in Hg. by rewrite Hg at 1. }
    destruct (ExtendNode pool1 node) as [pool2|]; simpl in Hg; [|done].
    destruct (pool2 !! node) as [nd2|]; simpl in Hg; [|done].
    destruct (negb (is_terminal nd2)).
    + destruct (AddNodeToCompute _ _ _ _ _) as [[? comp1]|]; simpl in Hg; [|done].
      apply IH in Hg. by rewrite Hg at 1.
    + apply IH in Hg. by rewrite Hg at 1.
Qed.

Lemma best_move_calls_app (l1 l2 : list (Callback Move)) :
  best_move_calls (l1 ++ l2) = (best_move_calls l1 + best_move_calls l2)%nat.
Proof. induction l1 as [|cb l1 IH]; simpl; [done|]. rewrite IH. lia. Qed.

Lemma quiet_refl s : quiet s s.
Proof. by repeat split. Qed.

Lemma quiet_trans s1 s2 s3 : quiet s1 s2 -> quiet s2 s3 -> quiet s1 s3.
Proof.
  intros (? & ? & ? & ?) (? & ? & ? & ?). repeat split; congruence.
Qed.

Lemma SendUciInfo_quiet s s' : SendUciInfo s = Some s' -> quiet s s'.
Proof.
  unfold SendUciInfo. intros Hs.
  destruct (best_move_node_ s) as [b|]; [|injection Hs as <-; apply quiet_refl].
  simpl in Hs.
  destruct (node_pool_ s !! root_node_ s) as [rootnd|]; simpl in Hs; [|done].
  destruct (GetCapacity (cache_ s) =? 0); [done|].
  destruct (node_pool_ s !! b) as [bnd|]; simpl in Hs; [|done].
  destruct (GetBestChild (node_pool_ s) b) as [next|]; simpl in Hs; [|done].
  destruct (principal_variation _ _ next) as [rest|]; simpl in Hs; [|done].
  injection Hs as <-. repeat split; simpl.
  rewrite best_move_calls_app. simpl. lia.
Qed.

Lemma MaybeOutputInfo_quiet s s' : MaybeOutputInfo s = Some s' -> quiet s s'.
Proof.
  unfold MaybeOutputInfo. intros Hs.
  destruct (best_move_node_ s) as [b|]; [|injection Hs as <-; apply quiet_refl].
  destruct (bool_decide _); [by apply SendUciInfo_quiet|].
  destruct (node_pool_ s !! root_node_ s) as [rootnd|]; simpl in Hs; [|done].
  destruct (_ || _); [by apply SendUciInfo_quiet|].
  injection Hs as <-; apply quiet_refl.
Qed.

(** The limit checks never clear the stop flag, and touch neither the
    limits, the latch nor the callbacks. *)
Lemma check_limits_frame s :
  limits_ (check_limits s) = limits_ s /\
  responded_bestmove_ (check_limits s) = responded_bestmove_ s /\
  callbacks (check_limits s) = callbacks s /\
  stop_ (check_limits s)
  = stop_ s || playouts_condition s || visits_condition s
    || (time_condition s).1.
Proof.
  unfold check_limits, time_condition, playouts_condition, visits_condition,
    GetTimeSinceStart.
  destruct s as [pool root cache lim iv tp st rb bm lo ui mb pb ac cp cr cbs].
  simpl.
  destruct ((0 <=? playouts lim) && (playouts lim <=? tp)); simpl;
    (destruct ((0 <=? visits lim) && (visits lim <=? tp + iv)); simpl);
    (destruct (0 <=? time_ms lim); simpl);
    try (destruct (time_ms lim <=? steady_clock cr); simpl);
    repeat split; by destruct st.
Qed.

(** What [MaybeTriggerStop] does to the stop flag, the latch and the count
    of best-move callbacks. *)
Lemma MaybeTriggerStop_spec s s' :
  MaybeTriggerStop s = Some s' ->
  limits_ s' = limits_ s /\
  stop_ s' = stop_ (check_limits s) /\
  if stop_ (check_limits s) && negb (responded_bestmove_ s)
  then responded_bestmove_ s' = true /\
       best_move_calls (callbacks s')
       = S (best_move_calls (callbacks s))
  else responded_bestmove_ s' = responded_bestmove_ s /\
       best_move_calls (callbacks s') = best_move_calls (callbacks s).
Proof.
  unfold MaybeTriggerStop. intros Hs.
  destruct (check_limits_frame s) as (Hlim & Hresp & Hcbs & _).
  rewrite Hresp in Hs.
  destruct (stop_ (check_limits s) && negb (responded_bestmove_ s)) eqn:Hc.
  - destruct (SendUciInfo _) as [s1|] eqn:Hs1; simpl in Hs; [|done].
    destruct (GetBestMoveInternal s1) as [bm|]; simpl in Hs; [|done].
    injection Hs as <-. simpl.
    apply SendUciInfo_quiet in Hs1 as (H1 & H2 & H3 & H4). simpl in *.
    rewrite best_move_calls_app, H4, Hcbs. simpl.
    repeat split; try congruence. lia.
  - injection Hs as <-. by rewrite Hcbs.
Qed.

(** A turn of the worker is its stop check run on a state that is quiet
    with respect to the state the turn started in. *)
Lemma Worker_iteration_quiet s s' :
  Worker_iteration s = Some s' ->
  exists s0, quiet s s0 /\ MaybeTriggerStop s0 = Some s'.
Proof.
  unfold Worker_iteration. intros Hs.
  destruct (gather _ _ _ _ _ _) as [[[[s1 comp] nodes] new_nodes]|] eqn:Hg;
    simpl in Hs; [|done].
  apply gather_frame in Hg.
  assert (Hq1 : quiet s s1) by (rewrite Hg; by repeat split).
  clear Hg.
  match type of Hs with
  | context [if ?c then _ else _] => destruct c
  end.
  - destruct (PrefetchIntoCache _ _ _ _) as [[? comp1]|]; simpl in Hs; [|done].
    revert Hs. generalize comp1. clear comp1. intros comp1 Hs.
    match type of Hs with
    | context [if ?c then _ else _] => destruct c
    end.
    + destruct (apply_nn_outputs _ _ _ _) as [pool|]; simpl in Hs; [|done].
      destruct (backup_all _ _ _ _) as [[pool2 best]|]; simpl in Hs; [|done].
      destruct (MaybeOutputInfo _) as [s2|] eqn:Hm; simpl in Hs; [|done].
      exists s2. split; [|done].
      eapply quiet_trans; [exact Hq1|].
      apply MaybeOutputInfo_quiet in Hm as (H1 & H2 & H3 & H4).
      by repeat split.
    + simpl in Hs.
      destruct (backup_all _ _ _ _) as [[pool2 best]|]; simpl in Hs; [|done].
      destruct (MaybeOutputInfo _) as [s2|] eqn:Hm; simpl in Hs; [|done].
      exists s2. split; [|done].
      eapply quiet_trans; [exact Hq1|].
      apply MaybeOutputInfo_quiet in Hm as (H1 & H2 & H3 & H4).
      by repeat split.
  - simpl in Hs.
    match type of Hs with
    | context [if ?c then _ else _] => destruct c
    end.
    + destruct (apply_nn_outputs _ _ _ _) as [pool|]; simpl in Hs; [|done].
      destruct (backup_all _ _ _ _) as [[pool2 best]|]; simpl in Hs; [|done].
      destruct (MaybeOutputInfo _) as [s2|] eqn:Hm; simpl in Hs; [|done].
      exists s2. split; [|done].
      eapply quiet_trans; [exact Hq1|].
      apply MaybeOutputInfo_quiet in Hm as (H1 & H2 & H3 & H4).
      by repeat split.
    + simpl in Hs.
      destruct (backup_all _ _ _ _) as [[pool2 best]|]; simpl in Hs; [|done].
      destruct (MaybeOutputInfo _) as [s2|] eqn:Hm; simpl in Hs; [|done].
      exists s2. split; [|done].
      eapply quiet_trans; [exact Hq1|].
      apply MaybeOutputInfo_quiet in Hm as (H1 & H2 & H3 & H4).
      by repeat split.
Qed.

End Frames.

(* ------------------------------------------------------------------ *)
(** ** The latch and the stop flag along a life *)

Section LifeLemmas.
Context {Move Board InputPlanes NNCache : Type}.
Context {collab : Collaborators Move Board InputPlanes NNCache}.
Implicit Types (s : Search Move Board NNCache).

(** Once the latch is set no event calls back with a best move, and the
    latch stays set. *)
Lemma step_latched ev s s' :
  responded_bestmove_ s = true -> step ev s = Some s' ->
  responded_bestmove_ s' = true /\
  best_move_calls (callbacks s') = best_move_calls (callbacks s).
Proof.
  intros Hr Hs. destruct ev; simpl in Hs.
  - apply Worker_iteration_quiet in Hs as (s0 & (_ & _ & Hr0 & Hc0) & Hs).
    apply MaybeTriggerStop_spec in Hs as (_ & _ & Hs).
    rewrite Hr0, Hr, andb_false_r in Hs. destruct Hs as [Hs1 Hs2].
    split; congruence.
  - apply MaybeTriggerStop_spec in Hs as (_ & _ & Hs).
    rewrite Hr, andb_false_r in Hs. destruct Hs as [Hs1 Hs2].
    split; congruence.
  - by injection Hs as <-.
  - by injection Hs as <-.
  - by injection Hs as <-.
Qed.

Lemma run_latched evs s s' :
  responded_bestmove_ s = true -> run evs s = Some s' ->
  responded_bestmove_ s' = true /\
  best_move_calls (callbacks s') = best_move_calls (callbacks s).
Proof.
  revert s. induction evs as [|ev evs IH]; intros s Hr Hrun; simpl in Hrun.
  - by injection Hrun as <-.
  - destruct (step ev s) as [s1|] eqn:Hs1; simpl in Hrun; [|done].
    destruct (step_latched _ _ _ Hr Hs1) as [Hr1 Hc1].
    destruct (IH _ Hr1 Hrun) as [Hr' Hc']. split; congruence.
Qed.

(** While the latch is unset there was no best-move callback; an event
    keeps that, or sets the latch with exactly one callback. *)
Lemma step_unlatched ev s s' :
  responded_bestmove_ s = false -> step ev s = Some s' ->
  (responded_bestmove_ s' = false /\
   best_move_calls (callbacks s') = best_move_calls (callbacks s))
  \/
  (responded_bestmove_ s' = true /\
   (best_move_calls (callbacks s') <= S (best_move_calls (callbacks s)))%nat).
Proof.
  intros Hr Hs. destruct ev; simpl in Hs.
  - apply Worker_iteration_quiet in Hs as (s0 & (_ & _ & Hr0 & Hc0) & Hs).
    apply MaybeTriggerStop_spec in Hs as (_ & _ & Hs).
    rewrite Hr0, Hr in Hs.
    destruct (stop_ (check_limits s0) && negb false);
      destruct Hs as [Hs1 Hs2]; [right|left]; split; try congruence; lia.
  - apply MaybeTriggerStop_spec in Hs as (_ & _ & Hs).
    rewrite Hr in Hs.
    destruct (stop_ (check_limits s) && negb false);
      destruct Hs as [Hs1 Hs2]; [right|left]; split; try congruence; lia.
  - injection Hs as <-. by left.
  - injection Hs as <-. right. simpl. split; [done|lia].
  - injection Hs as <-. right. simpl. split; [done|lia].
Qed.

Lemma run_unlatched evs s s' :
  responded_bestmove_ s = false -> run evs s = Some s' ->
  (best_move_calls (callbacks s') <= S (best_move_calls (callbacks s)))%nat.
Proof.
  revert s. induction evs as [|ev evs IH]; intros s Hr Hrun; simpl in Hrun.
  - injection Hrun as <-. lia.
  - destruct (step ev s) as [s1|] eqn:Hs1; simpl in Hrun; [|done].
    destruct (step_unlatched _ _ _ Hr Hs1) as [[Hr1 Hc1]|[Hr1 Hc1]].
    + rewrite <- Hc1. by apply IH.
    + destruct (run_latched _ _ _ Hr1 Hrun) as [_ Hc']. lia.
Qed.

(** With all limits negative the limit checks leave the stop flag as it
    is. *)
Lemma check_limits_no_limit s :
  no_limit s -> stop_ (check_limits s) = stop_ s.
Proof.
  intros (Hp & Hv & Ht).
  destruct (check_limits_frame s) as (_ & _ & _ & ->).
  unfold playouts_condition, visits_condition, time_condition.
  destruct (Z.leb_spec 0 (playouts (limits_ s))); [lia|].
  destruct (Z.leb_spec 0 (visits (limits_ s))); [lia|].
  destruct (Z.leb_spec 0 (time_ms (limits_ s))); [lia|].
  simpl. by rewrite !orb_false_r.
Qed.

Lemma step_worker_no_limit ev s s' :
  is_worker_event ev = true -> no_limit s -> step ev s = Some s' ->
  no_limit s' /\ stop_ s' = stop_ s.
Proof.
  intros Hev Hno Hs. destruct ev; try done; simpl in Hs.
  - apply Worker_iteration_quiet in Hs as (s0 & (Hl0 & Hs0 & _ & _) & Hs).
    assert (Hno0 : no_limit s0) by (unfold no_limit; by rewrite Hl0).
    apply MaybeTriggerStop_spec in Hs as (Hl & Hst & _).
    split; [unfold no_limit; by rewrite Hl|].
    by rewrite Hst, check_limits_no_limit, Hs0.
  - apply MaybeTriggerStop_spec in Hs as (Hl & Hst & _).
    split; [unfold no_limit; by rewrite Hl|].
    by rewrite Hst, check_limits_no_limit.
Qed.

Lemma run_workers_no_limit evs s s' :
  forallb is_worker_event evs = true -> no_limit s -> run evs s = Some s' ->
  stop_ s' = stop_ s.
Proof.
  revert s. induction evs as [|ev evs IH]; intros s Hevs Hno Hrun;
    simpl in Hrun, Hevs.
  - by injection Hrun as <-.
  - apply andb_true_iff in Hevs as [Hev Hevs].
    destruct (step ev s) as [s1|] eqn:Hs1; simpl in Hrun; [|done].
    destruct (step_worker_no_limit _ _ _ Hev Hno Hs1) as [Hno1 Hst1].
    rewrite <- Hst1. by apply IH.
Qed.

(** A turn of the worker that starts with the stop flag set ends with it
    set. *)
Lemma Worker_iteration_keeps_stop s s' :
  stop_ s = true -> Worker_iteration s = Some s' -> stop_ s' = true.
Proof.
  intros Hst Hs.
  apply Worker_iteration_quiet in Hs as (s0 & (_ & Hs0 & _ & _) & Hs).
  apply MaybeTriggerStop_spec in Hs as (_ & -> & _).
  destruct (check_limits_frame s0) as (_ & _ & _ & ->).
  by rewrite Hs0, Hst.
Qed.

End LifeLemmas.


(* ------------------------------------------------------------------ *)
(** ** [ExtendNode] *)

Section ExtendNodeLemmas.
Context {Move Board InputPlanes NNCache : Type}.
Context {collab : Collaborators Move Board InputPlanes NNCache}.
Implicit Types (pool : list (Node Move Board)).

Lemma alter_snoc {A : Type} (f : A -> A) (l : list A) (x : A) (k : nat) :
  k = length l -> alter f k (l ++ [x]) = l ++ [f x].
Proof.
  intros ->. rewrite alter_app_r_alt by lia. by rewrite Nat.sub_diag.
Qed.

Lemma add_child_eq pool node prev_node mv nd :
  pool !! node = Some nd ->
  (prev_node < length pool)%nat ->
  add_child pool node prev_node mv
  = Some (link_first pool node prev_node [mv]
            ++ [new_child node (no_capture_ply nd) (ply_count nd) mv None],
          length pool).
Proof.
  intros Hnd Hprev.
  assert (Hnode : (node < length pool)%nat) by (by eapply lookup_lt_Some).
  unfold add_child, link_first.
  rewrite (lookup_app_l_Some _ _ _ _ Hnd). simpl.
  f_equal. f_equal.
  rewrite (alter_snoc _ pool) by done.
  case_bool_decide as Hp.
  - rewrite alter_app_l by done.
    rewrite !alter_snoc by (by rewrite length_alter). done.
  - rewrite alter_app_l by done.
    rewrite !alter_snoc by (by rewrite length_alter). done.
Qed.

Lemma add_children_eq (moves : list (MoveAndBoard Move Board)) :
  forall pool node prev_node nd,
  pool !! node = Some nd ->
  (prev_node < length pool)%nat ->
  add_children pool node prev_node moves
  = Some (link_first pool node prev_node moves
            ++ new_children node (no_capture_ply nd) (ply_count nd)
                 (length pool) moves).
Proof.
  induction moves as [|mv rest IH]; intros pool node prev_node nd Hnd Hprev.
  - simpl. by rewrite app_nil_r.
  - assert (Hnode : (node < length pool)%nat) by (by eapply lookup_lt_Some).
    simpl add_children. rewrite (add_child_eq _ _ _ _ _ Hnd Hprev).
    remember (link_first pool node prev_node [mv]) as L eqn:HLdef.
    assert (HLeq : L = link_first pool node prev_node (mv :: rest)) by done.
    simpl in HLdef. simpl.
    assert (HL : length L = length pool).
    { rewrite HLdef. case_bool_decide; by rewrite length_alter. }
    assert (HLn : exists nd', L !! node = Some nd' /\
              no_capture_ply nd' = no_capture_ply nd /\
              ply_count nd' = ply_count nd).
    { rewrite HLdef. case_bool_decide as Hp.
      - rewrite list_lookup_alter_eq, Hnd. simpl. by eexists.
      - rewrite list_lookup_alter_ne by done. by eexists. }
    clear HLdef.
    destruct HLn as (nd' & Hnd' & Hncp & Hply).
    rewrite (IH _ _ _ nd').
    + simpl in HLeq. rewrite Hncp, Hply, length_app, HL, <- HLeq. simpl.
      clear HLeq.
      replace (length pool + 1)%nat with (S (length pool)) by lia.
      f_equal. destruct rest as [|mv2 rest]; simpl.
      * by rewrite app_nil_r.
      * case_bool_decide as Hp; [lia|].
        rewrite length_app, HL. simpl.
        rewrite alter_snoc by lia.
        replace (length pool + 1)%nat with (S (length pool)) by lia.
        by rewrite <- app_assoc.
    + by apply lookup_app_l_Some.
    + rewrite length_app, HL. simpl. lia.
Qed.


Lemma new_children_chain (moves : list (MoveAndBoard Move Board)) :
  forall pre base node ncp ply,
  length pre = base -> moves <> [] ->
  chain sibling (pre ++ new_children node ncp ply base moves) None
    (Some base) (seq base (length moves)).
Proof.
  induction moves as [|mv rest IH]; intros pre base node ncp ply Hlen Hne;
    [done|].
  simpl. eapply chain_cons; [done| |].
  - rewrite lookup_app_r by lia. by rewrite Hlen, Nat.sub_diag.
  - simpl. destruct rest as [|mv2 rest]; [constructor|].
    rewrite (cons_middle _ pre). rewrite app_assoc.
    apply (IH (pre ++ [_])); [|done].
    rewrite length_app. simpl. lia.
Qed.

Lemma new_children_lookup (moves : list (MoveAndBoard Move Board)) :
  forall base node ncp ply i mv,
  moves !! i = Some mv ->
  exists sib,
    new_children node ncp ply base moves !! i
    = Some (new_child node ncp ply mv sib).
Proof.
  induction moves as [|mv0 rest IH]; intros base node ncp ply i mv Hi; [done|].
  destruct i as [|i]; simpl in *.
  - injection Hi as ->. by eexists.
  - by apply IH.
Qed.

Lemma length_new_children (moves : list (MoveAndBoard Move Board)) :
  forall base node ncp ply,
  length (new_children node ncp ply base moves) = length moves.
Proof.
  induction moves as [|mv rest IH]; intros; simpl; [done|]. by rewrite IH.
Qed.

End ExtendNodeLemmas.

(* ------------------------------------------------------------------ *)
(** ** Backup *)

Section BackupLemmas.
Context {Move Board : Type}.
Implicit Types (pool : list (Node Move Board)).

Lemma same_links_refl pool : same_links pool pool.
Proof. split; [done|]. intros c nd Hnd. by exists nd. Qed.

Lemma same_links_trans pool1 pool2 pool3 :
  same_links pool1 pool2 -> same_links pool2 pool3 -> same_links pool1 pool3.
Proof.
  intros [Hl1 H1] [Hl2 H2]. split; [congruence|].
  intros c nd Hnd.
  destruct (H1 _ _ Hnd) as (nd2 & Hnd2 & Hp & Hc & Hs).
  destruct (H2 _ _ Hnd2) as (nd3 & Hnd3 & Hp3 & Hc3 & Hs3).
  exists nd3. repeat split; congruence.
Qed.

Lemma same_links_insert pool c nd nd' :
  pool !! c = Some nd ->
  parent nd' = parent nd -> child nd' = child nd -> sibling nd' = sibling nd ->
  same_links pool (<[c := nd']> pool).
Proof.
  intros Hnd Hp Hc Hs. split; [apply length_insert|].
  intros c0 nd0 Hnd0. destruct (decide (c = c0)) as [->|Hne].
  - exists nd'. rewrite list_lookup_insert_eq by (by eapply lookup_lt_Some).
    assert (nd0 = nd) as -> by congruence. done.
  - exists nd0. by rewrite list_lookup_insert_ne.
Qed.

Lemma chain_links next pool pool' stop start l :
  same_links pool pool' ->
  (forall nd nd' : Node Move Board,
     parent nd' = parent nd -> child nd' = child nd ->
     sibling nd' = sibling nd -> next nd' = next nd) ->
  chain next pool stop start l -> chain next pool' stop start l.
Proof.
  intros [_ Hl] Hnext. apply chain_same_links.
  intros c nd Hnd. destruct (Hl _ _ Hnd) as (nd' & Hnd' & Hp & Hc & Hs).
  exists nd'. split; [done|]. by apply Hnext.
Qed.

Lemma children_same_links pool pool' c cs :
  same_links pool pool' -> children pool c cs -> children pool' c cs.
Proof.
  intros Hl (nd & Hnd & Hch).
  destruct (proj2 Hl _ _ Hnd) as (nd' & Hnd' & Hp & Hc & Hs).
  exists nd'. split; [done|]. rewrite Hc.
  eapply chain_links; [done| |done]. auto.
Qed.

Lemma min_full_depth_total pool start cs fuel cur_full_depth :
  chain sibling pool None start cs -> (length cs <= fuel)%nat ->
  is_Some (min_full_depth fuel pool start cur_full_depth).
Proof.
  intros Hch. revert fuel cur_full_depth.
  induction Hch as [|c nd l Hne Hnd _ IH]; intros fuel cur_full_depth Hlen.
  - by destruct fuel.
  - destruct fuel as [|fuel]; simpl in Hlen; [lia|].
    simpl. rewrite Hnd. simpl. apply IH. lia.
Qed.


Lemma backup_node_spec pool root best c nd v_ depth_ cfd fdu :
  pool !! c = Some nd ->
  (exists cs, children pool c cs) ->
  (forall b, best = Some b -> is_Some (pool !! b)) ->
  exists nd' best' cfd' fdu',
    backup_node pool root best c v_ depth_ cfd fdu
    = Some (<[c := nd']> pool, best', cfd', fdu', parent nd) /\
    parent nd' = parent nd /\ child nd' = child nd /\
    sibling nd' = sibling nd /\
    backed_up v_ nd nd' /\
    (forall b, best' = Some b -> is_Some (pool !! b)).
Proof.
  intros Hnd (cs & Hcs) Hbest.
  assert (Hc : (c < length pool)%nat) by (by eapply lookup_lt_Some).
  unfold backup_node. rewrite Hnd. cbn [mbind option_bind].
  set (nd1 := if max_depth (update_stats v_ nd) <? depth_
              then set_max_depth depth_ (update_stats v_ nd)
              else update_stats v_ nd).
  assert (Hlinks : parent nd1 = parent nd /\ child nd1 = child nd /\
                   sibling nd1 = sibling nd /\ backed_up v_ nd nd1).
  { unfold nd1. by destruct (_ <? _). }
  destruct Hlinks as (Hp & Hch & Hsb & Hbk).
  set (pool1 := <[c := nd1]> pool).
  assert (Hl1 : same_links pool pool1) by (by eapply same_links_insert).
  assert (Hlen1 : length pool1 = length pool) by apply length_insert.
  (* the part after the full-depth update, for any node it leaves at [c] *)
  assert (Hrest : forall nd2 (cfd2 : Z) (fdu2 : bool),
    parent nd2 = parent nd -> child nd2 = child nd ->
    sibling nd2 = sibling nd -> backed_up v_ nd nd2 -> n nd1 = n nd2 ->
    exists nd' best' cfd' fdu',
      ((if bool_decide (parent nd1 = Some root)
        then match best with
             | None => Some (Some c)
             | Some b =>
                 bnd ← <[c := nd2]> pool !! b;
                 Some (if n bnd <? n nd1 then Some c else best)
             end
        else Some best) ≫= λ best0,
        Some (<[c := nd2]> pool, best0, cfd2, fdu2, parent nd1))
      = Some (<[c := nd']> pool, best', cfd', fdu', parent nd) /\
      parent nd' = parent nd /\ child nd' = child nd /\
      sibling nd' = sibling nd /\ backed_up v_ nd nd' /\
      (forall b, best' = Some b -> is_Some (pool !! b))).
  { intros nd2 cfd2 fdu2 Hp2 Hc2 Hs2 Hb2 Hn2. rewrite Hp.
    destruct (bool_decide (parent nd = Some root)).
    - destruct best as [b|].
      + destruct (Hbest b eq_refl) as [bnd0 Hbnd0].
        assert (Hb : is_Some (<[c := nd2]> pool !! b)).
        { apply lookup_lt_is_Some. rewrite length_insert.
          by eapply lookup_lt_Some. }
        destruct Hb as [bnd Hbnd]. rewrite Hbnd. simpl.
        exists nd2. eexists _, _, _. do 5 (split; [done|]).
        intros b'. destruct (n bnd <? n nd1); intros [= <-]; by eexists.
      + simpl. exists nd2. eexists _, _, _. do 5 (split; [done|]).
        intros b' [= <-]. by eexists.
    - simpl. exists nd2. eexists _, _, _. by do 5 (split; [done|]). }
  destruct (fdu && (full_depth nd1 <=? cfd)).
  - assert (Hcs1 : children pool1 c cs) by (by eapply children_same_links).
    destruct Hcs1 as (nd1' & Hnd1' & Hchain).
    assert (nd1' = nd1) as ->.
    { unfold pool1 in Hnd1'. rewrite list_lookup_insert_eq in Hnd1' by done.
      congruence. }
    destruct (min_full_depth_total pool1 _ cs (length pool1) cfd Hchain)
      as [m Hm]; [by eapply chain_length|].
    rewrite Hm. cbn [mbind option_bind].
    destruct (full_depth nd1 <=? m).
    + unfold pool1. rewrite list_insert_insert_eq.
      apply Hrest; try done.
    + apply Hrest; try done.
  - apply Hrest; try done.
Qed.


Lemma backup_loop_spec root stop path :
  forall pool cur fuel best v_ depth_ cfd fdu,
  (exists rootnd, pool !! root = Some rootnd /\ parent rootnd = stop) ->
  chain parent pool stop cur path ->
  (length path <= fuel)%nat ->
  (forall c, c ∈ path -> exists cs, children pool c cs) ->
  (forall b, best = Some b -> is_Some (pool !! b)) ->
  exists pool' best',
    backup_loop fuel pool root best cur v_ depth_ cfd fdu
    = Some (pool', best') /\
    same_links pool pool' /\
    (forall c, c ∉ path -> pool' !! c = pool !! c) /\
    (forall i c nd, path !! i = Some c -> pool !! c = Some nd ->
       exists nd', pool' !! c = Some nd' /\
                   backed_up (flipped_value i v_) nd nd').
Proof.
  induction path as [|c path IH];
    intros pool cur fuel best v_ depth_ cfd fdu (rootnd & Hroot & Hstop)
      Hch Hlen Hkids Hbest.
  - inversion Hch; subst.
    exists pool, best. split.
    { destruct fuel; simpl; rewrite Hroot; simpl;
        by rewrite bool_decide_eq_true_2. }
    split; [apply same_links_refl|]. split; [done|].
    intros i c nd Hi. done.
  - inversion Hch as [|c' nd l Hne Hnd Hrest]; subst.
    pose proof (chain_NoDup _ _ _ _ _ Hch) as Hnodup.
    apply NoDup_cons in Hnodup as [Hnotin _].
    destruct fuel as [|fuel]; simpl in Hlen; [lia|].
    destruct (backup_node_spec pool root best c nd v_
                (wrap_u16 (depth_ + 1)) cfd fdu Hnd
                (Hkids c ltac:(by left)) Hbest)
      as (nd' & best1 & cfd1 & fdu1 & Hstep & Hp & Hc & Hs & Hbk & Hbest1).
    simpl. rewrite Hroot. cbn [mbind option_bind].
    rewrite bool_decide_eq_false_2 by done.
    rewrite Hstep. cbn [mbind option_bind].
    set (pool1 := <[c := nd']> pool).
    assert (Hl1 : same_links pool pool1) by (by eapply same_links_insert).
    assert (Hc1 : pool1 !! c = Some nd').
    { apply list_lookup_insert_eq. by eapply lookup_lt_Some. }
    destruct (IH pool1 (parent nd) fuel best1 (F32.neg v_)
                (wrap_u16 (depth_ + 1)) cfd1 fdu1)
      as (pool' & best' & Hloop & Hl' & Hout & Hin).
    + destruct (proj2 Hl1 _ _ Hroot) as (r1 & Hr1 & Hpr & _). by exists r1.
    + eapply chain_links; [exact Hl1| |exact Hrest]. auto.
    + lia.
    + intros c0 Hc0. destruct (Hkids c0 ltac:(by right)) as [cs Hcs].
      exists cs. by eapply children_same_links.
    + intros b Hb. apply lookup_lt_is_Some. rewrite (proj1 Hl1).
      apply lookup_lt_is_Some. by apply Hbest1.
    + exists pool', best'. split; [done|].
      split; [by eapply same_links_trans|]. split.
      * intros c0 Hc0. apply not_elem_of_cons in Hc0 as [Hne0 Hc0].
        rewrite (Hout _ Hc0). unfold pool1. by rewrite list_lookup_insert_ne.
      * intros [|i] c0 nd0 Hi Hnd0; simpl in Hi.
        -- injection Hi as <-. assert (nd0 = nd) as -> by congruence.
           exists nd'. split; [|exact Hbk]. by rewrite (Hout _ Hnotin).
        -- assert (Hne0 : c <> c0).
           { intros ->. apply Hnotin. by eapply list_elem_of_lookup_2. }
           unfold flipped_value. rewrite Nat.iter_succ_r.
           apply (Hin i c0 nd0 Hi).
           unfold pool1. by rewrite list_lookup_insert_ne.
Qed.

End BackupLemmas.

(* ------------------------------------------------------------------ *)
(** ** The order of the floats *)

Lemma SFltb_rank x y :
  SFltb x y = true <->
  exists a b, float_rank x = Some a /\ float_rank y = Some b /\ lex_lt a b.
Proof.
  unfold SFltb, lex_lt.
  destruct x as [sx|sx| |sx mx ex], y as [sy|sy| |sy my ey]; simpl;
    try (split; [done|intros (a & b & Ha & Hb & Hlt); done]);
    try destruct sx; try destruct sy; simpl;
    try (split; [intros _; eexists _, _; (split; [done|]); (split; [done|]);
                   simpl; lia
                |done]);
    try (split; [done|intros (a & b & [= <-] & [= <-] & Hlt); simpl in Hlt; lia]).
  - change (PosDef.Pos.compare_cont Eq mx my) with (Pos.compare mx my).
    destruct (Z.compare_spec ex ey) as [->|Hlt|Hgt];
      [destruct (Pos.compare_spec mx my) as [->|Hm|Hm]|..]; simpl;
      (split; [try done; intros _; eexists _, _; (split; [done|]);
                 (split; [done|]); simpl; lia
              |try done; intros (a & b & [= <-] & [= <-] & Hl); simpl in Hl; lia]).
  - change (PosDef.Pos.compare_cont Eq mx my) with (Pos.compare mx my).
    destruct (Z.compare_spec ex ey) as [->|Hlt|Hgt];
      [destruct (Pos.compare_spec mx my) as [->|Hm|Hm]|..]; simpl;
      (split; [try done; intros _; eexists _, _; (split; [done|]);
                 (split; [done|]); simpl; lia
              |try done; intros (a & b & [= <-] & [= <-] & Hl); simpl in Hl; lia]).
Qed.

Lemma SFeqb_refl x : x <> S754_nan -> SFeqb x x = true.
Proof.
  unfold SFeqb. intros Hx.
  destruct x as [s|s| |s m e]; try done; destruct s; simpl; try done;
    change (PosDef.Pos.compare_cont Eq m m) with (Pos.compare m m);
    by rewrite Z.compare_refl, Pos.compare_refl.
Qed.

Lemma SFltb_irrefl x : SFltb x x = false.
Proof.
  destruct (SFltb x x) eqn:Hx; [|done].
  apply SFltb_rank in Hx as (a & b & Ha & Hb & Hlt).
  assert (a = b) as -> by congruence. unfold lex_lt in Hlt. lia.
Qed.

Lemma SFltb_trans x y z :
  SFltb x y = true -> SFltb y z = true -> SFltb x z = true.
Proof.
  intros (a & b & Ha & Hb & Hab)%SFltb_rank (b' & c & Hb' & Hc & Hbc)%SFltb_rank.
  assert (b' = b) as -> by congruence.
  apply SFltb_rank. exists a, c. do 2 (split; [done|]).
  unfold lex_lt in *. lia.
Qed.

Lemma SFltb_placeable y : y <> S754_nan -> placeable SFltb y.
Proof.
  intros Hy x z (a & c & Ha & Hc & Hac)%SFltb_rank.
  assert (exists b, float_rank y = Some b) as [b Hb].
  { destruct y as [s|s| |s m e]; try done; destruct s; by eexists. }
  assert (lex_lt a b \/ lex_lt b c) as [Hlt|Hlt] by (unfold lex_lt in *; lia).
  - left. apply SFltb_rank. by exists a, b.
  - right. apply SFltb_rank. by exists b, c.
Qed.

(* ------------------------------------------------------------------ *)
(** ** [PickNodeToExtend] *)

Section PickLemmas.
Context {Move Board : Type}.
Implicit Types (pool : list (Node Move Board)).

Lemma fold_best_cand {A K : Type} (ltb : K -> K -> bool) (key : A -> K)
  (l : list A) (best : K) (cand : option A) :
  (fold_best ltb key l best cand).2
  = match (fold_best ltb key l best None).2 with
    | Some a => Some a
    | None => cand
    end.
Proof.
  revert best cand. induction l as [|a l IH]; intros best cand; simpl; [done|].
  destruct (ltb best (key a)); [|apply IH].
  rewrite (IH (key a) (Some a)).
  by destruct (fold_best ltb key l (key a) None).2.
Qed.

Lemma pick_child_fold fuel pool cpuct nd start cs best node :
  chain sibling pool None start cs -> (length cs <= fuel)%nat ->
  pick_child fuel pool (puct_factor cpuct nd) start best node
  = Some (default node
            (fold_best SFltb (child_score pool cpuct nd) cs best None).2).
Proof.
  intros Hch. revert fuel best node.
  induction Hch as [|c cnd l Hne Hcnd _ IH]; intros fuel best node Hlen.
  - by destruct fuel.
  - destruct fuel as [|fuel]; simpl in Hlen; [lia|].
    assert (Hk : child_score pool cpuct nd c
                 = puct_score (puct_factor cpuct nd) cnd).
    { unfold child_score. by rewrite Hcnd. }
    simpl. rewrite Hcnd, Hk. cbn [mbind option_bind]. unfold F32.gtb.
    destruct (SFltb best (puct_score (puct_factor cpuct nd) cnd)).
    + rewrite IH by lia. rewrite (fold_best_cand _ _ l _ (Some c)).
      by destruct (fold_best _ _ l _ None).2.
    + apply IH. lia.
Qed.

(** The unwinding of the reservations from [cur] up to the root. *)
Lemma unwind_spec root stop path :
  forall pool cur fuel,
  (exists rootnd, pool !! root = Some rootnd /\ parent rootnd = stop) ->
  chain parent pool stop cur path ->
  (length path <= fuel)%nat ->
  exists pool',
    unwind fuel pool root cur = Some pool' /\
    same_links pool pool' /\
    (forall c, c ∉ path -> pool' !! c = pool !! c) /\
    (forall c cn, c ∈ path -> pool !! c = Some cn ->
       pool' !! c = Some (set_n_in_flight (n_in_flight cn - 1) cn)).
Proof.
  induction path as [|c path IH];
    intros pool cur fuel (rootnd & Hroot & Hstop) Hch Hlen.
  - inversion Hch; subst.
    exists pool. split.
    { destruct fuel; simpl; rewrite Hroot; simpl;
        by rewrite bool_decide_eq_true_2. }
    split; [apply same_links_refl|]. split; [done|].
    intros c cn Hc. by apply elem_of_nil in Hc.
  - inversion Hch as [|c' nd l Hne Hnd Hrest]; subst.
    pose proof (chain_NoDup _ _ _ _ _ Hch) as Hnodup.
    apply NoDup_cons in Hnodup as [Hnotin _].
    destruct fuel as [|fuel]; simpl in Hlen; [lia|].
    simpl. rewrite Hroot. cbn [mbind option_bind].
    rewrite bool_decide_eq_false_2 by done.
    rewrite Hnd. cbn [mbind option_bind].
    set (nd' := set_n_in_flight (n_in_flight nd - 1) nd).
    set (pool1 := <[c := nd']> pool).
    assert (Hl1 : same_links pool pool1) by (by eapply same_links_insert).
    destruct (IH pool1 (parent nd) fuel) as (pool' & Hun & Hl' & Hout & Hin).
    + destruct (proj2 Hl1 _ _ Hroot) as (r1 & Hr1 & Hpr & _). by exists r1.
    + eapply chain_links; [exact Hl1| |exact Hrest]. auto.
    + lia.
    + exists pool'. split; [done|].
      split; [by eapply same_links_trans|]. split.
      * intros c0 Hc0. apply not_elem_of_cons in Hc0 as [Hne0 Hc0].
        rewrite (Hout _ Hc0). unfold pool1. by rewrite list_lookup_insert_ne.
      * intros c0 cn Hc0 Hcn. apply elem_of_cons in Hc0 as [->|Hc0].
        -- assert (cn = nd) as -> by congruence.
           rewrite (Hout _ Hnotin). unfold pool1.
           apply list_lookup_insert_eq. by eapply lookup_lt_Some.
        -- apply Hin; [done|].
           assert (Hne0 : c <> c0) by (by intros ->).
           unfold pool1. by rewrite list_lookup_insert_ne.
Qed.

End PickLemmas.

(* ------------------------------------------------------------------ *)
(** ** The outputs of the network *)

Section PriorLemmas.
Context {Move Board InputPlanes NNCache : Type}.
Context {collab : Collaborators Move Board InputPlanes NNCache}.
Implicit Types (pool : list (Node Move Board)).

Lemma raw_total_ext pool pool' it cs total :
  (forall c, c ∈ cs -> pool' !! c = pool !! c) ->
  raw_total pool' it cs total = raw_total pool it cs total.
Proof.
  unfold raw_total. revert total.
  induction cs as [|c cs IH]; intros total Heq; simpl; [done|].
  rewrite IH by (intros c' Hc'; apply Heq; by right).
  unfold raw_prior. by rewrite (Heq c) by (by left).
Qed.

Lemma populate_priors_spec comp idx it cs :
  comp !! idx = Some it ->
  forall pool start fuel total,
  chain sibling pool None start cs ->
  (length cs <= fuel)%nat ->
  exists pool',
    populate_priors fuel pool comp idx start total
    = Some (pool', raw_total pool it cs total) /\
    same_links pool pool' /\
    (forall c, c ∉ cs -> pool' !! c = pool !! c) /\
    (forall c cn, c ∈ cs -> pool !! c = Some cn ->
       pool' !! c = Some (set_p (item_p it (as_nn_index (move cn))) cn)).
Proof.
  intros Hit.
  induction cs as [|c cs IH]; intros pool start fuel total Hch Hlen.
  - inversion Hch; subst. exists pool. split; [by destruct fuel|].
    split; [apply same_links_refl|]. split; [done|].
    intros c cn Hc. by apply elem_of_nil in Hc.
  - inversion Hch as [|c' nd l Hne Hnd Hrest]; subst.
    pose proof (chain_NoDup _ _ _ _ _ Hch) as Hnodup.
    apply NoDup_cons in Hnodup as [Hnotin _].
    destruct fuel as [|fuel]; simpl in Hlen; [lia|].
    simpl. rewrite Hnd. cbn [mbind option_bind].
    unfold GetPVal. rewrite Hit. cbn [mbind option_bind].
    set (nd' := set_p (item_p it (as_nn_index (move nd))) nd).
    set (pool1 := <[c := nd']> pool).
    assert (Hl1 : same_links pool pool1) by (by eapply same_links_insert).
    destruct (IH pool1 (sibling nd) fuel
                (F32.add total (item_p it (as_nn_index (move nd)))))
      as (pool' & Hpop & Hl' & Hout & Hin).
    + eapply chain_links; [exact Hl1| |exact Hrest]. auto.
    + lia.
    + exists pool'. split.
      { rewrite Hpop. do 2 f_equal.
        unfold raw_total at 2. simpl. unfold raw_prior at 2. rewrite Hnd.
        apply raw_total_ext. intros c0 Hc0.
        unfold pool1. rewrite list_lookup_insert_ne; [done|]. by intros ->. }
      split; [by eapply same_links_trans|]. split.
      * intros c0 Hc0. apply not_elem_of_cons in Hc0 as [Hne0 Hc0].
        rewrite (Hout _ Hc0). unfold pool1. by rewrite list_lookup_insert_ne.
      * intros c0 cn Hc0 Hcn. apply elem_of_cons in Hc0 as [->|Hc0].
        -- assert (cn = nd) as -> by congruence.
           rewrite (Hout _ Hnotin). unfold pool1.
           apply list_lookup_insert_eq. by eapply lookup_lt_Some.
        -- apply Hin; [done|].
           assert (Hne0 : c <> c0) by (by intros ->).
           unfold pool1. by rewrite list_lookup_insert_ne.
Qed.

Lemma scale_priors_spec total cs :
  forall pool start fuel,
  chain sibling pool None start cs ->
  (length cs <= fuel)%nat ->
  exists pool',
    scale_priors fuel pool start total = Some pool' /\
    same_links pool pool' /\
    (forall c, c ∉ cs -> pool' !! c = pool !! c) /\
    (forall c cn, c ∈ cs -> pool !! c = Some cn ->
       pool' !! c = Some (set_p (F32.div (p cn) total) cn)).
Proof.
  induction cs as [|c cs IH]; intros pool start fuel Hch Hlen.
  - inversion Hch; subst. exists pool. split; [by destruct fuel|].
    split; [apply same_links_refl|]. split; [done|].
    intros c cn Hc. by apply elem_of_nil in Hc.
  - inversion Hch as [|c' nd l Hne Hnd Hrest]; subst.
    pose proof (chain_NoDup _ _ _ _ _ Hch) as Hnodup.
    apply NoDup_cons in Hnodup as [Hnotin _].
    destruct fuel as [|fuel]; simpl in Hlen; [lia|].
    simpl. rewrite Hnd. cbn [mbind option_bind].
    set (nd' := set_p (F32.div (p nd) total) nd).
    set (pool1 := <[c := nd']> pool).
    assert (Hl1 : same_links pool pool1) by (by eapply same_links_insert).
    destruct (IH pool1 (sibling nd) fuel) as (pool' & Hpop & Hl' & Hout & Hin).
    + eapply chain_links; [exact Hl1| |exact Hrest]. auto.
    + lia.
    + exists pool'. split; [done|].
      split; [by eapply same_links_trans|]. split.
      * intros c0 Hc0. apply not_elem_of_cons in Hc0 as [Hne0 Hc0].
        rewrite (Hout _ Hc0). unfold pool1. by rewrite list_lookup_insert_ne.
      * intros c0 cn Hc0 Hcn. apply elem_of_cons in Hc0 as [->|Hc0].
        -- assert (cn = nd) as -> by congruence.
           rewrite (Hout _ Hnotin). unfold pool1.
           apply list_lookup_insert_eq. by eapply lookup_lt_Some.
        -- apply Hin; [done|].
           assert (Hne0 : c <> c0) by (by intros ->).
           unfold pool1. by rewrite list_lookup_insert_ne.
Qed.

(** What applying the output [it] of the network does to a node and its
    children: the node gets the negated value; every child gets its raw
    prior, divided by the [float] sum of the raw priors when that sum is
    greater than zero and as it is otherwise. *)
Lemma apply_nn_output_spec pool comp idx it node nd cs :
  comp !! idx = Some it ->
  pool !! node = Some nd ->
  children pool node cs ->
  node ∉ cs ->
  let total := raw_total pool it cs F32.zero in
  exists pool',
    apply_nn_output pool comp idx node = Some pool' /\
    same_links pool pool' /\
    pool' !! node = Some (set_v (F32.neg (item_q it)) nd) /\
    (forall c cn, c ∈ cs -> pool !! c = Some cn ->
       pool' !! c
       = Some (set_p (if F32.gtb total F32.zero
                      then F32.div (item_p it (as_nn_index (move cn))) total
                      else item_p it (as_nn_index (move cn))) cn)) /\
    (forall c, c ∉ cs -> c <> node -> pool' !! c = pool !! c).
Proof.
  intros Hit Hnd (nd0 & Hnd0 & Hch) Hself total.
  assert (nd0 = nd) as -> by congruence.
  assert (Hnode : (node < length pool)%nat) by (by eapply lookup_lt_Some).
  unfold apply_nn_output. rewrite Hnd. cbn [mbind option_bind].
  unfold GetQVal. rewrite Hit. cbn [mbind option_bind].
  set (pool0 := <[node := set_v (F32.neg (item_q it)) nd]> pool).
  assert (Hl0 : same_links pool pool0) by (by eapply same_links_insert).
  assert (Hch0 : chain sibling pool0 None (child nd) cs).
  { eapply chain_links; [exact Hl0| |exact Hch]. auto. }
  assert (Hsame0 : forall c, c ∈ cs -> pool0 !! c = pool !! c).
  { intros c Hc. unfold pool0. rewrite list_lookup_insert_ne; [done|].
    by intros ->. }
  destruct (populate_priors_spec comp idx it cs Hit pool0 (child nd)
              (length pool0) F32.zero Hch0)
    as (pool1 & Hpop & Hl1 & Hout1 & Hin1); [by eapply chain_length|].
  rewrite Hpop. cbn [mbind option_bind].
  rewrite (raw_total_ext pool pool0) by done. fold total.
  assert (Hnode1 : pool1 !! node
                   = Some (set_v (F32.neg (item_q it)) nd)).
  { rewrite (Hout1 _ Hself). unfold pool0. by apply list_lookup_insert_eq. }
  destruct (F32.gtb total F32.zero).
  - assert (Hch1 : chain sibling pool1 None (child nd) cs).
    { eapply chain_links; [exact Hl1| |exact Hch0]. auto. }
    destruct (scale_priors_spec total cs pool1 (child nd) (length pool1) Hch1)
      as (pool2 & Hsc & Hl2 & Hout2 & Hin2); [by eapply chain_length|].
    exists pool2. split; [done|].
    split; [eapply same_links_trans; [|exact Hl2];
            by eapply same_links_trans|].
    split; [by rewrite (Hout2 _ Hself)|]. split.
    + intros c cn Hc Hcn.
      rewrite (Hin2 c _ Hc (Hin1 c cn Hc ltac:(by rewrite Hsame0))). done.
    + intros c Hc Hne. rewrite (Hout2 _ Hc), (Hout1 _ Hc).
      unfold pool0. by rewrite list_lookup_insert_ne.
  - exists pool1. split; [done|].
    split; [by eapply same_links_trans|]. split; [done|]. split.
    + intros c cn Hc Hcn. apply Hin1; [done|]. by rewrite Hsame0.
    + intros c Hc Hne. rewrite (Hout1 _ Hc).
      unfold pool0. by rewrite list_lookup_insert_ne.
Qed.

End PriorLemmas.

(* ------------------------------------------------------------------ *)
(** ** Progress reports *)

Section ReportLemmas.
Context {Move Board InputPlanes NNCache : Type}.
Context {collab : Collaborators Move Board InputPlanes NNCache}.
Implicit Types (s : Search Move Board NNCache).

(** A progress report carries [centipawns] of the [q] of the node that
    [best_move_node_] points to, and it is what the info callback gets. *)
Lemma SendUciInfo_score s s' b bnd :
  best_move_node_ s = Some b ->
  node_pool_ s !! b = Some bnd ->
  SendUciInfo s = Some s' ->
  score (uci_info_ s') = centipawns (q bnd) /\
  callbacks s' = callbacks s ++ [InfoCallback (uci_info_ s')].
Proof.
  unfold SendUciInfo. intros Hb Hbnd Hs. rewrite Hb in Hs. simpl in Hs.
  destruct (node_pool_ s !! root_node_ s) as [rootnd|]; simpl in Hs; [|done].
  destruct (GetCapacity (cache_ s) =? 0); [done|].
  rewrite Hbnd in Hs. simpl in Hs.
  destruct (GetBestChild (node_pool_ s) b) as [next|]; simpl in Hs; [|done].
  destruct (principal_variation _ _ next) as [rest|]; simpl in Hs; [|done].
  by injection Hs as <-.
Qed.

End ReportLemmas.

(* ------------------------------------------------------------------ *)
(** ** [q == w / n] as a comparison *)

(** Where [q] is the float [w / n] and is not NaN, the comparison [==] of
    the two holds. *)
Lemma q_is_mean_compares_equal {Move Board : Type}
  (pool : list (Node Move Board)) c nd :
  q_is_mean pool -> pool !! c = Some nd -> 0 < n nd -> q nd <> S754_nan ->
  SFeqb (q nd) (F32.div (w nd) (F32.of_Z (n nd))) = true.
Proof.
  intros Hq Hnd Hpos Hnan. rewrite <- (Hq c nd Hnd Hpos). by apply SFeqb_refl.
Qed.

(* ------------------------------------------------------------------ *)
(** ** Reservations along a path *)

Section ReservationLemmas.
Context {Move Board : Type}.
Implicit Types (pool : list (Node Move Board)).

Lemma length_reserve_path path pool :
  length (reserve_path path pool) = length pool.
Proof.
  induction path as [|c path IH]; simpl; [done|]. by rewrite length_alter.
Qed.

Lemma reserve_path_lookup_out path pool c :
  c ∉ path -> reserve_path path pool !! c = pool !! c.
Proof.
  induction path as [|c0 path IH]; intros Hc; simpl; [done|].
  apply not_elem_of_cons in Hc as [Hne Hc].
  rewrite list_lookup_alter_ne by done. by apply IH.
Qed.

Lemma reserve_path_lookup_in path pool c :
  NoDup path -> c ∈ path ->
  reserve_path path pool !! c = reserve_node <$> pool !! c.
Proof.
  induction path as [|c0 path IH]; intros Hnd Hc; simpl.
  - by apply elem_of_nil in Hc.
  - apply NoDup_cons in Hnd as [Hnotin Hnd].
    apply elem_of_cons in Hc as [->|Hc].
    + rewrite list_lookup_alter_eq. by rewrite reserve_path_lookup_out.
    + rewrite list_lookup_alter_ne by (by intros ->). by apply IH.
Qed.

Lemma reserve_path_links path pool :
  same_links pool (reserve_path path pool).
Proof.
  induction path as [|c path IH]; simpl; [apply same_links_refl|].
  eapply same_links_trans; [exact IH|].
  split; [by rewrite length_alter|].
  intros c0 nd Hnd. destruct (decide (c = c0)) as [->|Hne].
  - exists (reserve_node nd). rewrite list_lookup_alter_eq, Hnd. done.
  - exists nd. by rewrite list_lookup_alter_ne.
Qed.

Lemma reserve_path_cons path pool c nd :
  reserve_path path pool !! c = Some nd ->
  <[c := reserve_node nd]> (reserve_path path pool)
  = reserve_path (c :: path) pool.
Proof.
  intros Hnd. simpl. apply list_eq. intros i.
  destruct (decide (c = i)) as [->|Hne].
  - rewrite list_lookup_alter_eq, Hnd.
    apply list_lookup_insert_eq. by eapply lookup_lt_Some.
  - by rewrite list_lookup_insert_ne, list_lookup_alter_ne.
Qed.

Lemma unreserve_node (nd : Node Move Board) :
  set_n_in_flight (n_in_flight (reserve_node nd) - 1) (reserve_node nd) = nd.
Proof.
  destruct nd. unfold reserve_node, set_n_in_flight. simpl. f_equal. lia.
Qed.

End ReservationLemmas.

(* ------------------------------------------------------------------ *)
(** ** The whole descent of the selector *)

Section DescentLemmas.
Context {Move Board : Type}.
Implicit Types (pool : list (Node Move Board)).

(** The child that a turn of the selector goes on from, in an arena where
    the ancestors of the node are reserved. *)
Lemma pick_child_in_tree pool0 root cpuct node anc nd cs :
  scores_sane pool0 cpuct ->
  path_to_root pool0 root node (node :: anc) ->
  pool0 !! node = Some nd ->
  children pool0 node cs -> cs <> [] ->
  (forall x, x ∈ cs -> x ∉ node :: anc) ->
  let pool1 := reserve_path (node :: anc) pool0 in
  exists best,
    best ∈ cs /\
    pick_child (length pool1) pool1 (puct_factor cpuct (reserve_node nd))
      (child nd) (F32.of_Z (-100)) node = Some best.
Proof.
  intros Hsane Hpath Hnd Hcs Hne Hout pool1.
  destruct (Hsane node nd cs Hnd Hcs Hne) as (Hnan & c0 & Hc0 & Hgt).
  destruct Hcs as (nd0 & Hnd0 & Hch).
  assert (nd0 = nd) as -> by congruence.
  assert (Hch1 : chain sibling pool1 None (child nd) cs).
  { eapply chain_links; [apply reserve_path_links| |exact Hch]. auto. }
  assert (Hkey : forall x, x ∈ cs ->
            child_score pool1 cpuct (reserve_node nd) x
            = child_score pool0 cpuct nd x).
  { intros x Hx. unfold child_score, pool1.
    by rewrite reserve_path_lookup_out by (by apply Hout). }
  rewrite (pick_child_fold _ pool1 cpuct (reserve_node nd) _ cs);
    [|done|by eapply chain_length].
  destruct (fold_best_spec SFltb (child_score pool1 cpuct (reserve_node nd))
              SFltb_irrefl SFltb_trans cs (F32.of_Z (-100)) None)
    as [[Hno _]|(i & best & (Hi & _) & _ & Heq)].
  { intros x Hx. rewrite (Hkey x Hx). apply SFltb_placeable. by apply Hnan. }
  { specialize (Hno c0 Hc0). rewrite (Hkey c0 Hc0) in Hno.
    unfold F32.gtb in Hgt. congruence. }
  exists best. split; [by eapply list_elem_of_lookup_2|].
  by rewrite Heq.
Qed.

Lemma pick_loop_spec pool0 root cpuct :
  tree_below pool0 root -> scores_sane pool0 cpuct ->
  forall fuel node anc,
  path_to_root pool0 root node (node :: anc) ->
  (length pool0 <= fuel + length anc)%nat ->
  exists pool' r,
    PickNodeToExtend_loop fuel (reserve_path anc pool0) root cpuct node
    = Some (pool', r) /\
    match r with
    | None => pool' = pool0
    | Some leaf =>
        exists path nd,
          path_to_root pool0 root leaf (leaf :: path) /\
          pool0 !! leaf = Some nd /\ child nd = None /\
          reserved nd = false /\
          pool' = reserve_path (leaf :: path) pool0
    end.
Proof.
  intros Htree Hsane.
  induction fuel as [|fuel IH]; intros node anc Hpath Hfuel.
  { destruct Hpath as (rootnd & _ & Hch).
    apply chain_length in Hch. simpl in Hch. lia. }
  pose proof Hpath as (rootnd & Hroot & Hch).
  pose proof (chain_NoDup _ _ _ _ _ Hch) as Hnodup.
  inversion Hch as [|c' nd l Hne Hnd Hrest]; subst.
  apply NoDup_cons in Hnodup as [Hnotin Hnodup].
  set (pool := reserve_path anc pool0).
  assert (Hl : same_links pool0 pool) by apply reserve_path_links.
  assert (Hnd' : pool !! node = Some nd).
  { unfold pool. by rewrite reserve_path_lookup_out. }
  simpl. unfold pick_step. rewrite Hnd'. cbn [mbind option_bind].
  fold (reserved nd).
  destruct (reserved nd) eqn:Hres.
  - (* busy: the reservations of the ancestors are taken back *)
    destruct (unwind_spec root (parent rootnd) anc pool (parent nd)
                (length pool))
      as (pool' & Hun & _ & Hout & Hin).
    { destruct (proj2 Hl _ _ Hroot) as (r1 & Hr1 & Hpr & _). by exists r1. }
    { eapply chain_links; [exact Hl| |exact Hrest]. auto. }
    { unfold pool. rewrite length_reserve_path. by eapply chain_length. }
    rewrite Hun. cbn [mbind option_bind].
    exists pool', None. split; [done|].
    apply list_eq. intros c.
    destruct (decide (c ∈ anc)) as [Hc|Hc].
    + destruct (chain_lookup _ _ _ _ _ c Hrest Hc) as [cn Hcn].
      rewrite (Hin c (reserve_node cn) Hc).
      * by rewrite unreserve_node.
      * unfold pool. by rewrite reserve_path_lookup_in, Hcn.
    + rewrite (Hout _ Hc). unfold pool. by rewrite reserve_path_lookup_out.
  - change (set_n_in_flight (n_in_flight nd + 1) nd) with (reserve_node nd).
    unfold pool. rewrite (reserve_path_cons anc pool0 node nd Hnd').
    destruct (child nd) as [k|] eqn:Hk.
    + (* descend *)
      destruct (Htree node anc Hpath) as (cs & Hcs & Hkids).
      assert (Hne0 : cs <> []).
      { intros ->. destruct Hcs as (nd0 & Hnd0 & Hc0).
        assert (nd0 = nd) as -> by congruence.
        rewrite Hk in Hc0. inversion Hc0. }
      assert (Hout : forall x, x ∈ cs -> x ∉ node :: anc).
      { intros x Hx. destruct (Hkids x Hx) as (r2 & _ & Hch2).
        apply chain_NoDup in Hch2. by apply NoDup_cons in Hch2 as [? _]. }
      destruct (pick_child_in_tree pool0 root cpuct node anc nd cs
                  Hsane Hpath Hnd Hcs Hne0 Hout) as (best & Hbest & Hpick).
      change (child (reserve_node nd)) with (child nd).
      rewrite Hk. rewrite Hk in Hpick. rewrite Hpick.
      cbn [mbind option_bind].
      apply (IH best (node :: anc)); [by apply Hkids|simpl; lia].
    + (* found *)
      change (child (reserve_node nd)) with (child nd). rewrite Hk.
      eexists _, (Some node). split; [done|].
      exists anc, nd. by repeat split.
Qed.

End DescentLemmas.

(* ------------------------------------------------------------------ *)
(** ** What [ExtendNode] leaves alone *)

Section ExtendFrame.
Context {Move Board InputPlanes NNCache : Type}.
Context {collab : Collaborators Move Board InputPlanes NNCache}.
Implicit Types (pool : list (Node Move Board)).

Lemma new_children_fresh (moves : list (MoveAndBoard Move Board)) :
  forall base node ncp ply i x,
  new_children node ncp ply base moves !! i = Some x ->
  parent x = Some node /\ child x = None /\ n x = 0 /\ n_in_flight x = 0 /\
  is_terminal x = false.
Proof.
  induction moves as [|mv rest IH]; intros base node ncp ply i x Hi; [done|].
  destruct i as [|i]; simpl in Hi.
  - by injection Hi as <-.
  - by eapply IH.
Qed.

Lemma ExtendNode_frame pool node nd pool' :
  pool !! node = Some nd ->
  ExtendNode pool node = Some pool' ->
  (length pool <= length pool')%nat /\
  (forall c x, c <> node -> pool !! c = Some x -> pool' !! c = Some x) /\
  (exists nd', pool' !! node = Some nd' /\ same_but_expansion nd nd' /\
     ((is_terminal nd' = true /\ child nd' = child nd) \/
      (is_terminal nd' = is_terminal nd /\ child nd' = Some (length pool)))) /\
  (forall c x, (length pool <= c)%nat -> pool' !! c = Some x ->
     parent x = Some node /\ child x = None /\ n x = 0 /\
     n_in_flight x = 0 /\ is_terminal x = false) /\
  (child nd = None ->
   exists cs, children pool' node cs /\
              forall x, x ∈ cs -> (length pool <= x)%nat).
Proof.
  intros Hnd Hext.
  assert (Hnode : (node < length pool)%nat) by (by eapply lookup_lt_Some).
  assert (Hterm : forall x ndx,
            same_but_expansion nd ndx -> child ndx = child nd ->
            pool' = <[node := make_terminal x ndx]> pool ->
            (length pool <= length pool')%nat /\
            (forall c y, c <> node -> pool !! c = Some y ->
               pool' !! c = Some y) /\
            (exists nd', pool' !! node = Some nd' /\
               same_but_expansion nd nd' /\
               ((is_terminal nd' = true /\ child nd' = child nd) \/
                (is_terminal nd' = is_terminal nd /\
                 child nd' = Some (length pool)))) /\
            (forall c y, (length pool <= c)%nat -> pool' !! c = Some y ->
               parent y = Some node /\ child y = None /\ n y = 0 /\
               n_in_flight y = 0 /\ is_terminal y = false) /\
            (child nd = None ->
             exists cs, children pool' node cs /\
                        forall y, y ∈ cs -> (length pool <= y)%nat)).
  { intros x ndx Hsame Hchild ->.
    split; [by rewrite length_insert|].
    split; [intros c y Hne Hy; by rewrite list_lookup_insert_ne|].
    split; [exists (make_terminal x ndx);
            split; [by apply list_lookup_insert_eq|];
            split; [exact Hsame|by left]|].
    split.
    - intros c y Hc Hy. apply lookup_lt_Some in Hy.
      rewrite length_insert in Hy. lia.
    - intros Hleaf. exists []. split; [|by intros y Hy%elem_of_nil].
      exists (make_terminal x ndx).
      split; [by apply list_lookup_insert_eq|].
      simpl child. rewrite Hchild, Hleaf. constructor. }
  unfold ExtendNode in Hext. rewrite Hnd in Hext.
  cbn [mbind option_bind] in Hext.
  destruct (GenerateValidMoves (board nd)) as [|mv0 rest] eqn:Hmoves.
  { destruct (IsUnderCheck (board nd)); injection Hext as <-;
      (eapply Hterm; [| |reflexivity]; [by repeat split|reflexivity]). }
  destruct (negb (HasMatingMaterial (board nd)));
    [injection Hext as <-;
     (eapply Hterm; [| |reflexivity]; [by repeat split|reflexivity])|].
  destruct (100 <=? no_capture_ply nd);
    [injection Hext as <-;
     (eapply Hterm; [| |reflexivity]; [by repeat split|reflexivity])|].
  change (repetitions (set_repetitions (ComputeRepetitions pool node) nd))
    with (ComputeRepetitions pool node) in Hext.
  destruct (2 <=? ComputeRepetitions pool node);
    [injection Hext as <-;
     (eapply Hterm; [| |reflexivity]; [by repeat split|reflexivity])|].
  set (nd1 := set_repetitions (ComputeRepetitions pool node) nd) in *.
  set (pool1 := <[node := nd1]> pool) in *.
  assert (Hnd1 : pool1 !! node = Some nd1) by (by apply list_lookup_insert_eq).
  assert (Hlen1 : length pool1 = length pool) by apply length_insert.
  rewrite (add_children_eq _ _ _ _ _ Hnd1) in Hext by lia.
  simpl link_first in Hext. rewrite bool_decide_eq_true_2 in Hext by done.
  rewrite Hlen1 in Hext. injection Hext as <-.
  set (L := alter (set_child (Some (length pool))) node pool1).
  assert (HL : length L = length pool) by (unfold L; by rewrite length_alter).
  assert (HLn : L !! node = Some (set_child (Some (length pool)) nd1)).
  { unfold L. by rewrite list_lookup_alter_eq, Hnd1. }
  split; [rewrite length_app, HL; lia|].
  split.
  { intros c y Hne Hy. apply lookup_app_l_Some.
    unfold L, pool1. by rewrite list_lookup_alter_ne, list_lookup_insert_ne. }
  split.
  { eexists. split; [by apply lookup_app_l_Some|].
    split; [by repeat split|by right]. }
  split.
  { intros c y Hc Hy. rewrite lookup_app_r in Hy by lia.
    by eapply (new_children_fresh (mv0 :: rest) (length pool)). }
  intros _. exists (seq (length pool) (length (mv0 :: rest))). split.
  - eexists. split; [by apply lookup_app_l_Some|]. simpl child.
    by apply (new_children_chain (mv0 :: rest) L (length pool)).
  - intros y Hy. apply elem_of_seq in Hy. lia.
Qed.

End ExtendFrame.

(* ------------------------------------------------------------------ *)
(** ** What the selector and a batch leave alone *)

Section BatchLemmas.
Context {Move Board InputPlanes NNCache : Type}.
Context {collab : Collaborators Move Board InputPlanes NNCache}.
Implicit Types (pool : list (Node Move Board)).
Implicit Types (s : Search Move Board NNCache).

Lemma same_but_flight_refl (nd : Node Move Board) : same_but_flight nd nd.
Proof. by destruct nd. Qed.

Lemma same_but_flight_trans (nd1 nd2 nd3 : Node Move Board) :
  same_but_flight nd1 nd2 -> same_but_flight nd2 nd3 -> same_but_flight nd1 nd3.
Proof.
  unfold same_but_flight. intros H12 H23. rewrite H23, H12. by destruct nd1.
Qed.

Lemma same_but_flight_set x (nd : Node Move Board) :
  same_but_flight nd (set_n_in_flight x nd).
Proof. by destruct nd. Qed.

Lemma same_but_flight_fields (nd nd' : Node Move Board) :
  same_but_flight nd nd' ->
  parent nd' = parent nd /\ child nd' = child nd /\
  sibling nd' = sibling nd /\ is_terminal nd' = is_terminal nd /\
  n nd' = n nd.
Proof. unfold same_but_flight. intros ->. by destruct nd. Qed.

Lemma flight_only_refl pool : flight_only pool pool.
Proof.
  split; [done|]. intros c nd Hc. exists nd. split; [done|].
  apply same_but_flight_refl.
Qed.

Lemma flight_only_trans pool1 pool2 pool3 :
  flight_only pool1 pool2 -> flight_only pool2 pool3 ->
  flight_only pool1 pool3.
Proof.
  intros [Hl12 H12] [Hl23 H23]. split; [congruence|].
  intros c nd Hc. destruct (H12 c nd Hc) as (nd2 & Hc2 & Hs2).
  destruct (H23 c nd2 Hc2) as (nd3 & Hc3 & Hs3).
  exists nd3. split; [done|]. by eapply same_but_flight_trans.
Qed.

Lemma flight_only_insert pool c nd x :
  pool !! c = Some nd ->
  flight_only pool (<[c := set_n_in_flight x nd]> pool).
Proof.
  intros Hc. split; [apply length_insert|].
  intros c' nd' Hc'. destruct (decide (c' = c)) as [->|Hne].
  - rewrite list_lookup_insert_eq by (by eapply lookup_lt_Some).
    eexists. split; [done|]. rewrite Hc in Hc'. injection Hc' as <-.
    apply same_but_flight_set.
  - rewrite list_lookup_insert_ne by done. exists nd'. split; [done|].
    apply same_but_flight_refl.
Qed.

Lemma unwind_frame root :
  forall fuel pool cur pool',
  unwind fuel pool root cur = Some pool' -> flight_only pool pool'.
Proof.
  induction fuel as [|fuel IH]; intros pool cur pool' Hu; simpl in Hu.
  - destruct (pool !! root) as [rootnd|]; simpl in Hu; [|done].
    case_bool_decide; [|done]. injection Hu as <-. apply flight_only_refl.
  - destruct (pool !! root) as [rootnd|]; simpl in Hu; [|done].
    case_bool_decide; [injection Hu as <-; apply flight_only_refl|].
    destruct cur as [c|]; simpl in Hu; [|done].
    destruct (pool !! c) as [nd|] eqn:Hc; simpl in Hu; [|done].
    eapply flight_only_trans; [|by eapply IH].
    by apply flight_only_insert.
Qed.

(** Whatever the selector answers, it has only written [n_in_flight]; and
    a node that it answers with has no children. *)
Lemma pick_loop_frame root cpuct :
  forall fuel pool node pool' r,
  PickNodeToExtend_loop fuel pool root cpuct node = Some (pool', r) ->
  flight_only pool pool' /\
  forall c, r = Some c ->
    exists nd, pool' !! c = Some nd /\ child nd = None.
Proof.
  induction fuel as [|fuel IH]; intros pool node pool' r Hp; [done|].
  simpl in Hp. unfold pick_step in Hp.
  destruct (pool !! node) as [nd|] eqn:Hnd; simpl in Hp; [|done].
  destruct ((n nd =? 0) && (0 <? n_in_flight nd)).
  - destruct (unwind _ _ _ _) as [pool1|] eqn:Hu; simpl in Hp; [|done].
    injection Hp as <- <-. split; [by eapply unwind_frame|done].
  - change (child (set_n_in_flight (n_in_flight nd + 1) nd))
      with (child nd) in Hp.
    destruct (child nd) as [ch|] eqn:Hch.
    + destruct (pick_child _ _ _ _ _ _) as [c|]; simpl in Hp; [|done].
      destruct (IH _ _ _ _ Hp) as [Hf Hr].
      split; [|done].
      eapply flight_only_trans; [|done]. by apply flight_only_insert.
    + simpl in Hp. injection Hp as <- <-.
      split; [by apply flight_only_insert|].
      intros c [= <-]. eexists.
      split; [apply list_lookup_insert_eq; by eapply lookup_lt_Some|done].
Qed.

(** With the cached entries wanted, [AddNodeToCompute] adds one input. *)
Lemma AddNodeToCompute_one pool cache node comp hit comp' :
  AddNodeToCompute pool cache node comp true = Some (hit, comp') ->
  exists it, comp' = comp ++ [it] /\ is_miss it = negb hit.
Proof.
  unfold AddNodeToCompute, AddInputByHash, AddInput. intros Ha.
  destruct (pool !! node) as [nd|]; simpl in Ha; [|done].
  destruct (Lookup cache (BoardHash pool node)) as [cv|].
  - injection Ha as <- <-. by eexists.
  - destruct (match child nd with Some _ => _ | None => _ end) as [moves|];
      simpl in Ha; [|done].
    injection Ha as <- <-. by eexists.
Qed.

(** A settled node stays as it is while a batch is gathered, but for its
    [n_in_flight]. *)
Lemma gather_keeps_settled :
  forall k i s comp nodes new s' comp' nodes' new',
  gather k i s comp nodes new = Some (s', comp', nodes', new') ->
  forall c nd, node_pool_ s !! c = Some nd -> settled nd ->
    exists nd', node_pool_ s' !! c = Some nd' /\ same_but_flight nd nd'.
Proof.
  induction k as [|k IH]; intros i s comp nodes new s' comp' nodes' new' Hg
    c nd Hc Hset; simpl in Hg.
  { injection Hg as <- _ _ _. exists nd. split; [done|].
    apply same_but_flight_refl. }
  destruct ((0 <? i) && (GetCacheMisses comp =? 0)).
  { injection Hg as <- _ _ _. exists nd. split; [done|].
    apply same_but_flight_refl. }
  destruct (PickNodeToExtend _ _ _ _) as [[pool1 picked]|] eqn:Hpick;
    simpl in Hg; [|done].
  apply pick_loop_frame in Hpick as [[_ Hf] Hleaf].
  destruct (Hf c nd Hc) as (nd1 & Hc1 & Hs1).
  destruct picked as [node|]; [|by injection Hg as <- _ _ _; exists nd1].
  destruct (Hleaf node eq_refl) as (lf & Hlf & Hnochild).
  rewrite Hlf in Hg. simpl in Hg.
  assert (Hrec : forall s1 comp1 nodes1 new1,
            node_pool_ s1 !! c = Some nd1 ->
            gather k (i + 1) s1 comp1 nodes1 new1
            = Some (s', comp', nodes', new') ->
            exists nd', node_pool_ s' !! c = Some nd' /\
                        same_but_flight nd nd').
  { intros s1 comp1 nodes1 new1 Hc1' Hg1.
    pose proof (same_but_flight_fields _ _ Hs1) as (_ & Hch & _ & Ht & _).
    destruct (IH _ _ _ _ _ _ _ _ _ Hg1 c nd1 Hc1') as (nd' & Hc' & Hs').
    { destruct Hset as [Hset|Hset]; [left|right]; congruence. }
    exists nd'. split; [done|]. by eapply same_but_flight_trans. }
  destruct (is_terminal lf) eqn:Hterm;
    [eapply Hrec; [|exact Hg]; exact Hc1|].
  destruct (ExtendNode pool1 node) as [pool2|] eqn:Hext; simpl in Hg; [|done].
  assert (Hne : c <> node).
  { intros ->. rewrite Hlf in Hc1. injection Hc1 as <-.
    pose proof (same_but_flight_fields _ _ Hs1) as (_ & Hch & _ & Ht & _).
    destruct Hset as [Hset|Hset]; congruence. }
  destruct (ExtendNode_frame _ _ _ _ Hlf Hext) as (_ & Hother & _).
  pose proof (Hother c nd1 Hne Hc1) as Hc2.
  destruct (pool2 !! node) as [nd2|]; simpl in Hg; [|done].
  destruct (negb (is_terminal nd2));
    [|eapply Hrec; [|exact Hg]; exact Hc2].
  destruct (AddNodeToCompute _ _ _ _ _) as [[hit comp1]|]; simpl in Hg;
    [|done].
  eapply Hrec; [|exact Hg]. exact Hc2.
Qed.

(** One batch: the nodes gathered are appended to [nodes_to_process] and
    counted in [new_nodes]; the computation gets one input for each of them
    that is not terminal. *)
Lemma gather_spec :
  forall k i s comp nodes new s' comp' nodes' new',
  gather k i s comp nodes new = Some (s', comp', nodes', new') ->
  exists added items,
    nodes' = nodes ++ added /\
    comp' = comp ++ items /\
    new' = new + Z.of_nat (length added) /\
    (length added <= k)%nat /\
    length items = length (filter (fun c => awaits_network (node_pool_ s') c
                                            = true) added).
Proof.
  induction k as [|k IH]; intros i s comp nodes new s' comp' nodes' new' Hg;
    simpl in Hg.
  { injection Hg as <- <- <- <-. exists [], [].
    rewrite !app_nil_r. simpl. repeat split; lia. }
  destruct ((0 <? i) && (GetCacheMisses comp =? 0)).
  { injection Hg as <- <- <- <-. exists [], [].
    rewrite !app_nil_r. simpl. repeat split; lia. }
  destruct (PickNodeToExtend _ _ _ _) as [[pool1 picked]|] eqn:Hpick;
    simpl in Hg; [|done].
  apply pick_loop_frame in Hpick as [_ Hleaf].
  destruct picked as [node|].
  2:{ injection Hg as <- <- <- <-. exists [], [].
      rewrite !app_nil_r. simpl. repeat split; lia. }
  destruct (Hleaf node eq_refl) as (lf & Hlf & Hnochild).
  rewrite Hlf in Hg. simpl in Hg.
  (* a node that is terminal when the rest of the batch is gathered *)
  assert (Hskip : forall s1 ndt,
            node_pool_ s1 !! node = Some ndt -> is_terminal ndt = true ->
            gather k (i + 1) s1 comp (nodes ++ [node]) (new + 1)
            = Some (s', comp', nodes', new') ->
            exists added items,
              nodes' = nodes ++ added /\ comp' = comp ++ items /\
              new' = new + Z.of_nat (length added) /\
              (length added <= S k)%nat /\
              length items
              = length (filter (fun c => awaits_network (node_pool_ s') c
                                         = true) added)).
  { intros s1 ndt Hndt Ht Hg1.
    destruct (gather_keeps_settled _ _ _ _ _ _ _ _ _ _ Hg1 node ndt Hndt)
      as (ndt' & Hndt' & Hs'); [by left|].
    apply same_but_flight_fields in Hs' as (_ & _ & _ & Ht' & _).
    destruct (IH _ _ _ _ _ _ _ _ _ Hg1)
      as (added & items & -> & -> & -> & Hk & Hlen).
    exists (node :: added), items. rewrite <- app_assoc.
    split; [done|]. split; [done|].
    split; [simpl length; lia|]. split; [simpl; lia|].
    rewrite filter_cons_False; [done|].
    unfold awaits_network. rewrite Hndt', Ht', Ht. simpl. done. }
  destruct (is_terminal lf) eqn:Hterm.
  { eapply (Hskip _ lf); [|done|done]. done. }
  destruct (ExtendNode pool1 node) as [pool2|] eqn:Hext; simpl in Hg; [|done].
  destruct (ExtendNode_frame _ _ _ _ Hlf Hext)
    as (_ & _ & (nd2 & Hnd2 & _ & Hstatus) & _).
  rewrite Hnd2 in Hg. simpl in Hg.
  destruct (is_terminal nd2) eqn:Hterm2; simpl in Hg.
  { eapply (Hskip _ nd2); [|done|done]. done. }
  destruct (AddNodeToCompute _ _ _ _ _) as [[hit comp1]|] eqn:Hadd;
    simpl in Hg; [|done].
  apply AddNodeToCompute_one in Hadd as (it & -> & _).
  destruct (gather_keeps_settled _ _ _ _ _ _ _ _ _ _ Hg node nd2 Hnd2)
    as (nd2' & Hnd2' & Hs').
  { right. destruct Hstatus as [[? _]|[_ ->]]; congruence. }
  apply same_but_flight_fields in Hs' as (_ & _ & _ & Ht' & _).
  destruct (IH _ _ _ _ _ _ _ _ _ Hg)
    as (added & items & -> & -> & -> & Hk & Hlen).
  exists (node :: added), (it :: items). rewrite <- !app_assoc.
  split; [done|]. split; [done|].
  split; [simpl length; lia|]. split; [simpl; lia|].
  rewrite filter_cons_True; [simpl; by rewrite Hlen|].
  unfold awaits_network. by rewrite Hnd2', Ht', Hterm2.
Qed.

(** A node that already has children is not gathered, and a node that
    awaits the output of the network is gathered once. *)
Lemma gather_distinct :
  forall k i s comp nodes new s' comp' nodes' new',
  gather k i s comp nodes new = Some (s', comp', nodes', new') ->
  exists added,
    nodes' = nodes ++ added /\
    (forall c nd, node_pool_ s !! c = Some nd -> child nd <> None ->
       c ∉ added) /\
    NoDup (filter (fun c => awaits_network (node_pool_ s') c = true) added).
Proof.
  induction k as [|k IH]; intros i s comp nodes new s' comp' nodes' new' Hg;
    simpl in Hg.
  { injection Hg as <- <- <- <-. exists []. rewrite app_nil_r.
    split; [done|]. split; [intros; apply not_elem_of_nil|constructor]. }
  destruct ((0 <? i) && (GetCacheMisses comp =? 0)).
  { injection Hg as <- <- <- <-. exists []. rewrite app_nil_r.
    split; [done|]. split; [intros; apply not_elem_of_nil|constructor]. }
  destruct (PickNodeToExtend _ _ _ _) as [[pool1 picked]|] eqn:Hpick;
    simpl in Hg; [|done].
  apply pick_loop_frame in Hpick as [[_ Hf] Hleaf].
  destruct picked as [node|].
  2:{ injection Hg as <- <- <- <-. exists []. rewrite app_nil_r.
      split; [done|]. split; [intros; apply not_elem_of_nil|constructor]. }
  destruct (Hleaf node eq_refl) as (lf & Hlf & Hnochild).
  rewrite Hlf in Hg. simpl in Hg.
  (* the rest of the batch, gathered from an arena that agrees with
     [pool1] at every node but [node] *)
  assert (Hrest : forall s1 comp1,
            (forall c x, c <> node -> pool1 !! c = Some x ->
               node_pool_ s1 !! c = Some x) ->
            (awaits_network (node_pool_ s') node = true ->
             exists x, node_pool_ s1 !! node = Some x /\ child x <> None) ->
            gather k (i + 1) s1 comp1 (nodes ++ [node]) (new + 1)
            = Some (s', comp', nodes', new') ->
            exists added,
              nodes' = nodes ++ added /\
              (forall c nd, node_pool_ s !! c = Some nd -> child nd <> None ->
                 c ∉ added) /\
              NoDup (filter (fun c => awaits_network (node_pool_ s') c = true)
                       added)).
  { intros s1 comp1 Hother Hopen Hg1.
    destruct (IH _ _ _ _ _ _ _ _ _ Hg1) as (added & -> & Hskip & Hnodup).
    exists (node :: added). rewrite <- app_assoc. split; [done|]. split.
    - intros c nd Hc Hch. destruct (Hf c nd Hc) as (nd1 & Hc1 & Hs1).
      apply same_but_flight_fields in Hs1 as (_ & Hch1 & _).
      assert (Hne : c <> node).
      { intros ->. rewrite Hlf in Hc1. injection Hc1 as <-. congruence. }
      apply not_elem_of_cons. split; [done|].
      apply (Hskip c nd1); [by apply Hother|congruence].
    - destruct (awaits_network (node_pool_ s') node) eqn:Haw.
      + rewrite filter_cons_True by done. apply NoDup_cons. split; [|done].
        intros Hin. apply list_elem_of_filter in Hin as [_ Hin].
        destruct (Hopen eq_refl) as (x & Hx & Hchx).
        by apply (Hskip node x Hx Hchx).
      + rewrite filter_cons_False; [done|]. by rewrite Haw. }
  destruct (is_terminal lf) eqn:Hterm.
  { eapply Hrest; [| |exact Hg]; [done|].
    intros Haw. exfalso.
    destruct (gather_keeps_settled _ _ _ _ _ _ _ _ _ _ Hg node lf Hlf)
      as (lf' & Hlf' & Hs'); [by left|].
    apply same_but_flight_fields in Hs' as (_ & _ & _ & Ht' & _).
    unfold awaits_network in Haw. rewrite Hlf', Ht', Hterm in Haw. done. }
  destruct (ExtendNode pool1 node) as [pool2|] eqn:Hext; simpl in Hg; [|done].
  destruct (ExtendNode_frame _ _ _ _ Hlf Hext)
    as (_ & Hother & (nd2 & Hnd2 & _ & Hstatus) & _).
  rewrite Hnd2 in Hg. simpl in Hg.
  assert (Hopen : forall s1 comp1,
            node_pool_ s1 = pool2 ->
            gather k (i + 1) s1 comp1 (nodes ++ [node]) (new + 1)
            = Some (s', comp', nodes', new') ->
            awaits_network (node_pool_ s') node = true ->
            exists x, node_pool_ s1 !! node = Some x /\ child x <> None).
  { intros s1 comp1 Hp1 Hg1 Haw. rewrite Hp1. exists nd2. split; [done|].
    destruct Hstatus as [[Ht2 _]|[_ ->]]; [|done]. exfalso.
    destruct (gather_keeps_settled _ _ _ _ _ _ _ _ _ _ Hg1 node nd2)
      as (nd2' & Hnd2' & Hs'); [by rewrite Hp1|by left|].
    apply same_but_flight_fields in Hs' as (_ & _ & _ & Ht' & _).
    unfold awaits_network in Haw. rewrite Hnd2', Ht', Ht2 in Haw. done. }
  destruct (negb (is_terminal nd2)).
  - destruct (AddNodeToCompute _ _ _ _ _) as [[hit comp1]|] eqn:Hadd;
      simpl in Hg; [|done].
    eapply Hrest; [| |exact Hg]; [done|]. by eapply Hopen.
  - eapply Hrest; [| |exact Hg]; [done|]. by eapply Hopen.
Qed.

End BatchLemmas.

(* ------------------------------------------------------------------ *)
(** ** What the prefetcher adds *)

Section PrefetchLemmas.
Context {Move Board InputPlanes NNCache : Type}.
Context {collab : Collaborators Move Board InputPlanes NNCache}.
Implicit Types (pool : list (Node Move Board)).

Lemma child_moves_children pool start cs :
  chain sibling pool None start cs ->
  forall fuel, (length cs <= fuel)%nat ->
  child_moves fuel pool start
  = Some (omap (fun c => (fun nd => as_nn_index (move nd)) <$> pool !! c) cs).
Proof.
  induction 1 as [|c nd l Hne Hc Hl IH]; intros fuel Hfuel.
  - by destruct fuel.
  - destruct fuel as [|fuel]; simpl in Hfuel; [lia|].
    simpl. rewrite Hc. simpl. rewrite IH by lia. done.
Qed.

(** Without the cached entries wanted, [AddNodeToCompute] adds nothing on a
    hit and one miss otherwise. *)
Lemma AddNodeToCompute_miss_only pool cache node comp hit comp' :
  AddNodeToCompute pool cache node comp false = Some (hit, comp') ->
  hit = ContainsKey cache (BoardHash pool node) /\
  if hit then comp' = comp
  else exists it, is_miss it = true /\ comp' = comp ++ [it].
Proof.
  unfold AddNodeToCompute, AddInput. intros Ha.
  destruct (pool !! node) as [nd|]; simpl in Ha; [|done].
  destruct (ContainsKey cache (BoardHash pool node)).
  - by injection Ha as <- <-.
  - destruct (match child nd with Some _ => _ | None => _ end) as [moves|];
      simpl in Ha; [|done].
    injection Ha as <- <-. split; [done|].
    eexists. split; [|reflexivity]. reflexivity.
Qed.

Lemma prefetch_adds_nothing aggressive
  (comp : list (@BatchItem InputPlanes)) total :
  prefetch_adds aggressive comp total (total, comp).
Proof.
  exists []. simpl. rewrite app_nil_r.
  split; [done|]. split; [constructor|]. split; [lia|]. intros _. lia.
Qed.

Lemma prefetch_adds_trans aggressive
  (comp : list (@BatchItem InputPlanes)) total spent comp1 r :
  prefetch_adds aggressive comp 0 (spent, comp1) ->
  prefetch_adds aggressive comp1 (total + spent) r ->
  prefetch_adds aggressive comp total r.
Proof.
  intros (a1 & H1 & Hm1 & Hle1 & Hag1) (a2 & H2 & Hm2 & Hle2 & Hag2).
  simpl in *. subst comp1. exists (a1 ++ a2).
  split; [by rewrite H2, app_assoc|].
  split; [by apply Forall_app|].
  rewrite length_app. split; [lia|].
  intros Hag. specialize (Hag1 Hag). specialize (Hag2 Hag). lia.
Qed.

Lemma prefetch_children_adds aggressive
  (rec : nat -> Z -> list (@BatchItem InputPlanes)
         -> option (Z * list (@BatchItem InputPlanes)))
  pool factor :
  (forall c b comp r, rec c b comp = Some r ->
     prefetch_adds aggressive comp 0 r) ->
  forall k i scores first_unsorted_index budget budget_to_spend total comp r,
  prefetch_children rec pool factor k i scores first_unsorted_index
    budget budget_to_spend total comp = Some r ->
  prefetch_adds aggressive comp total r.
Proof.
  intros Hrec.
  induction k as [|k IH];
    intros i scores fui budget bts total comp r Hp; simpl in Hp.
  { injection Hp as <-. apply prefetch_adds_nothing. }
  destruct (budget <=? 0).
  { injection Hp as <-. apply prefetch_adds_nothing. }
  destruct (negb (fui =? length scores)%nat && (fui <=? i + 2)%nat);
    (destruct (_ !! i) as [[sc c]|]; simpl in Hp; [|done];
     destruct (pool !! c) as [nd|]; simpl in Hp; [|done];
     match type of Hp with
     | (?b ≫= _) = _ => destruct b as [bts'|]; simpl in Hp; [|done]
     end;
     destruct (rec c bts' comp) as [[spent comp1]|] eqn:Hr; simpl in Hp;
       [|done];
     apply IH in Hp; apply Hrec in Hr;
     by eapply prefetch_adds_trans).
Qed.

Lemma PrefetchIntoCache_rec_adds pool cache aggressive cpuct :
  forall fuel node budget comp r,
  PrefetchIntoCache_rec fuel pool cache aggressive cpuct node budget comp
  = Some r ->
  prefetch_adds aggressive comp 0 r.
Proof.
  induction fuel as [|fuel IH]; intros node budget comp r Hp; [done|].
  simpl in Hp.
  destruct (budget <=? 0).
  { injection Hp as <-. apply prefetch_adds_nothing. }
  destruct (pool !! node) as [nd|]; simpl in Hp; [|done].
  destruct (n nd + n_in_flight nd =? 0).
  - destruct (AddNodeToCompute _ _ _ _ _) as [[hit comp1]|] eqn:Hadd;
      simpl in Hp; [|done].
    apply AddNodeToCompute_miss_only in Hadd as [_ Hadd].
    destruct hit.
    + subst comp1. injection Hp as <-. exists []. simpl. rewrite app_nil_r.
      split; [done|]. split; [constructor|].
      split; [by destruct aggressive|]. by intros ->.
    + destruct Hadd as (it & Hmiss & ->). injection Hp as <-.
      exists [it]. simpl. split; [done|].
      split; [by repeat constructor|]. split; [lia|]. intros _. lia.
  - destruct (child nd) as [ch|].
    + destruct (child_scores _ _ _ _) as [scores|]; simpl in Hp; [|done].
      eapply prefetch_children_adds; [|exact Hp]. apply IH.
    + injection Hp as <-. apply prefetch_adds_nothing.
Qed.

Lemma GetCacheMisses_app (comp added : list (@BatchItem InputPlanes)) :
  Forall (fun it => is_miss it = true) added ->
  GetCacheMisses (comp ++ added)
  = GetCacheMisses comp + Z.of_nat (length added).
Proof.
  intros Hall. unfold GetCacheMisses.
  rewrite filter_app, length_app, Nat2Z.inj_add. f_equal. f_equal. f_equal.
  induction Hall as [|it l Hit Hl IH]; [done|].
  by rewrite filter_cons_True, IH.
Qed.

(** With a budget of at most 1 the prefetcher stays within it. *)
Lemma prefetch_children_small
  (rec : nat -> Z -> list (@BatchItem InputPlanes)
         -> option (Z * list (@BatchItem InputPlanes)))
  pool factor :
  (forall c b comp r, b <= 1 -> rec c b comp = Some r ->
     0 <= r.1 <= Z.max 0 b) ->
  forall k i scores first_unsorted_index budget budget_to_spend total comp r,
  budget <= 1 -> budget_to_spend <= 1 ->
  prefetch_children rec pool factor k i scores first_unsorted_index
    budget budget_to_spend total comp = Some r ->
  total <= r.1 <= total + Z.max 0 budget.
Proof.
  intros Hrec.
  induction k as [|k IH];
    intros i scores fui budget bts total comp r Hbudget Hbts Hp; simpl in Hp.
  { injection Hp as <-. simpl. lia. }
  destruct (Z.leb_spec budget 0) as [Hle|Hgt].
  { injection Hp as <-. simpl. lia. }
  destruct (negb (fui =? length scores)%nat && (fui <=? i + 2)%nat);
    (destruct (_ !! i) as [[sc c]|]; simpl in Hp; [|done];
     destruct (pool !! c) as [nd|]; simpl in Hp; [|done];
     match type of Hp with
     | (?e ≫= _) = _ =>
         assert (Hnew : forall b, e = Some b -> b <= 1);
         [ intros b Hb0;
           destruct (negb _); [|injection Hb0 as <-; lia];
           destruct (_ !! S i) as [[next ?]|]; simpl in Hb0; [|done];
           destruct (F32.gtb _ _); [|injection Hb0 as <-; lia];
           destruct (visits_to_overtake _ _ _ _) as [t|]; simpl in Hb0;
             [|done];
           injection Hb0 as <-; unfold std_min;
           destruct (Z.ltb_spec t budget); lia
         | destruct e as [bts'|]; simpl in Hp; [|done];
           specialize (Hnew bts' eq_refl) ]
     end;
     destruct (rec c bts' comp) as [[spent comp1]|] eqn:Hr; simpl in Hp;
       [|done];
     apply Hrec in Hr; [|done]; simpl in Hr;
     apply IH in Hp; [|lia|done]; lia).
Qed.

Lemma PrefetchIntoCache_rec_small pool cache aggressive cpuct :
  forall fuel node budget comp r,
  budget <= 1 ->
  PrefetchIntoCache_rec fuel pool cache aggressive cpuct node budget comp
  = Some r ->
  0 <= r.1 <= Z.max 0 budget.
Proof.
  induction fuel as [|fuel IH]; intros node budget comp r Hbudget Hp; [done|].
  simpl in Hp.
  destruct (Z.leb_spec budget 0) as [Hle|Hgt].
  { injection Hp as <-. simpl. lia. }
  destruct (pool !! node) as [nd|]; simpl in Hp; [|done].
  destruct (n nd + n_in_flight nd =? 0).
  - destruct (AddNodeToCompute _ _ _ _ _) as [[hit comp1]|];
      simpl in Hp; [|done].
    destruct hit, aggressive; injection Hp as <-; simpl; lia.
  - destruct (child nd) as [ch|].
    + destruct (child_scores _ _ _ _) as [scores|]; simpl in Hp; [|done].
      eapply prefetch_children_small in Hp; [lia| |done|done].
      intros c b comp0 r0. apply IH.
    + injection Hp as <-. simpl. lia.
Qed.

End PrefetchLemmas.

(* ------------------------------------------------------------------ *)
(** ** Reports and the phases of a turn *)

Section TurnLemmas.
Context {Move Board InputPlanes NNCache : Type}.
Context {collab : Collaborators Move Board InputPlanes NNCache}.
Implicit Types (pool : list (Node Move Board)).
Implicit Types (s : Search Move Board NNCache).

(** The report that [SendUciInfo] sends when there is a best move. *)
Lemma SendUciInfo_report s s' b :
  best_move_node_ s = Some b ->
  SendUciInfo s = Some s' ->
  exists rootnd info,
    node_pool_ s !! root_node_ s = Some rootnd /\
    depth info = full_depth rootnd /\
    seldepth info = max_depth rootnd /\
    s' = set_callbacks (callbacks s ++ [InfoCallback info])
           (set_uci_info_ info
              (set_clock_reads (S (clock_reads s))
                 (set_last_outputted_best_move_node_ (Some b) s))).
Proof.
  unfold SendUciInfo. intros -> Hs. simpl in Hs.
  destruct (node_pool_ s !! root_node_ s) as [rootnd|]; simpl in Hs; [|done].
  destruct (GetCapacity (cache_ s) =? 0); [done|].
  destruct (node_pool_ s !! b) as [bnd|]; simpl in Hs; [|done].
  destruct (GetBestChild (node_pool_ s) b) as [next|]; simpl in Hs; [|done].
  destruct (principal_variation _ _ next) as [rest|]; simpl in Hs; [|done].
  injection Hs as <-. eexists _, _. split; [done|].
  refine (conj _ (conj _ eq_refl)); reflexivity.
Qed.

(** [SendUciInfo] sends at most one report and keeps the arena, the best
    move and the counters. *)
Lemma SendUciInfo_frame s s' :
  SendUciInfo s = Some s' ->
  node_pool_ s' = node_pool_ s /\ root_node_ s' = root_node_ s /\
  best_move_node_ s' = best_move_node_ s /\
  total_playouts_ s' = total_playouts_ s /\
  exists reports,
    callbacks s' = callbacks s ++ reports /\
    (length reports <= 1)%nat /\
    forallb is_info_callback reports = true /\
    (best_move_node_ s = None -> reports = []).
Proof.
  intros Hs. destruct (best_move_node_ s) as [b|] eqn:Hb.
  - destruct (SendUciInfo_report _ _ _ Hb Hs) as (rootnd & info & _ & _ & _ & ->).
    simpl. do 4 (split; [done|]). exists [InfoCallback info].
    split; [done|]. split; [simpl; lia|]. done.
  - unfold SendUciInfo in Hs. rewrite Hb in Hs. injection Hs as <-.
    do 4 (split; [done|]). exists [].
    split; [by rewrite app_nil_r|]. split; [simpl; lia|]. done.
Qed.

Lemma MaybeOutputInfo_cases s s' :
  MaybeOutputInfo s = Some s' ->
  s' = s \/ (SendUciInfo s = Some s' /\ is_Some (best_move_node_ s)).
Proof.
  unfold MaybeOutputInfo. intros Hs.
  destruct (best_move_node_ s) as [b|]; [|left; by injection Hs].
  case_bool_decide; [by right|].
  destruct (node_pool_ s !! root_node_ s) as [rootnd|]; simpl in Hs; [|done].
  match type of Hs with
  | context [if ?c then _ else _] => destruct c
  end; [by right|left; by injection Hs].
Qed.

Lemma MaybeOutputInfo_frame s s' :
  MaybeOutputInfo s = Some s' ->
  node_pool_ s' = node_pool_ s /\ root_node_ s' = root_node_ s /\
  best_move_node_ s' = best_move_node_ s /\
  total_playouts_ s' = total_playouts_ s /\
  exists reports,
    callbacks s' = callbacks s ++ reports /\
    (length reports <= 1)%nat /\
    forallb is_info_callback reports = true /\
    (best_move_node_ s = None -> reports = []).
Proof.
  intros Hs. apply MaybeOutputInfo_cases in Hs as [->|[Hs _]].
  - do 4 (split; [done|]). exists [].
    split; [by rewrite app_nil_r|]. split; [simpl; lia|]. done.
  - by apply SendUciInfo_frame.
Qed.

Lemma check_limits_fields s :
  node_pool_ (check_limits s) = node_pool_ s /\
  root_node_ (check_limits s) = root_node_ s /\
  best_move_node_ (check_limits s) = best_move_node_ s /\
  total_playouts_ (check_limits s) = total_playouts_ s.
Proof.
  unfold check_limits, time_condition, GetTimeSinceStart.
  destruct (playouts_condition s); simpl;
    (match goal with
     | |- context [visits_condition ?x] => destruct (visits_condition x)
     end; simpl);
    (match goal with
     | |- context [0 <=? ?x] => destruct (0 <=? x)
     end; simpl);
    try (match goal with
         | |- context [if ?c then _ else _] => destruct c
         end; simpl);
    done.
Qed.

(** [MaybeTriggerStop] keeps the arena, the root and the count of
    playouts. *)
Lemma MaybeTriggerStop_fields s s' :
  MaybeTriggerStop s = Some s' ->
  node_pool_ s' = node_pool_ s /\ root_node_ s' = root_node_ s /\
  total_playouts_ s' = total_playouts_ s.
Proof.
  unfold MaybeTriggerStop. intros Hs.
  destruct (check_limits_fields s) as (Hpool & Hroot & Hbest & Htp).
  destruct (stop_ (check_limits s) && negb (responded_bestmove_ (check_limits s))).
  - destruct (SendUciInfo _) as [s1|] eqn:Hs1; simpl in Hs; [|done].
    destruct (GetBestMoveInternal s1) as [bm|]; simpl in Hs; [|done].
    injection Hs as <-. simpl.
    apply SendUciInfo_frame in Hs1 as (H1 & H2 & _ & H4 & _). simpl in *.
    repeat split; congruence.
  - by injection Hs as <-.
Qed.

(** The phases of one turn of the worker. *)
Lemma Worker_iteration_phases s s' :
  Worker_iteration s = Some s' ->
  exists s1 comp nodes new_nodes comp2 pool3 pool4 best s4 s5,
    gather (Z.to_nat (kMiniBatchSize s)) 0 s [] [] 0
    = Some (s1, comp, nodes, new_nodes) /\
    (comp2 = comp \/
     (0 < GetCacheMisses comp /\
      exists spent, PrefetchIntoCache s1 (root_node_ s1)
                      (kMiniPrefetchBatch s1 - GetCacheMisses comp) comp
                    = Some (spent, comp2))) /\
    (if negb (GetBatchSize comp2 =? 0)
     then apply_nn_outputs (node_pool_ s1) comp2 0 nodes = Some pool3
     else pool3 = node_pool_ s1) /\
    backup_all pool3 (root_node_ s) (best_move_node_ s) nodes
    = Some (pool4, best) /\
    node_pool_ s4 = pool4 /\ best_move_node_ s4 = best /\
    root_node_ s4 = root_node_ s /\
    total_playouts_ s4 = total_playouts_ s + new_nodes /\
    callbacks s4 = callbacks s /\
    MaybeOutputInfo s4 = Some s5 /\
    MaybeTriggerStop s5 = Some s'.
Proof.
  unfold Worker_iteration. intros Hs.
  destruct (gather _ _ _ _ _ _) as [[[[s1 comp] nodes] new_nodes]|] eqn:Hg;
    simpl in Hs; [|done].
  pose proof (gather_frame _ _ _ _ _ _ _ _ _ _ Hg) as Hs1.
  assert (Hroot1 : root_node_ s1 = root_node_ s) by (by rewrite Hs1).
  assert (Hbest1 : best_move_node_ s1 = best_move_node_ s) by (by rewrite Hs1).
  assert (Htp1 : total_playouts_ s1 = total_playouts_ s) by (by rewrite Hs1).
  assert (Hcb1 : callbacks s1 = callbacks s) by (by rewrite Hs1).
  clear Hs1.
  assert (Hpre : exists comp2,
    (comp2 = comp \/
     (0 < GetCacheMisses comp /\
      exists spent, PrefetchIntoCache s1 (root_node_ s1)
                      (kMiniPrefetchBatch s1 - GetCacheMisses comp) comp
                    = Some (spent, comp2))) /\
    (if (0 <? GetCacheMisses comp)
        && (GetCacheMisses comp <? kMiniPrefetchBatch s1)
     then '(_, comp1) ← PrefetchIntoCache s1 (root_node_ s1)
                          (kMiniPrefetchBatch s1 - GetCacheMisses comp) comp;
          Some comp1
     else Some comp) = Some comp2).
  { destruct ((0 <? GetCacheMisses comp)
              && (GetCacheMisses comp <? kMiniPrefetchBatch s1)) eqn:Hc.
    - destruct (PrefetchIntoCache _ _ _ _) as [[spent comp1]|] eqn:Hp;
        simpl in Hs; [|done].
      exists comp1. split; [|done]. right.
      apply andb_true_iff in Hc as [Hc _]. split; [lia|]. by exists spent.
    - exists comp. by split; [left|]. }
  destruct Hpre as (comp2 & Hcomp2 & Heq). rewrite Heq in Hs. clear Heq.
  cbn [mbind option_bind] in Hs.
  match type of Hs with
  | (?e ≫= _) = _ =>
      assert (Hnn : exists s2 pool3,
        (if negb (GetBatchSize comp2 =? 0)
         then apply_nn_outputs (node_pool_ s1) comp2 0 nodes = Some pool3
         else pool3 = node_pool_ s1) /\
        node_pool_ s2 = pool3 /\ root_node_ s2 = root_node_ s /\
        best_move_node_ s2 = best_move_node_ s /\
        total_playouts_ s2 = total_playouts_ s /\
        callbacks s2 = callbacks s /\
        e = Some s2)
  end.
  { destruct (negb (GetBatchSize comp2 =? 0)).
    - simpl in Hs. simpl.
      destruct (apply_nn_outputs _ _ _ _) as [pool3|]; simpl in Hs; [|done].
      exists (set_node_pool_ pool3
                (set_cache_ (ComputeBlocking (cache_ s1) comp2) s1)), pool3.
      by repeat split.
    - by exists s1, (node_pool_ s1). }
  destruct Hnn as (s2 & pool3 & Hpool3 & Hp2 & Hroot2 & Hbest2 & Htp2 & Hcb2
                   & Heq).
  rewrite Heq in Hs. clear Heq. cbn [mbind option_bind] in Hs.
  change (node_pool_ (set_total_playouts_ (total_playouts_ s2 + new_nodes) s2))
    with (node_pool_ s2) in Hs.
  change (root_node_ (set_total_playouts_ (total_playouts_ s2 + new_nodes) s2))
    with (root_node_ s2) in Hs.
  change (best_move_node_
            (set_total_playouts_ (total_playouts_ s2 + new_nodes) s2))
    with (best_move_node_ s2) in Hs.
  rewrite Hp2, Hroot2, Hbest2 in Hs.
  destruct (backup_all _ _ _ _) as [[pool4 best]|] eqn:Hb; simpl in Hs;
    [|discriminate Hs].
  destruct (MaybeOutputInfo _) as [s5|] eqn:Hm; simpl in Hs;
    [|discriminate Hs].
  eexists s1, comp, nodes, new_nodes, comp2, pool3, pool4, best, _, s5.
  split; [reflexivity|]. split; [exact Hcomp2|]. split; [exact Hpool3|].
  split; [exact Hb|].
  split; [|split; [|split; [|split; [|split; [|split; [exact Hm|exact Hs]]]]]];
    simpl; congruence.
Qed.

(** A set stop flag stays set, and the limits stay as they are. *)
Lemma step_keeps_stop ev s s' :
  step ev s = Some s' ->
  limits_ s' = limits_ s /\ (stop_ s = true -> stop_ s' = true).
Proof.
  destruct ev; simpl; intros Hs.
  - split; [|intros Hst; by eapply Worker_iteration_keeps_stop].
    apply Worker_iteration_quiet in Hs as (s0 & (Hl & _) & Hs).
    apply MaybeTriggerStop_spec in Hs as (Hl' & _). congruence.
  - apply MaybeTriggerStop_spec in Hs as (Hl & Hst & _).
    split; [done|]. intros Hs. rewrite Hst.
    destruct (check_limits_frame s) as (_ & _ & _ & ->). by rewrite Hs.
  - by injection Hs as <-.
  - by injection Hs as <-.
  - by injection Hs as <-.
Qed.


End TurnLemmas.

(* ------------------------------------------------------------------ *)
(** ** A playout from the selector to the backup *)

Section PlayoutLemmas.
Context {Move Board InputPlanes NNCache : Type}.
Context {collab : Collaborators Move Board InputPlanes NNCache}.
Implicit Types (pool : list (Node Move Board)).
Implicit Types (s : Search Move Board NNCache).

Lemma same_but_eval_refl (nd : Node Move Board) : same_but_eval nd nd.
Proof. by destruct nd. Qed.

Lemma same_but_eval_trans (nd1 nd2 nd3 : Node Move Board) :
  same_but_eval nd1 nd2 -> same_but_eval nd2 nd3 -> same_but_eval nd1 nd3.
Proof.
  unfold same_but_eval. intros H12 H23. rewrite H23, H12. by destruct nd1.
Qed.

Lemma same_but_eval_fields (nd nd' : Node Move Board) :
  same_but_eval nd nd' ->
  parent nd' = parent nd /\ child nd' = child nd /\
  sibling nd' = sibling nd /\ is_terminal nd' = is_terminal nd /\
  n nd' = n nd /\ n_in_flight nd' = n_in_flight nd.
Proof. unfold same_but_eval. intros ->. by destruct nd. Qed.

Lemma eval_only_refl pool : eval_only pool pool.
Proof.
  split; [done|]. intros c nd Hc. exists nd. split; [done|].
  apply same_but_eval_refl.
Qed.

Lemma eval_only_trans pool1 pool2 pool3 :
  eval_only pool1 pool2 -> eval_only pool2 pool3 -> eval_only pool1 pool3.
Proof.
  intros [Hl12 H12] [Hl23 H23]. split; [congruence|].
  intros c nd Hc. destruct (H12 c nd Hc) as (nd2 & Hc2 & Hs2).
  destruct (H23 c nd2 Hc2) as (nd3 & Hc3 & Hs3).
  exists nd3. split; [done|]. by eapply same_but_eval_trans.
Qed.

Lemma eval_only_insert pool c nd nd' :
  pool !! c = Some nd -> same_but_eval nd nd' ->
  eval_only pool (<[c := nd']> pool).
Proof.
  intros Hc Hs. split; [apply length_insert|].
  intros c' x Hc'. destruct (decide (c' = c)) as [->|Hne].
  - rewrite list_lookup_insert_eq by (by eapply lookup_lt_Some).
    eexists. split; [done|]. rewrite Hc in Hc'. by injection Hc' as <-.
  - rewrite list_lookup_insert_ne by done. exists x. split; [done|].
    apply same_but_eval_refl.
Qed.

Lemma populate_priors_frame comp idx :
  forall fuel pool iter total pool' t,
  populate_priors fuel pool comp idx iter total = Some (pool', t) ->
  eval_only pool pool'.
Proof.
  induction fuel as [|fuel IH]; intros pool iter total pool' t Hp;
    destruct iter as [c|]; simpl in Hp;
    try done; try (injection Hp as <- <-; apply eval_only_refl).
  destruct (pool !! c) as [nd|] eqn:Hc; simpl in Hp; [|done].
  destruct (GetPVal comp idx _) as [x|]; simpl in Hp; [|done].
  eapply eval_only_trans; [|by eapply IH].
  eapply eval_only_insert; [done|]. by destruct nd.
Qed.

Lemma scale_priors_frame total :
  forall fuel pool iter pool',
  scale_priors fuel pool iter total = Some pool' ->
  eval_only pool pool'.
Proof.
  induction fuel as [|fuel IH]; intros pool iter pool' Hp;
    destruct iter as [c|]; simpl in Hp;
    try done; try (injection Hp as <-; apply eval_only_refl).
  destruct (pool !! c) as [nd|] eqn:Hc; simpl in Hp; [|done].
  eapply eval_only_trans; [|by eapply IH].
  eapply eval_only_insert; [done|]. by destruct nd.
Qed.

(** The outputs of the network only go to [v] and [p]. *)
Lemma apply_nn_output_frame pool comp idx node pool' :
  apply_nn_output pool comp idx node = Some pool' -> eval_only pool pool'.
Proof.
  unfold apply_nn_output. intros Ha.
  destruct (pool !! node) as [nd|] eqn:Hnd; simpl in Ha; [|done].
  destruct (GetQVal comp idx) as [x|]; simpl in Ha; [|done].
  destruct (populate_priors _ _ _ _ _ _) as [[pool1 total]|] eqn:Hp;
    simpl in Ha; [|done].
  apply populate_priors_frame in Hp.
  assert (H1 : eval_only pool pool1).
  { eapply eval_only_trans; [|exact Hp].
    eapply eval_only_insert; [done|]. by destruct nd. }
  destruct (F32.gtb total F32.zero).
  - apply scale_priors_frame in Ha. by eapply eval_only_trans.
  - by injection Ha as <-.
Qed.

Lemma apply_nn_outputs_frame comp :
  forall nodes_to_process pool idx pool',
  apply_nn_outputs pool comp idx nodes_to_process = Some pool' ->
  eval_only pool pool'.
Proof.
  induction nodes_to_process as [|node rest IH]; intros pool idx pool' Ha;
    simpl in Ha.
  { injection Ha as <-. apply eval_only_refl. }
  destruct (pool !! node) as [nd|]; simpl in Ha; [|done].
  destruct (is_terminal nd); [by eapply IH|].
  destruct (apply_nn_output _ _ _ _) as [pool1|] eqn:H1; simpl in Ha; [|done].
  apply apply_nn_output_frame in H1. apply IH in Ha.
  by eapply eval_only_trans.
Qed.

Lemma eval_only_same_links pool pool' :
  eval_only pool pool' -> same_links pool pool'.
Proof.
  intros [Hlen H]. split; [done|]. intros c nd Hc.
  destruct (H c nd Hc) as (nd' & Hc' & Hs). exists nd'. split; [done|].
  apply same_but_eval_fields in Hs. tauto.
Qed.

Lemma keeps_refl leaf pool : keeps leaf pool pool.
Proof. intros c nd Hc. exists nd. by repeat split. Qed.

Lemma keeps_trans leaf pool1 pool2 pool3 :
  keeps leaf pool1 pool2 -> keeps leaf pool2 pool3 -> keeps leaf pool1 pool3.
Proof.
  intros H12 H23 c nd Hc.
  destruct (H12 c nd Hc) as (nd2 & Hc2 & ? & ? & ? & ? & Hch2).
  destruct (H23 c nd2 Hc2) as (nd3 & Hc3 & ? & ? & ? & ? & Hch3).
  exists nd3. split; [done|]. do 4 (split; [congruence|]).
  intros Hne. rewrite Hch3, Hch2 by done. done.
Qed.

Lemma eval_only_keeps leaf pool pool' :
  eval_only pool pool' -> keeps leaf pool pool'.
Proof.
  intros [_ H] c nd Hc. destruct (H c nd Hc) as (nd' & Hc' & Hs).
  exists nd'. split; [done|].
  apply same_but_eval_fields in Hs as (? & ? & ? & ? & ? & ?).
  by repeat split.
Qed.

Lemma ExtendNode_keeps pool node nd pool' :
  pool !! node = Some nd -> ExtendNode pool node = Some pool' ->
  keeps node pool pool'.
Proof.
  intros Hnd Hext.
  destruct (ExtendNode_frame _ _ _ _ Hnd Hext)
    as (_ & Hother & (nd' & Hnd' & Hsame & _) & _).
  intros c x Hc. destruct (decide (c = node)) as [->|Hne].
  - rewrite Hnd in Hc. injection Hc as <-. exists nd'. split; [done|].
    destruct Hsame as (? & ? & _ & _ & _ & _ & ? & ? & _).
    by repeat split.
  - exists x. split; [by apply Hother|]. by repeat split.
Qed.

Lemma keeps_path leaf pool pool' stop start l :
  keeps leaf pool pool' ->
  chain parent pool stop start l -> chain parent pool' stop start l.
Proof.
  intros Hk. apply chain_same_links. intros c nd Hc.
  destruct (Hk c nd Hc) as (nd' & Hc' & Hp & _). by exists nd'.
Qed.

Lemma keeps_children leaf pool pool' c cs :
  keeps leaf pool pool' -> c <> leaf ->
  children pool c cs -> children pool' c cs.
Proof.
  intros Hk Hne (nd & Hc & Hch).
  destruct (Hk c nd Hc) as (nd' & Hc' & _ & _ & _ & _ & Hchild).
  exists nd'. split; [done|]. rewrite (Hchild Hne).
  revert Hch. apply chain_same_links. intros x xn Hx.
  destruct (Hk x xn Hx) as (xn' & Hx' & _ & Hs & _). by exists xn'.
Qed.

(** The reservations along the path of a leaf are just what its backup
    takes back: whatever was done to the leaf meanwhile, every node ends
    with the [n_in_flight] it had before the selector came, and the nodes
    of the path with one more visit. *)
Lemma reserve_backup pool0 pool3 root best leaf path :
  path_to_root pool0 root leaf (leaf :: path) ->
  (forall c, c ∈ path -> exists cs, children pool0 c cs) ->
  keeps leaf (reserve_path (leaf :: path) pool0) pool3 ->
  (exists cs, children pool3 leaf cs) ->
  (forall b, best = Some b -> is_Some (pool0 !! b)) ->
  exists pool4 best',
    backup pool3 root best leaf = Some (pool4, best') /\
    length pool4 = length pool3 /\
    forall c nd, pool0 !! c = Some nd ->
      exists nd', pool4 !! c = Some nd' /\
        n_in_flight nd' = n_in_flight nd /\
        n nd' = n nd + (if bool_decide (c ∈ leaf :: path) then 1 else 0) /\
        parent nd' = parent nd /\ sibling nd' = sibling nd.
Proof.
  intros (rootnd & Hroot & Hchain) Hkids Hkeep Hleafkids Hbest.
  pose proof (chain_NoDup _ _ _ _ _ Hchain) as Hnodup.
  assert (Hres : forall c nd, pool0 !! c = Some nd ->
            reserve_path (leaf :: path) pool0 !! c
            = Some (if bool_decide (c ∈ leaf :: path)
                    then reserve_node nd else nd)).
  { intros c nd Hc. case_bool_decide.
    - by rewrite reserve_path_lookup_in, Hc.
    - by rewrite reserve_path_lookup_out. }
  assert (Hk03 : forall c nd, pool0 !! c = Some nd ->
            exists nd3, pool3 !! c = Some nd3 /\
              parent nd3 = parent nd /\ sibling nd3 = sibling nd /\
              n nd3 = n nd /\
              n_in_flight nd3
              = n_in_flight nd
                + (if bool_decide (c ∈ leaf :: path) then 1 else 0) /\
              (c <> leaf -> child nd3 = child nd)).
  { intros c nd Hc.
    destruct (Hkeep c _ (Hres c nd Hc))
      as (nd3 & Hc3 & Hp & Hs & Hn & Hf & Hch).
    exists nd3. split; [done|].
    case_bool_decide; simpl in *; repeat split; try done; lia. }
  destruct (Hk03 root rootnd Hroot) as (rootnd3 & Hroot3 & Hrp & _).
  destruct (chain_lookup _ _ _ _ _ leaf Hchain) as [lf Hlf]; [by left|].
  destruct (Hk03 leaf lf Hlf) as (lf3 & Hlf3 & _).
  assert (Hchain3 : chain parent pool3 (parent rootnd) (Some leaf)
                      (leaf :: path)).
  { revert Hchain. apply chain_same_links. intros c nd Hc.
    destruct (Hk03 c nd Hc) as (nd3 & Hc3 & Hp & _). by exists nd3. }
  unfold backup. rewrite Hlf3. cbn [mbind option_bind].
  destruct (backup_loop_spec root (parent rootnd) (leaf :: path) pool3
              (Some leaf) (length pool3) best (v lf3) 0
              (if is_terminal lf3 then 999 else 0) true)
    as (pool4 & best' & Hb & [Hlen Hlinks] & Hout & Hin).
  { by exists rootnd3. }
  { done. }
  { by eapply chain_length. }
  { intros c Hc. destruct (decide (c = leaf)) as [->|Hne]; [done|].
    apply elem_of_cons in Hc as [->|Hc]; [done|].
    destruct (Hkids c Hc) as (cs & nd & Hnd & Hcs). exists cs.
    destruct (Hk03 c nd Hnd) as (nd3 & Hc3 & _ & _ & _ & _ & Hchild).
    exists nd3. split; [done|]. rewrite (Hchild Hne).
    revert Hcs. apply chain_same_links. intros x xn Hx.
    destruct (Hk03 x xn Hx) as (xn3 & Hx3 & _ & Hs & _). by exists xn3. }
  { intros b Hb. destruct (Hbest b Hb) as [x Hx].
    destruct (Hk03 b x Hx) as (x3 & Hx3 & _). by rewrite Hx3. }
  exists pool4, best'. split; [done|]. split; [done|].
  intros c nd Hc.
  destruct (Hk03 c nd Hc) as (nd3 & Hc3 & Hp & Hs & Hn & Hf & _).
  destruct (Hlinks c nd3 Hc3) as (nd4 & Hc4 & Hp4 & _ & Hs4).
  exists nd4. split; [done|].
  case_bool_decide as Hmem.
  - apply list_elem_of_lookup in Hmem as [i Hi].
    destruct (Hin i c nd3 Hi Hc3) as (nd4' & Hc4' & _ & Hn4 & Hf4 & _).
    rewrite Hc4 in Hc4'. injection Hc4' as <-.
    repeat split; [lia|lia|congruence|congruence].
  - rewrite (Hout c Hmem), Hc3 in Hc4. injection Hc4 as <-.
    repeat split; [lia|lia|congruence|congruence].
Qed.

End PlayoutLemmas.

(* ------------------------------------------------------------------ *)
(** ** The bookkeeping of the backup *)

Section BookkeepingLemmas.
Context {Move Board InputPlanes NNCache : Type}.
Context {collab : Collaborators Move Board InputPlanes NNCache}.
Implicit Types (pool : list (Node Move Board)).

Lemma min_full_depth_bounds pool :
  forall fuel iter cur m,
  min_full_depth fuel pool iter cur = Some m ->
  m <= cur /\ (full_depth_nonneg pool -> 0 <= cur -> 0 <= m).
Proof.
  induction fuel as [|fuel IH]; intros iter cur m Hm;
    destruct iter as [c|]; simpl in Hm; try done;
    try (injection Hm as <-; split; [lia|done]).
  destruct (pool !! c) as [nd|] eqn:Hc; simpl in Hm; [|done].
  apply IH in Hm as [Hle Hge].
  destruct (Z.ltb_spec (full_depth nd) cur).
  - split; [lia|]. intros Hnn Hcur. apply Hge; [done|]. by eapply Hnn.
  - split; [lia|]. intros Hnn Hcur. by apply Hge.
Qed.

(** What the body of the walk does to the node it is at and to the best
    node, when it returns. *)
Lemma backup_node_inv pool root best c nd v_ depth_ cfd fdu
  pool1 best1 cfd1 fdu1 next :
  pool !! c = Some nd ->
  backup_node pool root best c v_ depth_ cfd fdu
  = Some (pool1, best1, cfd1, fdu1, next) ->
  exists nd',
    pool1 = <[c := nd']> pool /\ next = parent nd /\
    parent nd' = parent nd /\ n nd' = n nd + 1 /\
    max_depth nd' = (if max_depth nd <? depth_ then depth_ else max_depth nd) /\
    ((full_depth nd' = full_depth nd /\ cfd1 <= cfd /\
      (full_depth_nonneg pool -> 0 <= cfd -> 0 <= cfd1)) \/
     (exists m, full_depth nd <= m /\ m <= cfd /\
                full_depth nd' = wrap_u16 (m + 1) /\
                cfd1 = wrap_u16 (m + 1))) /\
    ((parent nd <> Some root /\ best1 = best) \/
     (parent nd = Some root /\
      ((best = None /\ best1 = Some c) \/
       (exists b bn, best = Some b /\ pool1 !! b = Some bn /\
                     best1 = if n bn <? n nd + 1 then Some c else Some b)))).
Proof.
  intros Hnd Hb.
  assert (Hc : (c < length pool)%nat) by (by eapply lookup_lt_Some).
  unfold backup_node in Hb. rewrite Hnd in Hb. cbn [mbind option_bind] in Hb.
  set (nd1 := if max_depth (update_stats v_ nd) <? depth_
              then set_max_depth depth_ (update_stats v_ nd)
              else update_stats v_ nd) in *.
  assert (H1 : parent nd1 = parent nd /\ n nd1 = n nd + 1 /\
               full_depth nd1 = full_depth nd /\ child nd1 = child nd /\
               max_depth nd1
               = (if max_depth nd <? depth_ then depth_ else max_depth nd)).
  { unfold nd1. change (max_depth (update_stats v_ nd)) with (max_depth nd).
    by destruct (max_depth nd <? depth_). }
  destruct H1 as (Hp1 & Hn1 & Hf1 & Hch1 & Hm1).
  set (pool0 := <[c := nd1]> pool) in *.
  (* the part after the full-depth update, for any node it leaves at [c] *)
  assert (Hrest : forall nd2 cfd2 fdu2,
    parent nd2 = parent nd -> n nd2 = n nd + 1 ->
    max_depth nd2 = max_depth nd1 ->
    ((if bool_decide (parent nd1 = Some root)
      then match best with
           | None => Some (Some c)
           | Some b =>
               bnd ← <[c := nd2]> pool !! b;
               Some (if n bnd <? n nd1 then Some c else best)
           end
      else Some best) ≫= λ best0,
      Some (<[c := nd2]> pool, best0, cfd2, fdu2, parent nd1))
    = Some (pool1, best1, cfd1, fdu1, next) ->
    pool1 = <[c := nd2]> pool /\ next = parent nd /\ cfd1 = cfd2 /\
    ((parent nd <> Some root /\ best1 = best) \/
     (parent nd = Some root /\
      ((best = None /\ best1 = Some c) \/
       (exists b bn, best = Some b /\ pool1 !! b = Some bn /\
                     best1 = if n bn <? n nd + 1 then Some c else Some b))))).
  { intros nd2 cfd2 fdu2 Hp2 Hn2 Hm2 Heq. rewrite Hp1, Hn1 in Heq.
    case_bool_decide as Hpr.
    - destruct best as [b|].
      + destruct (<[c := nd2]> pool !! b) as [bn|] eqn:Hbn; simpl in Heq;
          [|done].
        injection Heq as <- <- <- <- <-. do 3 (split; [done|]).
        right. split; [done|]. right. exists b, bn.
        split; [done|]. split; [done|]. by destruct (n bn <? n nd + 1).
      + simpl in Heq. injection Heq as <- <- <- <- <-.
        do 3 (split; [done|]). right. split; [done|]. by left.
    - simpl in Heq. injection Heq as <- <- <- <- <-.
      do 3 (split; [done|]). by left. }
  destruct (fdu && (full_depth nd1 <=? cfd)) eqn:Hupd.
  - destruct (min_full_depth _ _ _ _) as [m|] eqn:Hmin;
      cbn [mbind option_bind] in Hb; [|done].
    pose proof (min_full_depth_bounds _ _ _ _ _ Hmin) as [Hle Hge].
    destruct (Z.leb_spec (full_depth nd1) m) as [Hfm|Hfm].
    + unfold pool0 in Hb. rewrite list_insert_insert_eq in Hb.
      apply Hrest in Hb as (-> & -> & -> & Hbest); [|done..].
      exists (set_full_depth (wrap_u16 (m + 1)) nd1).
      do 4 (split; [done|]). split; [done|].
      split; [|done]. right. exists m. rewrite <- Hf1. by repeat split.
    + apply Hrest in Hb as (-> & -> & -> & Hbest); [|done..].
      exists nd1. do 4 (split; [done|]). split; [done|].
      split; [|done]. left. split; [done|]. split; [done|].
      intros Hnn Hcfd. apply Hge; [|done].
      intros x xn Hx. unfold pool0 in Hx.
      destruct (decide (x = c)) as [->|Hne].
      * rewrite list_lookup_insert_eq in Hx by done. injection Hx as <-.
        rewrite Hf1. by eapply Hnn.
      * rewrite list_lookup_insert_ne in Hx by done. by eapply Hnn.
  - apply Hrest in Hb as (-> & -> & -> & Hbest); [|done..].
    exists nd1. do 4 (split; [done|]). split; [done|].
    split; [|done]. left. split; [done|]. split; [lia|done].
Qed.

(** The depths along the walk: the node at place [i] of the path ends with
    [max_depth] at least [i + 1] and not below what it was, and with a
    [full_depth] that is not below what it was. *)
Lemma backup_loop_depths root stop path :
  forall pool cur fuel best v_ depth_ cfd fdu pool' best',
  (exists rootnd, pool !! root = Some rootnd /\ parent rootnd = stop) ->
  chain parent pool stop cur path ->
  full_depth_nonneg pool ->
  0 <= depth_ -> 0 <= cfd ->
  depth_ + Z.of_nat (length path) < 2 ^ 16 ->
  cfd + Z.of_nat (length path) < 2 ^ 16 ->
  backup_loop fuel pool root best cur v_ depth_ cfd fdu = Some (pool', best') ->
  full_depth_nonneg pool' /\
  (forall c, c ∉ path -> pool' !! c = pool !! c) /\
  (forall i c nd, path !! i = Some c -> pool !! c = Some nd ->
     exists nd', pool' !! c = Some nd' /\
       max_depth nd' = Z.max (max_depth nd) (depth_ + Z.of_nat i + 1) /\
       full_depth nd <= full_depth nd').
Proof.
  induction path as [|c path IH];
    intros pool cur fuel best v_ depth_ cfd fdu pool' best'
      (rootnd & Hroot & Hstop) Hch Hnn Hd Hcfd Hdlen Hclen Hloop.
  - inversion Hch; subst.
    assert (pool' = pool) as ->.
    { destruct fuel; simpl in Hloop; rewrite Hroot in Hloop; simpl in Hloop;
        rewrite bool_decide_eq_true_2 in Hloop by done; by injection Hloop. }
    split; [done|]. split; [done|]. intros i c nd Hi. done.
  - inversion Hch as [|c' nd l Hne Hnd Hrest]; subst.
    pose proof (chain_NoDup _ _ _ _ _ Hch) as Hnodup.
    apply NoDup_cons in Hnodup as [Hnotin _].
    assert (Hc : (c < length pool)%nat) by (by eapply lookup_lt_Some).
    simpl length in Hdlen, Hclen.
    destruct fuel as [|fuel]; simpl in Hloop; rewrite Hroot in Hloop;
      cbn [mbind option_bind] in Hloop;
      rewrite bool_decide_eq_false_2 in Hloop by done; [done|].
    destruct (backup_node _ _ _ _ _ _ _ _)
      as [[[[[pool1 best1] cfd1] fdu1] next]|] eqn:Hstep;
      cbn [mbind option_bind] in Hloop; [|done].
    destruct (backup_node_inv _ _ _ _ _ _ _ _ _ _ _ _ _ _ Hnd Hstep)
      as (nd' & -> & -> & Hp & _ & Hmax & Hfull & _).
    assert (Hwrap : wrap_u16 (depth_ + 1) = depth_ + 1).
    { unfold wrap_u16. apply Z.mod_small. lia. }
    rewrite Hwrap in *.
    assert (Hfd : full_depth nd <= full_depth nd' /\ 0 <= cfd1 /\
                  cfd1 <= cfd + 1).
    { pose proof (Hnn c nd Hnd).
      destruct Hfull as [(-> & Hle & Hge)|(m & Hm1 & Hm2 & -> & ->)].
      - split; [lia|]. split; [by apply Hge|lia].
      - unfold wrap_u16. rewrite Z.mod_small by lia. lia. }
    destruct Hfd as (Hfd & Hcfd1 & Hcfd1').
    set (pool1 := <[c := nd']> pool) in *.
    assert (Hc1 : pool1 !! c = Some nd') by (by apply list_lookup_insert_eq).
    destruct (IH pool1 (parent nd) fuel best1 (F32.neg v_) (depth_ + 1)
                cfd1 fdu1 pool' best')
      as (Hnn' & Hout & Hin); try done; try lia.
    + destruct (decide (root = c)) as [->|Hne0].
      * exists nd'. split; [done|]. congruence.
      * exists rootnd. unfold pool1. by rewrite list_lookup_insert_ne.
    + revert Hrest. apply chain_same_links. intros x xn Hx.
      destruct (decide (x = c)) as [->|Hne0].
      * exists nd'. split; [done|]. congruence.
      * exists xn. unfold pool1. by rewrite list_lookup_insert_ne.
    + intros x xn Hx. unfold pool1 in Hx.
      destruct (decide (x = c)) as [->|Hne0].
      * rewrite list_lookup_insert_eq in Hx by done. injection Hx as <-.
        pose proof (Hnn c nd Hnd). lia.
      * rewrite list_lookup_insert_ne in Hx by done. by eapply Hnn.
    + split; [done|]. split.
      * intros x Hx. apply not_elem_of_cons in Hx as [Hne0 Hx].
        rewrite (Hout _ Hx). unfold pool1. by rewrite list_lookup_insert_ne.
      * intros [|i] x xn Hi Hx; simpl in Hi.
        -- injection Hi as <-. assert (xn = nd) as -> by congruence.
           exists nd'. split; [by rewrite (Hout _ Hnotin)|].
           split; [|done]. rewrite Hmax.
           destruct (Z.ltb_spec (max_depth nd) (depth_ + 1)); lia.
        -- assert (Hne0 : x <> c).
           { intros ->. apply Hnotin. by eapply list_elem_of_lookup_2. }
           destruct (Hin i x xn Hi) as (xn' & Hx' & Hmx & Hfx).
           { unfold pool1. by rewrite list_lookup_insert_ne. }
           exists xn'. split; [done|]. split; [|done].
           rewrite Hmx. f_equal. lia.
Qed.

Lemma best_visits_insert pool c nd nd' best :
  pool !! c = Some nd -> n nd <= n nd' ->
  best_visits pool best <= best_visits (<[c := nd']> pool) best.
Proof.
  intros Hc Hle. unfold best_visits. destruct best as [b|]; [|done].
  assert (Hlt : (c < length pool)%nat) by (by eapply lookup_lt_Some).
  destruct (decide (b = c)) as [->|Hne].
  - by rewrite list_lookup_insert_eq, Hc.
  - by rewrite list_lookup_insert_ne.
Qed.

(** The walk keeps the best node the most visited one among the nodes
    that have the root as parent. *)
Lemma backup_loop_best root :
  forall fuel pool best cur v_ depth_ cfd fdu pool' best',
  visits_nonneg pool -> best_is_most_visited pool root best ->
  backup_loop fuel pool root best cur v_ depth_ cfd fdu = Some (pool', best') ->
  visits_nonneg pool' /\ best_is_most_visited pool' root best'.
Proof.
  induction fuel as [|fuel IH];
    intros pool best cur v_ depth_ cfd fdu pool' best' Hnn Hinv Hloop;
    simpl in Hloop;
    (destruct (pool !! root) as [rootnd|] eqn:Hroot;
     cbn [mbind option_bind] in Hloop; [|done]);
    (case_bool_decide as Hcur; [by injection Hloop as <- <-|]);
    [done|].
  destruct cur as [c|]; cbn [mbind option_bind] in Hloop; [|done].
  destruct (backup_node _ _ _ _ _ _ _ _)
    as [[[[[pool1 best1] cfd1] fdu1] next]|] eqn:Hstep;
    cbn [mbind option_bind] in Hloop; [|done].
  destruct (pool !! c) as [nd|] eqn:Hnd;
    [|unfold backup_node in Hstep; by rewrite Hnd in Hstep].
  destruct (backup_node_inv _ _ _ _ _ _ _ _ _ _ _ _ _ _ Hnd Hstep)
    as (nd' & -> & -> & Hp & Hn & _ & _ & Hbest).
  assert (Hc : (c < length pool)%nat) by (by eapply lookup_lt_Some).
  set (pool1 := <[c := nd']> pool) in *.
  assert (Hc1 : pool1 !! c = Some nd') by (by apply list_lookup_insert_eq).
  assert (Hlook : forall x xn1, pool1 !! x = Some xn1 ->
            exists xn, pool !! x = Some xn /\ parent xn1 = parent xn /\
                       n xn <= n xn1 /\ (x <> c -> xn1 = xn) /\
                       (x = c -> xn1 = nd' /\ xn = nd)).
  { intros x xn1 Hx. destruct (decide (x = c)) as [->|Hne].
    - rewrite Hc1 in Hx. injection Hx as <-. exists nd.
      repeat split; try done; lia.
    - unfold pool1 in Hx. rewrite list_lookup_insert_ne in Hx by done.
      exists xn1. repeat split; try done; lia. }
  eapply IH; [| |exact Hloop].
  { intros x xn1 Hx. destruct (Hlook x xn1 Hx) as (xn & Hxn & _ & Hle & _).
    pose proof (Hnn x xn Hxn). lia. }
  destruct Hinv as [Hisroot Hmost].
  pose proof (best_visits_insert pool c nd nd' best Hnd ltac:(lia)) as Hgrow.
  fold pool1 in Hgrow.
  destruct Hbest as [[Hnr ->]|[Hr [[-> ->]|(b & bn & -> & Hbn & ->)]]].
  - (* the node is not a child of the root *)
    split.
    + intros b Hb. destruct (Hisroot b Hb) as (bn & Hbn & Hbp).
      destruct (decide (b = c)) as [->|Hne].
      * exists nd'. split; [done|]. congruence.
      * exists bn. unfold pool1. by rewrite list_lookup_insert_ne.
    + intros x xn1 Hx Hxp.
      destruct (Hlook x xn1 Hx) as (xn & Hxn & Hpx & _ & Hsame & Hatc).
      destruct (decide (x = c)) as [->|Hne].
      * destruct (Hatc eq_refl) as [-> ->]. congruence.
      * rewrite (Hsame Hne). rewrite (Hsame Hne) in Hxp.
        pose proof (Hmost x xn Hxn Hxp). lia.
  - (* the first best node *)
    split.
    + intros b [= <-]. exists nd'. split; [done|]. congruence.
    + intros x xn1 Hx Hxp. unfold best_visits. rewrite Hc1.
      destruct (Hlook x xn1 Hx) as (xn & Hxn & Hpx & _ & Hsame & Hatc).
      destruct (decide (x = c)) as [->|Hne].
      * destruct (Hatc eq_refl) as [-> _]. lia.
      * rewrite (Hsame Hne). rewrite (Hsame Hne) in Hxp.
        pose proof (Hmost x xn Hxn Hxp) as Hle. simpl in Hle.
        pose proof (Hnn c nd Hnd). lia.
  - (* against the best node so far *)
    destruct (Hisroot b eq_refl) as (bn0 & Hbn0 & Hbp0).
    destruct (Z.ltb_spec (n bn) (n nd + 1)) as [Hlt|Hge].
    + split.
      * intros b' [= <-]. exists nd'. split; [done|]. congruence.
      * intros x xn1 Hx Hxp. unfold best_visits. rewrite Hc1.
        destruct (Hlook x xn1 Hx) as (xn & Hxn & Hpx & _ & Hsame & Hatc).
        destruct (decide (x = c)) as [->|Hne].
        -- destruct (Hatc eq_refl) as [-> _]. lia.
        -- rewrite (Hsame Hne). rewrite (Hsame Hne) in Hxp.
           pose proof (Hmost x xn Hxn Hxp) as Hle.
           unfold best_visits in Hgrow, Hle. rewrite Hbn in Hgrow.
           rewrite Hbn0 in *. lia.
    + split.
      * intros b' [= <-].
        destruct (Hlook b bn Hbn) as (bn1 & Hbn1 & Hpb & _).
        exists bn. split; [done|]. congruence.
      * intros x xn1 Hx Hxp. unfold best_visits. rewrite Hbn.
        destruct (Hlook x xn1 Hx) as (xn & Hxn & Hpx & _ & Hsame & Hatc).
        destruct (decide (x = c)) as [->|Hne].
        -- destruct (Hatc eq_refl) as [-> _]. lia.
        -- rewrite (Hsame Hne). rewrite (Hsame Hne) in Hxp.
           pose proof (Hmost x xn Hxn Hxp) as Hle.
           unfold best_visits in Hgrow, Hle. rewrite Hbn in Hgrow.
           rewrite Hbn0 in *. lia.
Qed.

End BookkeepingLemmas.

(* ------------------------------------------------------------------ *)
(** ** A turn of the worker with batches of one node *)

Section TurnOfOne.
Context {Move Board InputPlanes NNCache : Type}.
Context {collab : Collaborators Move Board InputPlanes NNCache}.
Implicit Types (pool : list (Node Move Board)).
Implicit Types (s : Search Move Board NNCache).

Lemma tree_below_children pool root leaf path :
  tree_below pool root ->
  path_to_root pool root leaf path ->
  forall c, c ∈ path -> exists cs, children pool c cs.
Proof.
  intros Htree (rootnd & Hroot & Hch) c Hc.
  destruct (chain_from_member _ _ _ _ _ c Hch Hc) as (l' & Hl' & _).
  destruct (Htree c l') as (cs & Hcs & _); [by exists rootnd|].
  by exists cs.
Qed.

(** What a batch of one node is: nothing when the selector gives up, and
    else a leaf whose path is reserved and which the expander may have
    worked on. *)
Lemma gather_one s s1 comp nodes new_nodes :
  let pool0 := node_pool_ s in
  let root := root_node_ s in
  tree_below pool0 root -> scores_sane pool0 (kCpuct s) ->
  path_to_root pool0 root root [root] ->
  gather 1 0 s [] [] 0 = Some (s1, comp, nodes, new_nodes) ->
  (nodes = [] /\ new_nodes = 0 /\ comp = [] /\ node_pool_ s1 = pool0) \/
  (exists leaf path,
     path_to_root pool0 root leaf (leaf :: path) /\
     nodes = [leaf] /\ new_nodes = 1 /\
     keeps leaf (reserve_path (leaf :: path) pool0) (node_pool_ s1) /\
     exists cs, children (node_pool_ s1) leaf cs).
Proof.
  intros pool0 root Htree Hsane Hroot Hg.
  destruct (pick_loop_spec pool0 root (kCpuct s) Htree Hsane
              (S (length pool0)) root [] Hroot)
    as (pool1 & r & Hpick & Hr); [simpl; lia|].
  change (reserve_path [] pool0) with pool0 in Hpick.
  cbn [gather] in Hg.
  change ((0 <? 0) && (GetCacheMisses (@nil (@BatchItem InputPlanes)) =? 0))
    with false in Hg.
  cbv iota in Hg. unfold PickNodeToExtend in Hg.
  fold pool0 in Hg. fold root in Hg. rewrite Hpick in Hg.
  cbn [mbind option_bind] in Hg.
  destruct r as [leaf|].
  2:{ subst pool1. injection Hg as <- <- <- <-. by left. }
  destruct Hr as (path & nd & Hpath & Hnd & Hchild & Hres & ->).
  right. exists leaf, path. split; [done|].
  set (pool1 := reserve_path (leaf :: path) pool0) in *.
  assert (Hnodup : NoDup (leaf :: path)).
  { destruct Hpath as (? & _ & Hch). by eapply chain_NoDup. }
  assert (Hlf : pool1 !! leaf = Some (reserve_node nd)).
  { unfold pool1. rewrite reserve_path_lookup_in, Hnd; [done|done|by left]. }
  rewrite Hlf in Hg. cbn [mbind option_bind] in Hg.
  change (is_terminal (reserve_node nd)) with (is_terminal nd) in Hg.
  destruct (is_terminal nd).
  { injection Hg as <- <- <- <-. split; [done|]. split; [done|].
    split; [apply keeps_refl|]. exists []. exists (reserve_node nd).
    split; [done|]. change (child (reserve_node nd)) with (child nd).
    rewrite Hchild. constructor. }
  destruct (ExtendNode pool1 leaf) as [pool2|] eqn:Hext;
    cbn [mbind option_bind] in Hg; [|done].
  destruct (ExtendNode_frame _ _ _ _ Hlf Hext)
    as (_ & _ & (nd2 & Hnd2 & _) & _ & Hkids).
  pose proof (ExtendNode_keeps _ _ _ _ Hlf Hext) as Hkeep.
  specialize (Hkids Hchild). destruct Hkids as (cs & Hcs & _).
  change (node_pool_ (set_node_pool_ pool1 s)) with pool1 in Hg.
  rewrite Hnd2 in Hg. cbn [mbind option_bind] in Hg.
  destruct (negb (is_terminal nd2)).
  - destruct (AddNodeToCompute _ _ _ _ _) as [[hit comp1]|];
      cbn [mbind option_bind] in Hg; [|done].
    injection Hg as <- <- <- <-. split; [done|]. split; [done|].
    split; [done|]. by exists cs.
  - injection Hg as <- <- <- <-. split; [done|]. split; [done|].
    split; [done|]. by exists cs.
Qed.

End TurnOfOne.

(* ------------------------------------------------------------------ *)
(** ** Reports are not repeated *)

Section ReportOnce.
Context {Move Board InputPlanes NNCache : Type}.
Context {collab : Collaborators Move Board InputPlanes NNCache}.
Implicit Types (s : Search Move Board NNCache).

Lemma MaybeOutputInfo_again s s' :
  MaybeOutputInfo s = Some s' -> MaybeOutputInfo s' = Some s'.
Proof.
  intros Hs. pose proof Hs as Hs0.
  apply MaybeOutputInfo_cases in Hs as [->|[Hsend [b Hb]]].
  - exact Hs0.
  - destruct (SendUciInfo_report _ _ _ Hb Hsend)
      as (rootnd & info & Hroot & Hd & Hsd & ->).
    unfold MaybeOutputInfo. simpl. rewrite Hb.
    rewrite bool_decide_eq_false_2 by (by intros []).
    rewrite Hroot. simpl. by rewrite Hd, Hsd, !Z.eqb_refl.
Qed.

End ReportOnce.

(* ------------------------------------------------------------------ *)
(** ** The turns of the gathering loop *)

Section GatherTurns.
Context {Move Board InputPlanes NNCache : Type}.
Context {collab : Collaborators Move Board InputPlanes NNCache}.
Implicit Types (pool : list (Node Move Board)).
Implicit Types (s : Search Move Board NNCache).

(** The input that [AddNodeToCompute] appends does not depend on the
    computation it is appended to. *)
Lemma AddNodeToCompute_input pool cache node comp hit comp' :
  AddNodeToCompute pool cache node comp true = Some (hit, comp') ->
  exists it, comp' = comp ++ [it] /\ is_miss it = negb hit /\
             input_of pool cache node it.
Proof.
  unfold input_of, AddNodeToCompute, AddInputByHash, AddInput. intros Ha.
  destruct (pool !! node) as [nd|]; simpl in Ha; [|done].
  destruct (Lookup cache (BoardHash pool node)) as [cv|].
  - injection Ha as <- <-. eexists. split; [done|]. split; [done|].
    by exists true.
  - destruct (match child nd with Some _ => _ | None => _ end) as [moves|]
      eqn:Hmoves; simpl in Ha; [|done].
    injection Ha as <- <-. eexists. split; [done|]. split; [done|].
    exists false. simpl. by rewrite Hmoves.
Qed.

Lemma gather_turns_app root cpuct cache pool ts1 ts2 :
  gather_turns root cpuct cache pool ts1 ->
  gather_turns root cpuct cache (arena_left pool ts1) ts2 ->
  gather_turns root cpuct cache pool (ts1 ++ ts2).
Proof.
  revert pool. induction ts1 as [|t ts1 IH]; intros pool H1 H2; [done|].
  destruct H1 as (Hb & Ht & H1). simpl. split; [done|]. split; [done|].
  by apply IH.
Qed.

(** The gathering loop, turn by turn. *)
Lemma gather_trace :
  forall k i s comp nodes_to_process new_nodes s' comp' nodes' new',
  0 <= i ->
  gather k i s comp nodes_to_process new_nodes
  = Some (s', comp', nodes', new') ->
  exists ts,
    gather_turns (root_node_ s) (kCpuct s) (cache_ s) (node_pool_ s) ts /\
    nodes' = nodes_to_process ++ map gathered_node ts /\
    comp' = comp ++ gathered_inputs ts /\
    new' = new_nodes + Z.of_nat (length ts) /\
    (length ts <= k)%nat /\
    (forall j, (j < length ts)%nat -> 0 < i + Z.of_nat j ->
       GetCacheMisses (comp ++ gathered_inputs (take j ts)) <> 0) /\
    (((length ts = k \/
       (0 < i + Z.of_nat (length ts) /\ GetCacheMisses comp' = 0)) /\
      node_pool_ s' = arena_left (node_pool_ s) ts) \/
     PickNodeToExtend (arena_left (node_pool_ s) ts) (root_node_ s) (kCpuct s)
       (root_node_ s) = Some (node_pool_ s', None)) /\
    Forall (fun t => awaits_network (node_pool_ s') (gathered_node t)
                     = bool_decide (is_Some (gathered_input t))) ts.
Proof.
  induction k as [|k IH];
    intros i s comp nodes new s' comp' nodes' new' Hi Hg; simpl in Hg.
  { injection Hg as <- <- <- <-. exists []. unfold gathered_inputs. simpl.
    rewrite !app_nil_r. do 3 (split; [done|]). split; [lia|].
    split; [done|]. split; [intros j Hj; simpl in Hj; lia|].
    split; [left; by split; [left|]|constructor]. }
  destruct ((0 <? i) && (GetCacheMisses comp =? 0)) eqn:Hstop.
  { injection Hg as <- <- <- <-. exists []. unfold gathered_inputs. simpl.
    rewrite !app_nil_r. do 3 (split; [done|]). split; [lia|].
    split; [lia|]. split; [intros j Hj; simpl in Hj; lia|].
    apply andb_true_iff in Hstop as [H1 H2].
    split; [left; split; [right; lia|done]|constructor]. }
  destruct (PickNodeToExtend _ _ _ _) as [[pool1 picked]|] eqn:Hpick;
    simpl in Hg; [|done].
  destruct picked as [node|].
  2:{ injection Hg as <- <- <- <-. exists []. unfold gathered_inputs. simpl.
      rewrite !app_nil_r. do 3 (split; [done|]). split; [lia|].
      split; [lia|]. split; [intros j Hj; simpl in Hj; lia|].
      split; [by right|constructor]. }
  pose proof Hpick as Hpick0.
  apply pick_loop_frame in Hpick as [_ Hleaf].
  destruct (Hleaf node eq_refl) as (lf & Hlf & Hnochild).
  rewrite Hlf in Hg. simpl in Hg.
  (* the rest of the loop after the turn [t] *)
  assert (Hrest : forall t s1 comp1,
    gathered_node t = node -> arena_before t = node_pool_ s ->
    arena_after t = node_pool_ s1 ->
    gather_turn (root_node_ s) (kCpuct s) (cache_ s) t ->
    s1 = set_node_pool_ (node_pool_ s1) s ->
    comp1 = comp ++ gathered_inputs [t] ->
    (exists x, node_pool_ s1 !! node = Some x /\ settled x /\
               negb (is_terminal x)
               = bool_decide (is_Some (gathered_input t))) ->
    gather k (i + 1) s1 comp1 (nodes ++ [node]) (new + 1)
    = Some (s', comp', nodes', new') ->
    exists ts,
      gather_turns (root_node_ s) (kCpuct s) (cache_ s) (node_pool_ s) ts /\
      nodes' = nodes ++ map gathered_node ts /\
      comp' = comp ++ gathered_inputs ts /\
      new' = new + Z.of_nat (length ts) /\
      (length ts <= S k)%nat /\
      (forall j, (j < length ts)%nat -> 0 < i + Z.of_nat j ->
         GetCacheMisses (comp ++ gathered_inputs (take j ts)) <> 0) /\
      (((length ts = S k \/
         (0 < i + Z.of_nat (length ts) /\ GetCacheMisses comp' = 0)) /\
        node_pool_ s' = arena_left (node_pool_ s) ts) \/
       PickNodeToExtend (arena_left (node_pool_ s) ts) (root_node_ s)
         (kCpuct s) (root_node_ s) = Some (node_pool_ s', None)) /\
      Forall (fun t => awaits_network (node_pool_ s') (gathered_node t)
                       = bool_decide (is_Some (gathered_input t))) ts).
  { intros t s1 comp1 Hnode Hbefore Hafter Hturn Hs1 -> (x & Hx & Hset & Hopen)
      Hg1.
    assert (Hroot1 : root_node_ s1 = root_node_ s) by (by rewrite Hs1).
    assert (Hcp1 : kCpuct s1 = kCpuct s) by (by rewrite Hs1).
    assert (Hcache1 : cache_ s1 = cache_ s) by (by rewrite Hs1).
    destruct (gather_keeps_settled _ _ _ _ _ _ _ _ _ _ Hg1 node x Hx Hset)
      as (x' & Hx' & Hsame).
    apply same_but_flight_fields in Hsame as (_ & _ & _ & Ht' & _).
    assert (Hi1 : 0 <= i + 1) by lia.
    destruct (IH _ _ _ _ _ _ _ _ _ Hi1 Hg1)
      as (ts & Hts & -> & -> & -> & Hk & Hmiss & Hend & Hall).
    rewrite Hroot1, Hcp1, Hcache1 in Hts. rewrite Hroot1, Hcp1 in Hend.
    exists (t :: ts). split; [simpl; by rewrite Hafter|].
    split; [simpl; by rewrite Hnode, <- app_assoc|].
    split.
    { unfold gathered_inputs. simpl.
      destruct (gathered_input t); simpl; by rewrite <- app_assoc. }
    split; [simpl length; lia|]. split; [simpl; lia|]. split.
    { intros [|j] Hj Hij.
      - simpl. unfold gathered_inputs. simpl. rewrite app_nil_r.
        intros Hz. apply andb_false_iff in Hstop as [Hstop|Hstop]; lia.
      - simpl in Hj.
        specialize (Hmiss j ltac:(lia) ltac:(lia)).
        revert Hmiss. unfold gathered_inputs. simpl.
        destruct (gathered_input t); simpl; by rewrite <- app_assoc. }
    split.
    { simpl. rewrite Hafter.
      destruct Hend as [[Hend Hp]|Hend]; [left|by right].
      split; [|done]. destruct Hend as [Hend|[Hend1 Hend2]]; [left; lia|].
      right. split; [lia|done]. }
    constructor; [|done].
    unfold awaits_network. by rewrite Hnode, Hx', Ht', <- Hopen. }
  destruct (is_terminal lf) eqn:Hterm.
  { eapply (Hrest (mkGathered node (node_pool_ s) pool1 None)
              (set_node_pool_ pool1 s) comp); try done.
    - exists pool1, lf. simpl. rewrite Hterm. done.
    - unfold gathered_inputs. simpl. by rewrite app_nil_r.
    - exists lf. simpl. split; [done|]. split; [by left|].
      by rewrite Hterm. }
  destruct (ExtendNode pool1 node) as [pool2|] eqn:Hext; simpl in Hg; [|done].
  destruct (ExtendNode_frame _ _ _ _ Hlf Hext)
    as (_ & _ & (nd2 & Hnd2 & _ & Hstatus) & _).
  rewrite Hnd2 in Hg. simpl in Hg.
  destruct (is_terminal nd2) eqn:Hterm2; simpl in Hg.
  { eapply (Hrest (mkGathered node (node_pool_ s) pool2 None)
              (set_node_pool_ pool2 s) comp); try done.
    - exists pool1, lf. simpl. rewrite Hterm. split; [done|].
      split; [done|]. split; [done|]. exists nd2. by rewrite Hterm2.
    - unfold gathered_inputs. simpl. by rewrite app_nil_r.
    - exists nd2. simpl. split; [done|]. split; [by left|].
      by rewrite Hterm2. }
  destruct (AddNodeToCompute _ _ _ _ _) as [[hit comp1]|] eqn:Hadd;
    simpl in Hg; [|done].
  apply AddNodeToCompute_input in Hadd as (it & -> & _ & Hit).
  eapply (Hrest (mkGathered node (node_pool_ s) pool2 (Some it))
            (set_node_pool_ pool2 s) (comp ++ [it])); try done.
  - exists pool1, lf. simpl. rewrite Hterm. split; [done|].
    split; [done|]. split; [done|]. exists nd2. rewrite Hterm2.
    split; [done|]. by exists it.
  - exists nd2. simpl. split; [done|].
    split; [right; destruct Hstatus as [[? _]|[_ ->]]; congruence|].
    by rewrite Hterm2.
Qed.

End GatherTurns.

(* ------------------------------------------------------------------ *)
(** ** The visits of a batch *)

Section BatchVisits.
Context {Move Board InputPlanes NNCache : Type}.
Context {collab : Collaborators Move Board InputPlanes NNCache}.
Implicit Types (pool : list (Node Move Board)).

Lemma visits_through_nil c : visits_through c [] = 0.
Proof. done. Qed.

Lemma visits_through_cons c path paths :
  visits_through c (path :: paths)
  = (if bool_decide (c ∈ path) then 1 else 0) + visits_through c paths.
Proof.
  unfold visits_through. case_bool_decide.
  - rewrite filter_cons_True by done. simpl length. lia.
  - rewrite filter_cons_False by done. lia.
Qed.

Lemma visited_along_nil pool : visited_along [] pool pool.
Proof.
  split; [done|]. intros c nd Hc. exists nd. split; [done|].
  rewrite visits_through_nil. repeat split; lia.
Qed.

(** What the body of the walk has done at the node it is at, when it
    returns. *)
Lemma backup_node_returns pool root best c nd v_ depth_ cfd fdu
  pool1 best1 cfd1 fdu1 next :
  pool !! c = Some nd ->
  backup_node pool root best c v_ depth_ cfd fdu
  = Some (pool1, best1, cfd1, fdu1, next) ->
  exists nd',
    pool1 = <[c := nd']> pool /\ next = parent nd /\
    parent nd' = parent nd /\ child nd' = child nd /\
    sibling nd' = sibling nd /\ backed_up v_ nd nd'.
Proof.
  intros Hnd Hb. unfold backup_node in Hb. rewrite Hnd in Hb.
  cbn [mbind option_bind] in Hb.
  set (nd1 := if max_depth (update_stats v_ nd) <? depth_
              then set_max_depth depth_ (update_stats v_ nd)
              else update_stats v_ nd) in *.
  assert (H1 : parent nd1 = parent nd /\ child nd1 = child nd /\
               sibling nd1 = sibling nd /\ backed_up v_ nd nd1).
  { unfold nd1. by destruct (_ <? _). }
  destruct H1 as (Hp1 & Hc1 & Hs1 & Hb1).
  assert (Hrest : forall (poolx : list (Node Move Board)) (cfd2 : Z)
                         (fdu2 : bool) bsel,
    (bsel ≫= λ best0 : option nat,
       Some (poolx, best0, cfd2, fdu2, parent nd1))
    = Some (pool1, best1, cfd1, fdu1, next) ->
    pool1 = poolx /\ next = parent nd).
  { intros poolx cfd2 fdu2 [b0|] Heq; simpl in Heq; [|done].
    injection Heq as <- _ _ _ <-. done. }
  destruct (fdu && (full_depth nd1 <=? cfd)).
  - destruct (min_full_depth _ _ _ _) as [m|];
      cbn [mbind option_bind] in Hb; [|done].
    destruct (full_depth nd1 <=? m).
    + cbn [mbind option_bind] in Hb. apply Hrest in Hb as [-> ->].
      exists (set_full_depth (wrap_u16 (m + 1)) nd1).
      rewrite list_insert_insert_eq. done.
    + cbn [mbind option_bind] in Hb. apply Hrest in Hb as [-> ->].
      by exists nd1.
  - cbn [mbind option_bind] in Hb. apply Hrest in Hb as [-> ->].
    by exists nd1.
Qed.

(** A walk of the backup that returns has gone up the parent links from
    where it started to the parent of the root, and has counted one visit
    at each node on the way. *)
Lemma backup_loop_walk root :
  forall fuel pool best cur v_ depth_ cfd fdu pool' best',
  backup_loop fuel pool root best cur v_ depth_ cfd fdu
  = Some (pool', best') ->
  exists rootnd path,
    pool !! root = Some rootnd /\
    chain parent pool (parent rootnd) cur path /\
    visited_along [path] pool pool'.
Proof.
  induction fuel as [|fuel IH];
    intros pool best cur v_ depth_ cfd fdu pool' best' Hb; simpl in Hb;
    destruct (pool !! root) as [rootnd|] eqn:Hroot; simpl in Hb; try done.
  - case_bool_decide as Hcur; [|done]. injection Hb as <- <-.
    exists rootnd, []. split; [done|]. subst cur. split; [constructor|].
    split; [done|]. intros c nd Hc. exists nd. split; [done|].
    rewrite visits_through_cons, visits_through_nil.
    rewrite bool_decide_eq_false_2 by apply not_elem_of_nil.
    repeat split; lia.
  - case_bool_decide as Hcur.
    { injection Hb as <- <-.
      exists rootnd, []. split; [done|]. subst cur. split; [constructor|].
      split; [done|]. intros c nd Hc. exists nd. split; [done|].
      rewrite visits_through_cons, visits_through_nil.
      rewrite bool_decide_eq_false_2 by apply not_elem_of_nil.
      repeat split; lia. }
    destruct cur as [c|]; simpl in Hb; [|done].
    destruct (backup_node _ _ _ _ _ _ _ _)
      as [[[[[pool1 best1] cfd1] fdu1] next]|] eqn:Hnode; simpl in Hb;
      [|done].
    assert (Hc : is_Some (pool !! c)).
    { unfold backup_node in Hnode. destruct (pool !! c); [by eexists|done]. }
    destruct Hc as [nd Hc].
    destruct (backup_node_returns _ _ _ _ _ _ _ _ _ _ _ _ _ _ Hc Hnode)
      as (nd' & -> & -> & Hp & Hch & Hsb & Hbk).
    assert (Hl1 : same_links pool (<[c := nd']> pool))
      by (by eapply same_links_insert).
    destruct (IH _ _ _ _ _ _ _ _ _ Hb)
      as (rootnd1 & path & Hroot1 & Hchain1 & Hlen & Hvis).
    assert (Hrootp : parent rootnd1 = parent rootnd).
    { destruct (proj2 Hl1 _ _ Hroot) as (x & Hx & Hpx & _). congruence. }
    rewrite Hrootp in Hchain1.
    assert (Hchain : chain parent pool (parent rootnd) (parent nd) path).
    { eapply chain_same_links; [|exact Hchain1].
      intros x xn Hx. destruct (decide (x = c)) as [->|Hne].
      - rewrite list_lookup_insert_eq in Hx by (by eapply lookup_lt_Some).
        injection Hx as <-. by exists nd.
      - rewrite list_lookup_insert_ne in Hx by done. by exists xn. }
    assert (Hpath : chain parent pool (parent rootnd) (Some c) (c :: path))
      by (by econstructor).
    pose proof (chain_NoDup _ _ _ _ _ Hpath) as Hnodup.
    apply NoDup_cons in Hnodup as [Hnotin _].
    exists rootnd, (c :: path). split; [done|]. split; [done|].
    split; [by rewrite Hlen, length_insert|].
    intros x xn Hx. rewrite visits_through_cons, visits_through_nil.
    destruct (decide (x = c)) as [->|Hne].
    + assert (xn = nd) as -> by congruence.
      destruct (Hvis c nd') as (nd2 & Hnd2 & Hp2 & Hch2 & Hsb2 & Hn2 & Hf2).
      { apply list_lookup_insert_eq. by eapply lookup_lt_Some. }
      exists nd2. split; [done|].
      rewrite visits_through_cons, visits_through_nil in Hn2, Hf2.
      rewrite bool_decide_eq_false_2 in Hn2, Hf2 by done.
      rewrite bool_decide_eq_true_2 by (by left).
      destruct Hbk as (_ & Hn & Hf & _).
      repeat split; try congruence; lia.
    + destruct (Hvis x xn) as (nd2 & Hnd2 & Hp2 & Hch2 & Hsb2 & Hn2 & Hf2).
      { by rewrite list_lookup_insert_ne. }
      exists nd2. split; [done|].
      rewrite visits_through_cons, visits_through_nil in Hn2, Hf2.
      assert (Hiff : bool_decide (x ∈ c :: path) = bool_decide (x ∈ path)).
      { apply bool_decide_ext. rewrite elem_of_cons.
        split; [by intros [?|?]|by right]. }
      rewrite Hiff. done.
Qed.

Lemma visited_along_links paths pool pool' :
  visited_along paths pool pool' -> same_links pool pool'.
Proof.
  intros [Hlen H]. split; [done|]. intros c nd Hc.
  destruct (H c nd Hc) as (nd' & Hc' & Hp & Hch & Hsb & _). by exists nd'.
Qed.

Lemma visited_along_cons path paths pool pool1 pool2 :
  visited_along [path] pool pool1 -> visited_along paths pool1 pool2 ->
  visited_along (path :: paths) pool pool2.
Proof.
  intros [Hl1 H1] [Hl2 H2]. split; [congruence|]. intros c nd Hc.
  destruct (H1 c nd Hc) as (nd1 & Hc1 & Hp1 & Hch1 & Hsb1 & Hn1 & Hf1).
  destruct (H2 c nd1 Hc1) as (nd2 & Hc2 & Hp2 & Hch2 & Hsb2 & Hn2 & Hf2).
  exists nd2. split; [done|].
  rewrite visits_through_cons. rewrite visits_through_cons in Hn1, Hf1.
  rewrite visits_through_nil in Hn1, Hf1.
  repeat split; try congruence; lia.
Qed.

(** The node-update loop of [Worker], when it returns: every node of the
    batch has a path up to the root, and the arena is visited along these
    paths. *)
Lemma backup_all_walk root :
  forall nodes_to_process pool best pool' best',
  backup_all pool root best nodes_to_process = Some (pool', best') ->
  exists paths,
    Forall2 (path_to_root pool root) nodes_to_process paths /\
    visited_along paths pool pool'.
Proof.
  induction nodes_to_process as [|node rest IH];
    intros pool best pool' best' Hb; simpl in Hb.
  { injection Hb as <- <-. exists []. split; [constructor|].
    apply visited_along_nil. }
  destruct (backup pool root best node) as [[pool1 best1]|] eqn:H1;
    simpl in Hb; [|done].
  unfold backup in H1.
  destruct (pool !! node) as [nd|]; simpl in H1; [|done].
  apply backup_loop_walk in H1 as (rootnd & path & Hroot & Hpath & Hvis).
  destruct (IH _ _ _ _ Hb) as (paths & Hpaths & Hvis').
  pose proof (visited_along_links _ _ _ Hvis) as Hl.
  exists (path :: paths). split; [|by eapply visited_along_cons].
  constructor; [by exists rootnd|].
  eapply Forall2_impl; [exact Hpaths|].
  intros x l (rootnd1 & Hroot1 & Hch).
  exists rootnd. split; [done|].
  destruct (proj2 Hl _ _ Hroot) as (r1 & Hr1 & Hpr & _).
  assert (r1 = rootnd1) as -> by congruence. rewrite Hpr in Hch.
  (* back from [pool1] to [pool]: the links are the same *)
  eapply chain_same_links; [|exact Hch].
  intros y yn Hy.
  assert (Hlt : (y < length pool)%nat).
  { rewrite <- (proj1 Hvis). by eapply lookup_lt_Some. }
  destruct (lookup_lt_is_Some_2 pool y Hlt) as [y0 Hy0].
  destruct (proj2 Hvis _ _ Hy0) as (y1 & Hy1 & Hpy & _).
  exists y0. split; [done|]. congruence.
Qed.

End BatchVisits.

(* ------------------------------------------------------------------ *)
(** ** The batch of a turn *)

Section TurnBatch.
Context {Move Board InputPlanes NNCache : Type}.
Context {collab : Collaborators Move Board InputPlanes NNCache}.
Implicit Types (pool : list (Node Move Board)).
Implicit Types (s : Search Move Board NNCache).




(** One turn of the loop of [Worker] gathers a batch and backs it up. *)
Lemma Worker_iteration_batch s s' :
  Worker_iteration s = Some s' ->
  exists ts paths, batch_done s s' ts paths.
Proof.
  intros Hs.
  apply Worker_iteration_phases in Hs
    as (s1 & comp & nodes & new_nodes & comp2 & pool3 & pool4 & best & s4 & s5
        & Hg & _ & Hnn & Hb & Hp4 & _ & _ & Htp4 & _ & Hout & Hstop).
  apply gather_trace in Hg
    as (ts & Hts & Hnodes & Hcomp & Hnew & Hk & Hmiss & Hend & _); [|lia].
  simpl in Hnodes, Hnew, Hcomp. subst nodes new_nodes comp.
  apply backup_all_walk in Hb as (paths & Hpaths & Hvis).
  apply MaybeOutputInfo_frame in Hout as (Hp5 & _ & _ & Htp5 & _).
  apply MaybeTriggerStop_fields in Hstop as (Hp' & _ & Htp').
  assert (Hpool' : node_pool_ s' = pool4) by congruence.
  exists ts, paths. unfold batch_done. cbv zeta.
  exists (node_pool_ s1), pool3.
  split; [exact Hts|]. split.
  { unfold gathering_done. split; [exact Hk|]. split.
    - intros j Hj. apply (Hmiss j); lia.
    - destruct Hend as [[Hend Hp]|Hend]; [left|by right].
      split; [|done]. destruct Hend as [Hend|[Hend1 Hend2]]; [by left|].
      right. split; [lia|done]. }
  split.
  { destruct (negb (GetBatchSize comp2 =? 0)).
    - by eapply apply_nn_outputs_frame.
    - subst pool3. apply eval_only_refl. }
  rewrite Hpool'. split; [|split; [done|lia]].
  pose proof (visited_along_links _ _ _ Hvis) as Hl.
  eapply Forall2_impl; [exact Hpaths|].
  intros x l (rootnd & Hroot & Hch).
  destruct (proj2 Hl _ _ Hroot) as (r4 & Hr4 & Hpr & _).
  exists r4. split; [done|]. rewrite Hpr.
  eapply chain_links; [exact Hl| |exact Hch]. auto.
Qed.


End TurnBatch.

(* ------------------------------------------------------------------ *)
(** ** The stop flag and the latch between the two checks of a turn *)

Section Window.
Context {Move Board InputPlanes NNCache : Type}.
Context {collab : Collaborators Move Board InputPlanes NNCache}.
Implicit Types (s : Search Move Board NNCache).





End Window.


(* ------------------------------------------------------------------ *)
(** ** Best move and ponder move *)

Section BestMove.
Context {Move Board InputPlanes NNCache : Type}.
Context {collab : Collaborators Move Board InputPlanes NNCache}.

(** C3.  Let the root have the children [cs], not none, with counters that
    fit an [int], and let every child's own children be a well-formed child
    list with such counters.  Then [GetBestMoveInternal] answers with the
    move of the root child [best] that has the greatest [n + n_in_flight],
    the first such child in child-list order.  Its ponder move is the null
    move when [best] has no children, and otherwise the move of the child
    of [best] chosen by the same rule.  (Each move is mirrored according to
    [flipped] of the board of [best].) *)
Theorem best_move_is_most_visited_child (s : Search Move Board NNCache)
  (cs : list ptr) :
  let pool := node_pool_ s in
  children pool (root_node_ s) cs ->
  cs <> [] ->
  counters_fit_int pool cs ->
  (forall c, c ∈ cs ->
     exists gs, children pool c gs /\ counters_fit_int pool gs) ->
  exists best bnd ponder,
    most_visited pool cs best /\
    pool !! best = Some bnd /\
    GetBestMoveInternal s
    = Some (if negb (flipped (board bnd)) then Move_Mirror (move bnd)
            else move bnd,
            ponder) /\
    forall gs, children pool best gs ->
      match gs with
      | [] => ponder = Move_null
      | _ :: _ =>
          exists g gnd,
            most_visited pool gs g /\ pool !! g = Some gnd /\
            ponder = if flipped (board bnd) then Move_Mirror (move gnd)
                     else move gnd
      end.
Proof.
  intros pool Hcs Hne Hfit Hgrand.
  destruct (GetBestChild_most_visited _ _ _ Hcs Hne Hfit) as (best & Hbest & Hmv).
  assert (Hin : best ∈ cs).
  { destruct Hmv as (i & Hi & _). by eapply list_elem_of_lookup_2. }
  destruct (Hgrand best Hin) as (gs & Hgs & Hgfit).
  pose proof Hgs as (bnd & Hbnd & Hgch).
  pose proof Hcs as (rootnd & Hroot & Hrch).
  assert (Hrc : child rootnd <> None).
  { intros Hc. apply Hne. by apply (children_nil_iff _ _ _ _ Hroot Hcs). }
  unfold GetBestMoveInternal. fold pool. rewrite Hroot. simpl.
  destruct (child rootnd) as [c0|] eqn:Hc0; [|done].
  rewrite Hbest. simpl. rewrite Hbnd. simpl.
  destruct gs as [|g0 gs'].
  - assert (Hbc : child bnd = None).
    { by apply (children_nil_iff _ _ _ _ Hbnd Hgs). }
    rewrite Hbc. simpl.
    exists best, bnd, Move_null. repeat split; try done.
    intros gs2 Hgs2. by rewrite (children_det _ _ _ _ Hgs2 Hgs).
  - destruct (GetBestChild_most_visited _ _ _ Hgs ltac:(done) Hgfit)
      as (g & Hg & Hgmv).
    assert (Hgin : g ∈ g0 :: gs').
    { destruct Hgmv as (i & Hi & _). by eapply list_elem_of_lookup_2. }
    destruct (chain_lookup _ _ _ _ _ _ Hgch Hgin) as [gnd Hgnd].
    destruct (child bnd) as [c1|] eqn:Hbc.
    2:{ assert (g0 :: gs' = []); [|done].
        by apply (children_nil_iff _ _ _ _ Hbnd Hgs). }
    rewrite Hg. simpl. rewrite Hgnd. simpl.
    eexists best, bnd, _. repeat split; try done.
    intros gs2 Hgs2. rewrite (children_det _ _ _ _ Hgs2 Hgs).
    by exists g, gnd.
Qed.

End BestMove.

(** In [Toy.small_tree] the second root child has the most visits started,
    and of its children the first one has. *)
Example best_move_small_tree :
  GetBestMoveInternal (Toy.search Toy.small_tree Toy.no_limits) = Some (-2, 1).
Proof. reflexivity. Qed.

Lemma best_move_is_most_visited_child_witness :
  let s := Toy.search Toy.small_tree Toy.no_limits in
  let pool := node_pool_ s in
  children pool (root_node_ s) [1; 2]%nat /\
  exists best bnd ponder,
    most_visited pool [1; 2]%nat best /\
    pool !! best = Some bnd /\
    GetBestMoveInternal s
    = Some (if negb (flipped (board bnd)) then Move_Mirror (move bnd)
            else move bnd,
            ponder) /\
    forall gs, children pool best gs ->
      match gs with
      | [] => ponder = Move_null
      | _ :: _ =>
          exists g gnd,
            most_visited pool gs g /\ pool !! g = Some gnd /\
            ponder = if flipped (board bnd) then Move_Mirror (move gnd)
                     else move gnd
      end.
Proof.
  intros s pool.
  assert (Hcs : children pool (root_node_ s) [1; 2]%nat).
  { eexists. split; [reflexivity|]. simpl. chain_tac. }
  split; [exact Hcs|].
  apply (best_move_is_most_visited_child s [1; 2]%nat Hcs).
  - discriminate.
  - members_tac ltac:(vm_compute; split; discriminate).
  - members_tac ltac:(
      first [ exists []; split;
              [eexists; split; [reflexivity|simpl; chain_tac]
              |members_tac ltac:(idtac)]
            | exists [3; 4]%nat; split;
              [eexists; split; [reflexivity|simpl; chain_tac]
              |members_tac ltac:(vm_compute; split; discriminate)] ]).
Defined.

(* ------------------------------------------------------------------ *)
(** ** The best-move callback, the limits and the worker loop *)

Section Lifetime.
Context {Move Board InputPlanes NNCache : Type}.
Context {collab : Collaborators Move Board InputPlanes NNCache}.
Implicit Types (s : Search Move Board NNCache).

(** C6.  Along any life [evs] of a search object that starts with no
    callback made and that reaches [s']:
    - the best-move callback was invoked at most once;
    - a stop check that ends with the stop flag set, run while the latch
      [responded_bestmove_] is unset, invokes it exactly once and sets the
      latch; one that ends with the flag unset, or that finds the latch set,
      does not invoke it;
    - once the latch is set, in particular after [Abort] or after the
      destructor, no later event invokes it. *)
Theorem best_move_callback_at_most_once s evs s' :
  callbacks s = [] ->
  run evs s = Some s' ->
  (best_move_calls (callbacks s') <= 1)%nat /\
  (forall s1 s2, MaybeTriggerStop s1 = Some s2 ->
     if stop_ s2 && negb (responded_bestmove_ s1)
     then best_move_calls (callbacks s2) = S (best_move_calls (callbacks s1))
          /\ responded_bestmove_ s2 = true
     else best_move_calls (callbacks s2) = best_move_calls (callbacks s1)
          /\ responded_bestmove_ s2 = responded_bestmove_ s1) /\
  (forall s1 later s2,
     responded_bestmove_ s1 = true ->
     run later s1 = Some s2 ->
     best_move_calls (callbacks s2) = best_move_calls (callbacks s1)) /\
  (forall s1 later s2,
     run later (Abort s1) = Some s2 \/ run later (Destroy s1) = Some s2 ->
     best_move_calls (callbacks s2) = best_move_calls (callbacks s1)).
Proof.
  intros Hnone Hrun. split; [|split; [|split]].
  - destruct (responded_bestmove_ s) eqn:Hr.
    + destruct (run_latched _ _ _ Hr Hrun) as [_ ->]. rewrite Hnone. simpl. lia.
    + pose proof (run_unlatched _ _ _ Hr Hrun) as Hle.
      rewrite Hnone in Hle. simpl in Hle. lia.
  - intros s1 s2 Hs.
    apply MaybeTriggerStop_spec in Hs as (_ & -> & Hs).
    destruct (stop_ (check_limits s1) && negb (responded_bestmove_ s1));
      destruct Hs as [Hs1 Hs2]; by split.
  - intros s1 later s2 Hr Hlater.
    by destruct (run_latched _ _ _ Hr Hlater) as [_ ->].
  - intros s1 later s2 [Hlater|Hlater].
    + by destruct (run_latched later (Abort s1) s2 eq_refl Hlater) as [_ ->].
    + by destruct (run_latched later (Destroy s1) s2 eq_refl Hlater) as [_ ->].
Qed.

(** C9.  A negative limit switches its stop condition off: the condition
    is false whatever the counters and the clock say.  With all three limits
    negative the limit checks of [MaybeTriggerStop] leave the stop flag as
    it is, so a search whose flag is unset keeps it unset through any
    number of worker turns and stop checks: only [Stop], [Abort] or the
    destructor set it. *)
Theorem negative_limit_disables_stop_condition s :
  (playouts (limits_ s) < 0 -> playouts_condition s = false) /\
  (visits (limits_ s) < 0 -> visits_condition s = false) /\
  (time_ms (limits_ s) < 0 -> (time_condition s).1 = false) /\
  (no_limit s -> stop_ (check_limits s) = stop_ s) /\
  (forall evs s',
     no_limit s -> stop_ s = false ->
     forallb is_worker_event evs = true ->
     run evs s = Some s' -> stop_ s' = false) /\
  stop_ (Stop s) = true /\ stop_ (Abort s) = true /\ stop_ (Destroy s) = true.
Proof.
  unfold playouts_condition, visits_condition, time_condition.
  repeat split.
  - intros Hneg. destruct (Z.leb_spec 0 (playouts (limits_ s))); [lia|done].
  - intros Hneg. destruct (Z.leb_spec 0 (visits (limits_ s))); [lia|done].
  - intros Hneg. destruct (Z.leb_spec 0 (time_ms (limits_ s))); [lia|done].
  - apply check_limits_no_limit.
  - intros evs s' Hno Hst Hevs Hrun.
    rewrite <- Hst. by eapply run_workers_no_limit.
Qed.


End Lifetime.

(** The life [a_life] of a fresh search: the one best-move callback is the
    one made by the stop check that follows [Stop]. *)
Example a_life_callbacks :
  (fun o => match o with
            | Some s => Some (best_move_calls (callbacks s))
            | None => None
            end)
    (run a_life fresh_search) = Some 1%nat.
Proof. vm_compute. reflexivity. Qed.

Lemma best_move_callback_at_most_once_witness :
  exists s',
    callbacks fresh_search = [] /\
    run a_life fresh_search = Some s' /\
    (best_move_calls (callbacks s') <= 1)%nat.
Proof.
  destruct (run a_life fresh_search) as [s'|] eqn:Hrun.
  - exists s'. split; [reflexivity|]. split; [reflexivity|].
    exact (proj1 (best_move_callback_at_most_once fresh_search a_life s'
                    eq_refl Hrun)).
  - exfalso. vm_compute in Hrun. discriminate Hrun.
Defined.

(** A worker started on a fresh search whose stop flag is already set,
    with no other thread at work, still visits the root once and answers
    with a best move. *)
Example stopped_worker_turn :
  (fun o => match o with
            | Some s => Some (total_playouts_ s, n <$> node_pool_ s !! 0%nat,
                              best_move_calls (callbacks s))
            | None => None
            end)
    (Worker [mkInterference [] []] (Stop fresh_search))
  = Some (1, Some 1, 1%nat).
Proof. vm_compute. reflexivity. Qed.

Lemma negative_limit_disables_stop_condition_witness :
  no_limit fresh_search /\
  stop_ (check_limits fresh_search) = stop_ fresh_search /\
  exists s', run [WorkerTurn; WorkerCheck; WorkerTurn] fresh_search = Some s' /\
             stop_ s' = false.
Proof.
  assert (Hno : no_limit fresh_search).
  { unfold no_limit. simpl. lia. }
  pose proof (negative_limit_disables_stop_condition fresh_search)
    as (_ & _ & _ & Hcheck & Hrun & _).
  split; [exact Hno|]. split; [exact (Hcheck Hno)|].
  destruct (run [WorkerTurn; WorkerCheck; WorkerTurn] fresh_search)
    as [s'|] eqn:Hs'.
  - exists s'. split; [reflexivity|].
    exact (Hrun [WorkerTurn; WorkerCheck; WorkerTurn] s' Hno eq_refl eq_refl Hs').
  - exfalso. vm_compute in Hs'. discriminate Hs'.
Defined.


(* ------------------------------------------------------------------ *)
(** ** The expander *)

Section Expander.
Context {Move Board InputPlanes NNCache : Type}.
Context {collab : Collaborators Move Board InputPlanes NNCache}.
Implicit Types (pool : list (Node Move Board)).

(** C2.  Given a node that is not yet terminal, [ExtendNode] returns, and
    what it does follows the rules of the specification in their order,
    the first that matches winning: no legal move (value 1 under check, 0
    otherwise), no mating material (0), 50-move counter of 100 or more (0),
    two or more repetitions (0).  When a rule matches the node becomes
    terminal with that value and nothing is allocated.  When none does the
    node stays non-terminal, keeps its value, and gets one new child per
    legal move, in move order, each with the node as parent, the move, the
    mirrored board, the updated 50-move counter and the next ply. *)
Theorem expander_terminal_detection pool node nd :
  pool !! node = Some nd ->
  is_terminal nd = false ->
  let valid_moves := GenerateValidMoves (board nd) in
  exists pool' nd',
    ExtendNode pool node = Some pool' /\
    pool' !! node = Some nd' /\
    match terminal_value (bool_decide (valid_moves = []))
            (IsUnderCheck (board nd)) (HasMatingMaterial (board nd))
            (no_capture_ply nd) (ComputeRepetitions pool node) with
    | Some x =>
        is_terminal nd' = true /\ v nd' = x /\
        child nd' = child nd /\ length pool' = length pool
    | None =>
        is_terminal nd' = false /\ v nd' = v nd /\
        length pool' = (length pool + length valid_moves)%nat /\
        children pool' node (seq (length pool) (length valid_moves)) /\
        forall i mv, valid_moves !! i = Some mv ->
          exists cnd,
            pool' !! (length pool + i)%nat = Some cnd /\
            parent cnd = Some node /\
            move cnd = mb_move mv /\
            board cnd = Board_Mirror (mb_board mv) /\
            no_capture_ply cnd
            = (if reset_50_moves mv then 0 else no_capture_ply nd + 1) /\
            ply_count cnd = ply_count nd + 1 /\
            child cnd = None /\ n cnd = 0 /\ n_in_flight cnd = 0
    end.
Proof.
  intros Hnd Hterm valid_moves.
  assert (Hnode : (node < length pool)%nat) by (by eapply lookup_lt_Some).
  unfold ExtendNode, terminal_value. rewrite Hnd. simpl. fold valid_moves.
  destruct valid_moves as [|mv0 rest] eqn:Hmoves.
  { rewrite bool_decide_eq_true_2 by done.
    destruct (IsUnderCheck (board nd));
      eexists _, _; (split; [done|]);
      (split; [by apply list_lookup_insert_eq|]);
      by rewrite length_insert. }
  rewrite bool_decide_eq_false_2 by done.
  destruct (HasMatingMaterial (board nd)); cbn [negb].
  2:{ eexists _, _. split; [done|]. split; [by apply list_lookup_insert_eq|].
      by rewrite length_insert. }
  destruct (100 <=? no_capture_ply nd).
  { eexists _, _. split; [done|]. split; [by apply list_lookup_insert_eq|].
    by rewrite length_insert. }
  change (repetitions (set_repetitions (ComputeRepetitions pool node) nd))
    with (ComputeRepetitions pool node).
  destruct (2 <=? ComputeRepetitions pool node).
  { eexists _, _. split; [done|]. split; [by apply list_lookup_insert_eq|].
    by rewrite length_insert. }
  set (nd1 := set_repetitions (ComputeRepetitions pool node) nd).
  set (pool1 := <[node := nd1]> pool).
  assert (Hnd1 : pool1 !! node = Some nd1) by (by apply list_lookup_insert_eq).
  assert (Hlen1 : length pool1 = length pool) by apply length_insert.
  rewrite (add_children_eq _ _ _ _ _ Hnd1) by lia.
  simpl link_first. rewrite bool_decide_eq_true_2 by done.
  rewrite Hlen1.
  set (L := alter (set_child (Some (length pool))) node pool1).
  assert (HL : length L = length pool) by (unfold L; by rewrite length_alter).
  assert (HLn : L !! node = Some (set_child (Some (length pool)) nd1)).
  { unfold L. by rewrite list_lookup_alter_eq, Hnd1. }
  eexists _, _. split; [done|].
  split; [by apply lookup_app_l_Some|].
  split; [done|]. split; [done|].
  split; [by rewrite length_app, HL, length_new_children|].
  split.
  - eexists. split; [by apply lookup_app_l_Some|]. simpl child.
    by apply new_children_chain.
  - intros i mv Hi.
    destruct (new_children_lookup _ (length pool) node (no_capture_ply nd1)
                (ply_count nd1) _ _ Hi) as (sib & Hsib).
    eexists. split.
    { rewrite lookup_app_r by lia.
      replace (length pool + i - length L)%nat with i by lia. exact Hsib. }
    by repeat split.
Qed.

End Expander.

(** A node at a position with two moves gets two children; one at a
    position with none, under check, becomes a won terminal. *)
Example expand_root :
  (fun o => match o with
            | Some pool => Some (map (fun nd => (child nd, sibling nd, move nd,
                                                 is_terminal nd)) pool)
            | None => None
            end) (ExtendNode root_only 0%nat)
  = Some [(Some 1%nat, None, 0, false); (None, Some 2%nat, 1, false);
          (None, None, 2, false)].
Proof. reflexivity. Qed.

(** A node at a position without moves, under check, becomes a terminal
    with value 1. *)
Example expand_checkmate :
  (fun o => match o with
            | Some pool => Some (map (fun nd => (is_terminal nd, v nd)) pool)
            | None => None
            end)
    (ExtendNode [Toy.node None None None 0 3 0 1 F32.zero F32.zero F32.zero]
       0%nat)
  = Some [(true, F32.one)].
Proof. vm_compute. reflexivity. Qed.

Lemma expander_terminal_detection_witness :
  exists pool' nd',
    ExtendNode root_only 0%nat = Some pool' /\
    pool' !! 0%nat = Some nd' /\
    is_terminal nd' = false /\
    children pool' 0%nat [1; 2]%nat.
Proof.
  destruct (expander_terminal_detection root_only 0%nat
              (Toy.node None None None 0 0 0 0 F32.zero F32.zero F32.zero)
              eq_refl eq_refl)
    as (pool' & nd' & Hext & Hnd' & Hrule).
  exists pool', nd'. split; [exact Hext|]. split; [exact Hnd'|].
  exact (conj (proj1 Hrule) (proj1 (proj2 (proj2 (proj2 Hrule))))).
Defined.

(* ------------------------------------------------------------------ *)
(** ** Backup *)

Section Backup.
Context {Move Board : Type}.
Implicit Types (pool : list (Node Move Board)).

(** C1.  Let [path] be the nodes from the processed node up to where the
    parent of the root is reached (the root is the last of them when the
    node lies under it), every one of them with a well-formed child list,
    and let [best_move_node_] be null or a node of the arena.  Then the
    backup of the node returns; it changes no link; at the [i]-th node of
    the path it adds the node's value [v], sign-flipped [i] times, to [w],
    adds 1 to [n], takes 1 from [n_in_flight] and sets [q] to [w / n]; it
    leaves every node off the path as it was; and if [q == w / n] held at
    every node with [n > 0] before, it holds at every such node after.
    ([q == w / n] is stated as: [q] is the float that [w / n] evaluates
    to; see [q_is_mean_compares_equal] for the comparison.) *)
Theorem backup_walks_to_root pool root best node nd path :
  pool !! node = Some nd ->
  path_to_root pool root node path ->
  (forall c, c ∈ path -> exists cs, children pool c cs) ->
  (forall b, best = Some b -> is_Some (pool !! b)) ->
  exists pool' best',
    backup pool root best node = Some (pool', best') /\
    same_links pool pool' /\
    (forall i c cn, path !! i = Some c -> pool !! c = Some cn ->
       exists cn', pool' !! c = Some cn' /\
                   backed_up (flipped_value i (v nd)) cn cn') /\
    (forall c, c ∉ path -> pool' !! c = pool !! c) /\
    (q_is_mean pool -> q_is_mean pool').
Proof.
  intros Hnd (rootnd & Hroot & Hch) Hkids Hbest.
  unfold backup. rewrite Hnd. cbn [mbind option_bind].
  destruct (backup_loop_spec root (parent rootnd) path pool (Some node)
              (length pool) best (v nd) 0
              (if is_terminal nd then 999 else 0) true)
    as (pool' & best' & Hloop & Hlinks & Hout & Hin);
    [by exists rootnd|done|by eapply chain_length|done|done|].
  exists pool', best'. do 4 (split; [done|]).
  intros Hq c cn' Hcn' Hpos.
  destruct (decide (c ∈ path)) as [Hc|Hc].
  - apply list_elem_of_lookup_1 in Hc as [i Hi].
    destruct (chain_lookup _ _ _ _ _ c Hch) as [cn Hcn];
      [by eapply list_elem_of_lookup_2|].
    destruct (Hin i c cn Hi Hcn) as (cn2 & Hcn2 & _ & _ & _ & Hq2).
    congruence.
  - rewrite (Hout _ Hc) in Hcn'. by eapply Hq.
Qed.

End Backup.

(** Backing up node 3 of [Toy.small_tree] goes through nodes 3, 2 and 0. *)
Example backup_small_tree :
  (fun o => match o with
            | Some (pool, best) =>
                Some (map (fun nd => (n nd, n_in_flight nd)) pool, best)
            | None => None
            end) (backup Toy.small_tree 0%nat None 3%nat)
  = Some ([(4, -1); (1, 0); (2, 0); (1, 0); (0, 0)], Some 2%nat).
Proof. reflexivity. Qed.

Lemma backup_walks_to_root_witness :
  path_to_root Toy.small_tree 0%nat 3%nat [3; 2; 0]%nat /\
  q_is_mean Toy.small_tree /\
  exists pool' best',
    backup Toy.small_tree 0%nat None 3%nat = Some (pool', best') /\
    q_is_mean pool'.
Proof.
  assert (Hpath : path_to_root Toy.small_tree 0%nat 3%nat [3; 2; 0]%nat).
  { eexists. split; [reflexivity|]. simpl. chain_tac. }
  assert (Hq : q_is_mean Toy.small_tree).
  { intros [|[|[|[|[|c]]]]] nd Hnd Hpos; simpl in Hnd;
      try (injection Hnd as <-; simpl in Hpos; try lia; reflexivity).
    discriminate Hnd. }
  split; [exact Hpath|]. split; [exact Hq|].
  destruct (backup_walks_to_root Toy.small_tree 0%nat None 3%nat _ [3; 2; 0]%nat
              eq_refl Hpath)
    as (pool' & best' & Hbk & _ & _ & _ & Hmean).
  - members_tac ltac:(
      first [ exists []; eexists; split; [reflexivity|simpl; chain_tac]
            | exists [3; 4]%nat; eexists; split; [reflexivity|simpl; chain_tac]
            | exists [1; 2]%nat; eexists; split; [reflexivity|simpl; chain_tac] ]).
  - discriminate.
  - exists pool', best'. split; [exact Hbk|exact (Hmean Hq)].
Defined.

(* ------------------------------------------------------------------ *)
(** ** The selector *)

Section Selector.
Context {Move Board : Type}.
Implicit Types (pool : list (Node Move Board)).

(** C4, as amended.  One turn of the loop of [PickNodeToExtend] at a node
    [nd].
    - If the node is reserved ([n == 0] and [n_in_flight > 0], with or
      without children) the selector returns null at once; on the way it
      has taken 1 from [n_in_flight] at every strict ancestor of the node up
      to the root inclusive, and has left every other node, the reserved
      node among them, as it was.
    - Otherwise it adds 1 to [n_in_flight] of the node and changes nothing
      else.  If the node has no children it returns the node.  If it has
      children, none of whose scores is NaN and one of whose scores is
      above the initial -100, it goes on from the child with the highest
      PUCT score, the first such child in child-list order. *)
Theorem selector_turn pool root cpuct node nd fuel :
  pool !! node = Some nd ->
  (reserved nd = true ->
   forall ancestors,
     path_to_root pool root node (node :: ancestors) ->
     exists pool',
       PickNodeToExtend_loop (S fuel) pool root cpuct node = Some (pool', None) /\
       (forall c cn, c ∈ ancestors -> pool !! c = Some cn ->
          pool' !! c = Some (set_n_in_flight (n_in_flight cn - 1) cn)) /\
       (forall c, c ∉ ancestors -> pool' !! c = pool !! c) /\
       pool' !! node = Some nd)
  /\
  (reserved nd = false ->
   let pool1 := <[node := set_n_in_flight (n_in_flight nd + 1) nd]> pool in
   (child nd = None ->
    PickNodeToExtend_loop (S fuel) pool root cpuct node
    = Some (pool1, Some node)) /\
   (forall cs,
      children pool node cs -> cs <> [] -> node ∉ cs ->
      (forall c, c ∈ cs -> child_score pool cpuct nd c <> S754_nan) ->
      (exists c, c ∈ cs /\
         F32.gtb (child_score pool cpuct nd c) (F32.of_Z (-100)) = true) ->
      exists i best,
        first_best SFltb (child_score pool cpuct nd) cs i best /\
        PickNodeToExtend_loop (S fuel) pool root cpuct node
        = PickNodeToExtend_loop fuel pool1 root cpuct best)).
Proof.
  intros Hnd.
  assert (Hnode : (node < length pool)%nat) by (by eapply lookup_lt_Some).
  split.
  - intros Hres ancestors (rootnd & Hroot & Hch).
    inversion Hch as [|c' nd0 l Hne Hnd0 Hrest]; subst.
    assert (nd0 = nd) as -> by congruence.
    pose proof (chain_NoDup _ _ _ _ _ Hch) as Hnodup.
    apply NoDup_cons in Hnodup as [Hnotin _].
    destruct (unwind_spec root (parent rootnd) ancestors pool (parent nd)
                (length pool))
      as (pool' & Hun & _ & Hout & Hin);
      [by exists rootnd|done|by eapply chain_length|].
    exists pool'. split.
    { simpl. unfold pick_step. rewrite Hnd. cbn [mbind option_bind].
      unfold reserved in Hres. rewrite Hres, Hun. done. }
    split; [done|]. split; [done|]. by rewrite (Hout _ Hnotin).
  - intros Hres pool1. unfold reserved in Hres. split.
    + intros Hleaf. simpl. unfold pick_step.
      rewrite Hnd. cbn [mbind option_bind]. rewrite Hres.
      simpl child. by rewrite Hleaf.
    + intros cs (nd0 & Hnd0 & Hch) Hne Hself Hnan (c0 & Hc0 & Hgt).
      assert (nd0 = nd) as -> by congruence.
      set (nd1 := set_n_in_flight (n_in_flight nd + 1) nd).
      assert (Hl1 : same_links pool pool1) by (by eapply same_links_insert).
      assert (Hch1 : chain sibling pool1 None (child nd) cs).
      { eapply chain_links; [exact Hl1| |exact Hch]. auto. }
      assert (Hkey : forall c, c ∈ cs ->
                child_score pool1 cpuct nd1 c = child_score pool cpuct nd c).
      { intros c Hc. unfold child_score, pool1.
        rewrite list_lookup_insert_ne; [done|]. by intros ->. }
      destruct (fold_best_spec SFltb (child_score pool1 cpuct nd1)
                  SFltb_irrefl SFltb_trans cs (F32.of_Z (-100)) None)
        as [[Hno _]|(i & best & Hfb & _ & Heq)].
      { intros c Hc. rewrite (Hkey c Hc). apply SFltb_placeable.
        by apply Hnan. }
      { specialize (Hno c0 Hc0). rewrite (Hkey c0 Hc0) in Hno.
        unfold F32.gtb in Hgt. congruence. }
      exists i, best. split.
      { eapply first_best_ext; [|exact Hfb]. exact Hkey. }
      simpl. unfold pick_step.
      rewrite Hnd. cbn [mbind option_bind]. rewrite Hres.
      fold nd1. fold pool1.
      destruct (child nd1) as [k|] eqn:Hk.
      2:{ simpl in Hk. rewrite Hk in Hch. inversion Hch; subst. done. }
      rewrite <- Hk. simpl child.
      rewrite (pick_child_fold _ pool1 cpuct nd1 _ cs);
        [|done|by eapply chain_length].
      rewrite Heq. done.
Qed.

End Selector.

(** C4, as stated, fails at the root of [expanded_root].  That root has
    children, so it is not a leaf, and the statement puts it under "every
    other case": [n_in_flight] incremented, descent to the best child.  But
    its [n] is 0 and its [n_in_flight] is 1, and the selector returns null
    and leaves the arena as it is.  The worker meets this state on its own:
    it is where the second pick of the first batch of [fresh_search]
    lands. *)
Lemma selector_gives_up_at_expanded_node :
  exists nd,
    expanded_root !! 0%nat = Some nd /\
    child nd = Some 1%nat /\
    n nd = 0 /\ n_in_flight nd = 1 /\
    PickNodeToExtend expanded_root 0%nat Toy.cpuct 0%nat
    = Some (expanded_root, None) /\
    ~ (exists pool1 c,
         pick_step expanded_root 0%nat Toy.cpuct 0%nat
         = Some (PickDescend pool1 c) \/
         pick_step expanded_root 0%nat Toy.cpuct 0%nat
         = Some (PickFound pool1 c)).
Proof.
  eexists. split; [reflexivity|]. do 3 (split; [reflexivity|]).
  split; [vm_compute; reflexivity|].
  intros (pool1 & c & [H|H]); vm_compute in H; discriminate H.
Qed.

(** The first batch of [fresh_search] gathers the root alone: the second
    pick comes back with null from the arena [expanded_root]. *)
Example first_batch_stops_at_expanded_root :
  (fun r => (node_pool_ r.1.1.1, r.1.2, r.2))
    <$> gather 16 0 fresh_search [] [] 0
  = Some (expanded_root, [0%nat], 1).
Proof. vm_compute. reflexivity. Qed.

(** At the root of [Toy.small_tree] the selector goes on to node 1, whose
    score is the higher one; at node 3, which is reserved, it gives up and
    takes the reservations back from nodes 2 and 0. *)
Example pick_in_small_tree :
  (fun o => match o with
            | Some (pool, picked) => Some (map n_in_flight pool, picked)
            | None => None
            end)
    (PickNodeToExtend Toy.small_tree 0%nat Toy.cpuct 0%nat)
  = Some ([1; 1; 1; 1; 0], Some 1%nat).
Proof. reflexivity. Qed.

Example pick_reserved_in_small_tree :
  (fun o => match o with
            | Some (pool, picked) => Some (map n_in_flight pool, picked)
            | None => None
            end)
    (PickNodeToExtend Toy.small_tree 0%nat Toy.cpuct 3%nat)
  = Some ([-1; 0; 0; 1; 0], None).
Proof. reflexivity. Qed.

Lemma selector_turn_witness :
  (exists pool',
     PickNodeToExtend_loop 1 Toy.small_tree 0%nat Toy.cpuct 3%nat
     = Some (pool', None) /\
     n_in_flight <$> pool' !! 2%nat = Some 0 /\
     n_in_flight <$> pool' !! 3%nat = Some 1) /\
  (exists i best,
     first_best SFltb
       (child_score Toy.small_tree Toy.cpuct
          (Toy.node None (Some 1%nat) None 0 0 3 0 F32.zero F32.zero F32.zero))
       [1; 2]%nat i best /\
     PickNodeToExtend_loop 6 Toy.small_tree 0%nat Toy.cpuct 0%nat
     = PickNodeToExtend_loop 5
         (<[0%nat := set_n_in_flight 1
              (Toy.node None (Some 1%nat) None 0 0 3 0
                 F32.zero F32.zero F32.zero)]> Toy.small_tree)
         0%nat Toy.cpuct best).
Proof.
  split.
  - destruct (proj1 (selector_turn Toy.small_tree 0%nat Toy.cpuct 3%nat _ 0%nat
                       eq_refl) eq_refl [2; 0]%nat)
      as (pool' & Hpick & Hanc & _ & Hself).
    { eexists. split; [reflexivity|]. simpl. chain_tac. }
    exists pool'. split; [exact Hpick|]. split.
    + rewrite (Hanc 2%nat _ ltac:(by left) eq_refl). reflexivity.
    + rewrite Hself. reflexivity.
  - apply (proj2 (selector_turn Toy.small_tree 0%nat Toy.cpuct 0%nat _ 5%nat
                    eq_refl) eq_refl).
    + eexists. split; [reflexivity|]. simpl. chain_tac.
    + discriminate.
    + intros Hin. apply elem_of_cons in Hin as [Hin|Hin]; [discriminate Hin|].
      apply elem_of_cons in Hin as [Hin|Hin]; [discriminate Hin|].
      by apply elem_of_nil in Hin.
    + members_tac ltac:(vm_compute; discriminate).
    + exists 1%nat. split; [by left|]. vm_compute. reflexivity.
Defined.

(* ------------------------------------------------------------------ *)
(** ** The prefetcher *)

(** C5.  On [twin_tree] a call of the prefetcher at the root with budget 3
    answers 4, with four leaves submitted.  The first root child is allotted
    [min(3, 2) = 2] and spends it on its two leaves; 1 is left, but the
    second root child is the last one and is handed the 2 that the first
    was allotted, and spends 2 as well. *)
Theorem prefetch_spends_more_than_budget :
  let s := Toy.search twin_tree Toy.no_limits in
  exists comp,
    PrefetchIntoCache s (root_node_ s) 3 [] = Some (4, comp) /\
    GetCacheMisses comp = 4.
Proof.
  eexists. split.
  - vm_compute. reflexivity.
  - vm_compute. reflexivity.
Qed.

(** The same call with budget 2 stays within it: the first root child
    spends all of it and the loop stops before the last child. *)
Example prefetch_within_budget :
  let s := Toy.search twin_tree Toy.no_limits in
  fst <$> PrefetchIntoCache s (root_node_ s) 2 [] = Some 2.
Proof. vm_compute. reflexivity. Qed.

(* ------------------------------------------------------------------ *)
(** * Further properties of the search *)

(** ** [Toy.small_tree] is a tree with sane scores *)

Lemma small_tree_root_path :
  path_to_root Toy.small_tree 0%nat 0%nat [0%nat].
Proof. eexists. split; [reflexivity|]. simpl. chain_tac. Qed.

Lemma small_tree_is_tree : tree_below Toy.small_tree 0%nat.
Proof.
  intros c anc (rootnd & Hroot & Hch).
  injection Hroot as <-. simpl in Hch.
  assert (Hlt : (c < 5)%nat).
  { destruct (chain_lookup _ _ _ _ _ c Hch) as [x Hx]; [by left|].
    by apply lookup_lt_Some in Hx. }
  do 5 (destruct c as [|c];
        [ match type of Hch with
          | chain ?next ?pool ?stop ?start _ =>
              let H := fresh in
              eassert (H : chain next pool stop start _) by chain_tac;
              let Heq := fresh in
              pose proof (chain_det _ _ _ _ _ _ Hch H) as Heq;
              injection Heq as ->
          end;
          eexists; split;
          [ eexists; split; [reflexivity|simpl; chain_tac]
          | members_tac ltac:(eexists; split; [reflexivity|simpl; chain_tac]) ]
        |]).
  lia.
Qed.

Lemma small_tree_scores_sane : scores_sane Toy.small_tree Toy.cpuct.
Proof.
  intros c nd cs Hc Hcs Hne.
  assert (Hlt : (c < 5)%nat) by (by apply lookup_lt_Some in Hc).
  do 5 (destruct c as [|c];
        [ injection Hc as <-;
          match type of Hcs with
          | children ?pool ?c _ =>
              let H := fresh in
              eassert (H : children pool c _)
                by (eexists; split; [reflexivity|simpl; chain_tac]);
              let Heq := fresh in
              pose proof (children_det _ _ _ _ Hcs H) as Heq;
              subst cs
          end;
          first
            [ done
            | split;
              [ members_tac ltac:(vm_compute; discriminate)
              | eexists; split;
                [apply list_elem_of_here|vm_compute; reflexivity] ] ]
        |]).
  lia.
Qed.

(* ------------------------------------------------------------------ *)
(** ** The selector, from the root to the leaf *)

Section SelectorDescent.
Context {Move Board : Type}.
Implicit Types (pool : list (Node Move Board)).

(** X1.  The whole loop of [PickNodeToExtend], entered at the root of an
    arena that is a tree below the root and whose scores are numbers, one
    of them above -100 wherever there are children.  The loop returns.  If
    it returns null, the arena is exactly as it was before the call: every
    increment of [n_in_flight] made on the way down has been taken back.
    If it returns a node, that node has no children and was not reserved
    ([n == 0] and [n_in_flight > 0]) before the call, and the arena differs
    from the one before the call by one more [n_in_flight] at every node on
    the path from that node up to the root inclusive, and by nothing
    else. *)
Theorem selector_descent pool root cpuct :
  tree_below pool root -> scores_sane pool cpuct ->
  path_to_root pool root root [root] ->
  exists pool' r,
    PickNodeToExtend pool root cpuct root = Some (pool', r) /\
    match r with
    | None => pool' = pool
    | Some leaf =>
        exists path nd,
          path_to_root pool root leaf (leaf :: path) /\
          pool !! leaf = Some nd /\ child nd = None /\
          reserved nd = false /\
          pool' = reserve_path (leaf :: path) pool /\
          forall c,
            pool' !! c
            = (if bool_decide (c ∈ leaf :: path) then reserve_node else id)
                <$> pool !! c
    end.
Proof.
  intros Htree Hsane Hroot.
  destruct (pick_loop_spec pool root cpuct Htree Hsane (S (length pool))
              root [] Hroot) as (pool' & r & Hpick & Hr); [simpl; lia|].
  exists pool', r. split; [exact Hpick|].
  destruct r as [leaf|]; [|done].
  destruct Hr as (path & nd & Hpath & Hnd & Hch & Hres & ->).
  exists path, nd. do 5 (split; [done|]).
  intros c. case_bool_decide as Hc.
  - apply reserve_path_lookup_in; [|done].
    destruct Hpath as (? & _ & Hp). by eapply chain_NoDup.
  - rewrite reserve_path_lookup_out by done. by destruct (pool !! c).
Qed.

(** X2.  Whatever the arena, a call of [PickNodeToExtend] that returns has
    written nothing but [n_in_flight]: the arena has not grown and every
    node is where it was, with its links, its visits, its terminal flag and
    all its other fields as they were.  A node that it returns has no
    children. *)
Theorem selector_only_writes_n_in_flight pool root cpuct node pool' r :
  PickNodeToExtend pool root cpuct node = Some (pool', r) ->
  length pool' = length pool /\
  (forall c nd, pool !! c = Some nd ->
     exists nd', pool' !! c = Some nd' /\
       nd' = set_n_in_flight (n_in_flight nd') nd /\
       parent nd' = parent nd /\ child nd' = child nd /\
       sibling nd' = sibling nd /\ is_terminal nd' = is_terminal nd /\
       n nd' = n nd) /\
  forall c, r = Some c ->
    exists nd, pool' !! c = Some nd /\ child nd = None.
Proof.
  intros Hpick. apply pick_loop_frame in Hpick as [[Hlen Hall] Hleaf].
  split; [exact Hlen|]. split; [|exact Hleaf].
  intros c nd Hc. destruct (Hall c nd Hc) as (nd' & Hc' & Hsame).
  exists nd'. split; [exact Hc'|]. split; [exact Hsame|].
  by apply same_but_flight_fields.
Qed.

End SelectorDescent.

Lemma selector_descent_witness :
  exists pool' r,
    PickNodeToExtend Toy.small_tree 0%nat Toy.cpuct 0%nat = Some (pool', r) /\
    match r with
    | None => pool' = Toy.small_tree
    | Some leaf =>
        exists path nd,
          path_to_root Toy.small_tree 0%nat leaf (leaf :: path) /\
          Toy.small_tree !! leaf = Some nd /\ child nd = None /\
          reserved nd = false /\
          pool' = reserve_path (leaf :: path) Toy.small_tree /\
          forall c,
            pool' !! c
            = (if bool_decide (c ∈ leaf :: path) then reserve_node else id)
                <$> Toy.small_tree !! c
    end.
Proof.
  exact (selector_descent Toy.small_tree 0%nat Toy.cpuct
           small_tree_is_tree small_tree_scores_sane small_tree_root_path).
Defined.

Lemma selector_only_writes_n_in_flight_witness :
  exists pool' r,
    PickNodeToExtend Toy.small_tree 0%nat Toy.cpuct 3%nat = Some (pool', r) /\
    length pool' = length Toy.small_tree.
Proof.
  destruct (PickNodeToExtend Toy.small_tree 0%nat Toy.cpuct 3%nat)
    as [[pool' r]|] eqn:Hpick.
  - exists pool', r. split; [reflexivity|].
    exact (proj1 (selector_only_writes_n_in_flight _ _ _ _ _ _ Hpick)).
  - exfalso. vm_compute in Hpick. discriminate Hpick.
Defined.

(* ------------------------------------------------------------------ *)
(** ** The expander and the batch *)

Section ExpanderAndBatch.
Context {Move Board InputPlanes NNCache : Type}.
Context {collab : Collaborators Move Board InputPlanes NNCache}.
Implicit Types (pool : list (Node Move Board)).
Implicit Types (s : Search Move Board NNCache).

(** X3.  What [ExtendNode] leaves alone.  The arena never shrinks and every
    node but the one that is extended stays exactly as it was.  The node
    itself keeps its links to parent and sibling, its move and board, its
    counters [n] and [n_in_flight], its statistics and its depths: only
    [child], [v], [is_terminal] and [repetitions] may change, and either the
    node is made terminal with its child link kept, or its terminal flag is
    kept and its child link goes to the first new node.  Every node that
    was added is a child of the node that has never been visited, is not in
    flight, is not terminal and has no children.  If the node had no
    children before, its child list afterwards consists of new nodes
    only. *)
Theorem expander_frame pool node nd pool' :
  pool !! node = Some nd ->
  ExtendNode pool node = Some pool' ->
  (length pool <= length pool')%nat /\
  (forall c x, c <> node -> pool !! c = Some x -> pool' !! c = Some x) /\
  (exists nd', pool' !! node = Some nd' /\ same_but_expansion nd nd' /\
     ((is_terminal nd' = true /\ child nd' = child nd) \/
      (is_terminal nd' = is_terminal nd /\ child nd' = Some (length pool)))) /\
  (forall c x, (length pool <= c)%nat -> pool' !! c = Some x ->
     parent x = Some node /\ child x = None /\ n x = 0 /\
     n_in_flight x = 0 /\ is_terminal x = false) /\
  (child nd = None ->
   exists cs, children pool' node cs /\
              forall x, x ∈ cs -> (length pool <= x)%nat).
Proof. apply ExtendNode_frame. Qed.

(** X4.  The loop of [Worker] that gathers a batch, entered as [Worker]
    enters it.  It changes no member of the search but the arena, and what
    it returns is made turn by turn (see [gather_turn]): for every node of
    the batch, in order, the selector was entered at the root with the arena
    that the turn before had left and returned that node; a node that was
    terminal was left alone, any other was given to the expander, and
    unless that made it terminal the input that [AddNodeToCompute] makes of
    it was appended to the computation.  [nodes_to_process] holds the nodes
    of these turns and the computation their inputs, both in turn order,
    and [new_nodes] is their number.  The loop was left because all its
    turns were done, or after a turn with no input awaiting the network,
    or because the selector gave up.  A turn has added an input exactly
    when its node is not terminal when the loop is left; so the inputs are,
    in order, those of the nodes of the batch that are not terminal, which
    is what lets the loop that reads the outputs advance
    [idx_in_computation] at these nodes only.  No node that had children
    when the loop was entered is in the batch, and a node that is not
    terminal is in it once only. *)
Theorem batch_has_one_input_per_open_node k s s' comp' nodes' new_nodes' :
  gather k 0 s [] [] 0 = Some (s', comp', nodes', new_nodes') ->
  s' = set_node_pool_ (node_pool_ s') s /\
  exists ts,
    gather_turns (root_node_ s) (kCpuct s) (cache_ s) (node_pool_ s) ts /\
    gathering_done k (root_node_ s) (kCpuct s) (node_pool_ s) ts
      (node_pool_ s') /\
    nodes' = map gathered_node ts /\
    comp' = gathered_inputs ts /\
    new_nodes' = Z.of_nat (length ts) /\
    Forall (fun t => awaits_network (node_pool_ s') (gathered_node t)
                     = bool_decide (is_Some (gathered_input t))) ts /\
    (forall c nd, node_pool_ s !! c = Some nd -> child nd <> None ->
       c ∉ nodes') /\
    let open := filter (fun c => awaits_network (node_pool_ s') c = true)
                  nodes' in
    NoDup open /\
    Forall2 (fun c it => exists t, t ∈ ts /\ gathered_node t = c /\
                                   gathered_input t = Some it) open comp'.
Proof.
  intros Hg. split; [by eapply gather_frame|].
  destruct (gather_trace _ _ _ _ _ _ _ _ _ _ (Z.le_refl 0) Hg)
    as (ts & Hts & Hnodes & Hcomp & Hnew & Hk & Hmiss & Hend & Hopen).
  destruct (gather_distinct _ _ _ _ _ _ _ _ _ _ Hg)
    as (added & Hnodes' & Hskip & Hnodup).
  simpl in Hnodes, Hcomp, Hnew, Hnodes'. rewrite Hnodes in Hnodes'.
  subst nodes' comp' new_nodes' added.
  exists ts. split; [exact Hts|]. split.
  { split; [exact Hk|]. split.
    - intros j Hj. apply (Hmiss j); lia.
    - destruct Hend as [[Hend Hp]|Hend]; [left|by right].
      split; [|done]. destruct Hend as [Hend|[Hend1 Hend2]]; [by left|].
      right. split; [lia|done]. }
  do 3 (split; [done|]). split; [exact Hopen|].
  split; [exact Hskip|]. split; [exact Hnodup|].
  clear -Hopen.
  induction Hopen as [|t ts Ht _ IH]; [constructor|].
  unfold gathered_inputs. simpl.
  destruct (gathered_input t) as [it|] eqn:Hit; simpl in Ht; simpl.
  - rewrite filter_cons_True by done. constructor.
    + exists t. split; [by left|done].
    + eapply Forall2_impl; [exact IH|].
      intros c it' (t' & Hin & Hc & Hi). exists t'. split; [by right|done].
  - rewrite filter_cons_False by (by rewrite Ht).
    eapply Forall2_impl; [exact IH|].
    intros c it' (t' & Hin & Hc & Hi). exists t'. split; [by right|done].
Qed.

(** X5.  What [PrefetchIntoCache] does to the computation.  It only appends
    to it, and only inputs that are cache misses: it never records a cache
    hit and never drops an input.  The number it returns is at least the
    number of inputs it has appended, and equals it with aggressive caching
    (without it, a node found in the cache costs 1 and adds nothing). *)
Theorem prefetch_only_adds_misses s node budget comp spent comp' :
  PrefetchIntoCache s node budget comp = Some (spent, comp') ->
  exists added,
    comp' = comp ++ added /\
    Forall (fun it => is_miss it = true) added /\
    Z.of_nat (length added) <= spent /\
    (kAggresiveCaching s = true -> spent = Z.of_nat (length added)) /\
    GetCacheMisses comp' = GetCacheMisses comp + Z.of_nat (length added).
Proof.
  unfold PrefetchIntoCache. intros Hp.
  apply PrefetchIntoCache_rec_adds in Hp as (added & Heq & Hall & Hle & Hag).
  simpl in *. subst comp'. exists added. split; [done|]. split; [done|].
  split; [lia|]. split; [intros H; specialize (Hag H); lia|].
  by apply GetCacheMisses_app.
Qed.

(** X16.  With a budget of at most 1 the prefetcher stays within it: what
    it returns is not negative and not above the budget (nor above 0 for a
    budget that is not positive). *)
Theorem prefetch_of_one_stays_within_budget s node budget comp spent comp' :
  budget <= 1 ->
  PrefetchIntoCache s node budget comp = Some (spent, comp') ->
  0 <= spent <= Z.max 0 budget.
Proof.
  unfold PrefetchIntoCache. intros Hbudget Hp.
  by apply PrefetchIntoCache_rec_small in Hp.
Qed.

(** X6.  What [AddNodeToCompute] submits for a node with child list [cs].
    The call returns, and it answers whether the position was found: by
    [Lookup] when cached entries are wanted, in which case the entry found
    is appended as a hit, and by [ContainsKey] otherwise, in which case
    nothing is appended.  When the position was not found, one miss is
    appended with the fingerprint and the planes of the node, and with the
    network indices of the moves of the children, in child-list order; for
    a node without children these are the indices of the pseudovalid moves
    of its board. *)
Theorem add_node_to_compute pool cache node nd cs comp add_if_cached :
  pool !! node = Some nd ->
  children pool node cs ->
  exists moves,
    (cs = [] ->
     moves = map as_nn_index (GeneratePseudovalidMoves (board nd))) /\
    (cs <> [] ->
     Forall2 (fun c m => exists x, pool !! c = Some x /\
                                   m = as_nn_index (move x)) cs moves) /\
    let hash := BoardHash pool node in
    let miss := CacheMiss hash (EncodeNode pool node) moves in
    AddNodeToCompute pool cache node comp add_if_cached
    = Some (if add_if_cached
            then match Lookup cache hash with
                 | Some cv => (true, comp ++ [CacheHit cv])
                 | None => (false, comp ++ [miss])
                 end
            else if ContainsKey cache hash then (true, comp)
                 else (false, comp ++ [miss])).
Proof.
  intros Hnd Hcs.
  pose proof (children_nil_iff _ _ _ _ Hnd Hcs) as Hnil.
  destruct Hcs as (nd0 & Hnd0 & Hch).
  assert (nd0 = nd) as -> by congruence.
  pose proof (child_moves_children _ _ _ Hch (length pool)
                ltac:(by eapply chain_length)) as Hmoves.
  set (kids := omap (fun c => (fun x => as_nn_index (move x)) <$> pool !! c)
                 cs) in *.
  assert (Hkids : Forall2 (fun c m => exists x, pool !! c = Some x /\
                                                m = as_nn_index (move x))
                    cs kids).
  { unfold kids. clear Hmoves Hnil.
    induction Hch as [|c x l Hne Hc Hl IH]; [constructor|].
    simpl. rewrite Hc. simpl. constructor; [by exists x|done]. }
  exists (match child nd with
          | Some _ => kids
          | None => map as_nn_index (GeneratePseudovalidMoves (board nd))
          end).
  split; [intros Hcs; by rewrite (proj2 Hnil Hcs)|].
  split.
  { intros Hcs. destruct (child nd); [done|]. by destruct Hcs, (proj1 Hnil). }
  unfold AddNodeToCompute, AddInputByHash, AddInput.
  rewrite Hnd. cbn [mbind option_bind].
  destruct add_if_cached.
  - destruct (Lookup cache (BoardHash pool node)); [done|].
    destruct (child nd); [by rewrite Hmoves|done].
  - destruct (ContainsKey cache (BoardHash pool node)); [done|].
    destruct (child nd); [by rewrite Hmoves|done].
Qed.

(** X7.  One turn of the loop of [Worker] that reads the outputs of the
    network.  A terminal node is skipped and leaves [idx_in_computation]
    where it is.  A node that is not terminal gets [v = -q] of the output
    at [idx_in_computation]; each of its children gets the prior of its
    move, divided by the [float] sum of these priors over the child list
    when that sum is above [0.0f] and left as it is otherwise (the
    assignments, without the rounding bound of C7); nothing else changes,
    no link, no counter and no other node; and the loop goes on with
    [idx_in_computation + 1]. *)
Theorem network_output_applied pool comp idx it node nd cs :
  comp !! idx = Some it ->
  pool !! node = Some nd ->
  children pool node cs ->
  node ∉ cs ->
  let total := raw_total pool it cs F32.zero in
  (is_terminal nd = true ->
   forall rest, apply_nn_outputs pool comp idx (node :: rest)
                = apply_nn_outputs pool comp idx rest) /\
  (is_terminal nd = false ->
   exists pool',
     (forall rest, apply_nn_outputs pool comp idx (node :: rest)
                   = apply_nn_outputs pool' comp (S idx) rest) /\
     same_links pool pool' /\
     pool' !! node = Some (set_v (F32.neg (item_q it)) nd) /\
     (forall c cn, c ∈ cs -> pool !! c = Some cn ->
        pool' !! c
        = Some (set_p (if F32.gtb total F32.zero
                       then F32.div (item_p it (as_nn_index (move cn))) total
                       else item_p it (as_nn_index (move cn))) cn)) /\
     (forall c, c ∉ cs -> c <> node -> pool' !! c = pool !! c)).
Proof.
  intros Hit Hnd Hcs Hnotin total. split.
  - intros Hterm rest. simpl. rewrite Hnd. cbn [mbind option_bind].
    by rewrite Hterm.
  - intros Hterm.
    destruct (apply_nn_output_spec pool comp idx it node nd cs Hit Hnd Hcs
                Hnotin) as (pool' & Happ & Hlinks & Hnode & Hkids & Hout).
    exists pool'. split; [|done].
    intros rest. simpl. rewrite Hnd. cbn [mbind option_bind].
    rewrite Hterm, Happ. done.
Qed.

End ExpanderAndBatch.

Lemma expander_frame_witness :
  exists pool',
    ExtendNode root_only 0%nat = Some pool' /\
    (length root_only <= length pool')%nat /\
    exists cs, children pool' 0%nat cs /\
               forall x, x ∈ cs -> (length root_only <= x)%nat.
Proof.
  destruct (ExtendNode root_only 0%nat) as [pool'|] eqn:Hext.
  - exists pool'. split; [reflexivity|].
    pose proof (expander_frame root_only 0%nat _ pool' eq_refl Hext)
      as (Hlen & _ & _ & _ & Hkids).
    split; [exact Hlen|]. exact (Hkids eq_refl).
  - exfalso. vm_compute in Hext. discriminate Hext.
Defined.

(** The first batch of the default 16 nodes on a fresh search holds one
    node, the root, and one input. *)
Example first_batch :
  (fun r => (r.1.2, length r.1.1.2, r.2))
    <$> gather 16 0 fresh_search [] [] 0
  = Some ([0%nat], 1%nat, 1).
Proof. vm_compute. reflexivity. Qed.

Lemma batch_has_one_input_per_open_node_witness :
  exists s' comp' nodes' new_nodes' ts,
    gather 16 0 fresh_search [] [] 0 = Some (s', comp', nodes', new_nodes') /\
    gather_turns 0%nat Toy.cpuct [] root_only ts /\
    nodes' = map gathered_node ts /\
    comp' = gathered_inputs ts /\
    new_nodes' = Z.of_nat (length ts).
Proof.
  destruct (gather 16 0 fresh_search [] [] 0)
    as [[[[s' comp'] nodes'] new_nodes']|] eqn:Hg.
  - destruct (proj2 (batch_has_one_input_per_open_node _ _ _ _ _ _ Hg))
      as (ts & H1 & _ & H2 & H3 & H4 & _).
    exists s', comp', nodes', new_nodes', ts. split; [reflexivity|].
    split; [exact H1|]. split; [exact H2|]. split; [exact H3|exact H4].
  - exfalso. vm_compute in Hg. discriminate Hg.
Defined.

Lemma prefetch_only_adds_misses_witness :
  let s := Toy.search twin_tree Toy.no_limits in
  exists spent comp',
    PrefetchIntoCache s (root_node_ s) 3 [] = Some (spent, comp') /\
    exists added,
      comp' = [] ++ added /\
      Forall (fun it => is_miss it = true) added /\
      Z.of_nat (length added) <= spent.
Proof.
  intros s.
  destruct (PrefetchIntoCache s (root_node_ s) 3 []) as [[spent comp']|] eqn:Hp.
  - exists spent, comp'. split; [reflexivity|].
    destruct (prefetch_only_adds_misses _ _ _ _ _ _ Hp)
      as (added & H1 & H2 & H3 & _).
    exists added. split; [exact H1|]. split; [exact H2|exact H3].
  - exfalso. vm_compute in Hp. discriminate Hp.
Defined.

Lemma prefetch_of_one_stays_within_budget_witness :
  let s := Toy.search twin_tree Toy.no_limits in
  exists spent comp',
    PrefetchIntoCache s (root_node_ s) 1 [] = Some (spent, comp') /\
    0 <= spent <= 1.
Proof.
  intros s.
  destruct (PrefetchIntoCache s (root_node_ s) 1 []) as [[spent comp']|] eqn:Hp.
  - exists spent, comp'. split; [reflexivity|].
    exact (prefetch_of_one_stays_within_budget s (root_node_ s) 1 [] spent comp'
             ltac:(lia) Hp).
  - exfalso. vm_compute in Hp. discriminate Hp.
Defined.

(** The root of [Toy.small_tree] is submitted with the moves of its two
    children, 1 and 2, in that order. *)
Example root_of_small_tree_submitted :
  AddNodeToCompute Toy.small_tree [] 0%nat [] true
  = Some (false, [CacheMiss 0 0 [1; 2]]).
Proof. reflexivity. Qed.

Lemma add_node_to_compute_witness :
  exists moves,
    Forall2 (fun c m => exists x, Toy.small_tree !! c = Some x /\
                                  m = as_nn_index (move x))
      [1; 2]%nat moves /\
    AddNodeToCompute Toy.small_tree [] 0%nat [] true
    = Some (false, [CacheMiss 0 0 moves]).
Proof.
  destruct (add_node_to_compute Toy.small_tree [] 0%nat _ [1; 2]%nat [] true
              eq_refl)
    as (moves & _ & Hkids & Hadd).
  { eexists. split; [reflexivity|]. simpl. chain_tac. }
  exists moves. split; [apply Hkids; discriminate|exact Hadd].
Defined.

Lemma network_output_applied_witness :
  exists pool',
    apply_nn_outputs Toy.small_tree [CacheMiss 0 0 [1; 2]] 0%nat [0%nat]
    = Some pool' /\
    same_links Toy.small_tree pool' /\
    p <$> pool' !! 1%nat = Some Toy.half.
Proof.
  destruct (proj2 (network_output_applied Toy.small_tree
                     [CacheMiss 0 0 [1; 2]] 0%nat _ 0%nat _ [1; 2]%nat
                     eq_refl eq_refl
                     ltac:(eexists; split; [reflexivity|simpl; chain_tac])
                     ltac:(intros Hin;
                           apply elem_of_cons in Hin as [Hin|Hin];
                           [discriminate Hin|];
                           apply elem_of_cons in Hin as [Hin|Hin];
                           [discriminate Hin|];
                           by apply elem_of_nil in Hin))
              eq_refl)
    as (pool' & Hstep & Hlinks & _ & Hkids & _).
  exists pool'. split; [exact (Hstep [])|]. split; [exact Hlinks|].
  rewrite (Hkids 1%nat _ ltac:(by left) eq_refl). vm_compute. reflexivity.
Defined.

(* ------------------------------------------------------------------ *)
(** ** Reports, the answer and the stop flag *)

Section ReportsAndStop.
Context {Move Board InputPlanes NNCache : Type}.
Context {collab : Collaborators Move Board InputPlanes NNCache}.
Implicit Types (s : Search Move Board NNCache).

(** X8.  [MaybeOutputInfo] sends at most one report and never a best move;
    it sends nothing while there is no best node; it leaves the arena, the
    best node and the count of playouts as they are; and a second call
    right after the first sends nothing: the state it leaves is one in
    which nothing has changed since the last report. *)
Theorem report_is_not_repeated s s' :
  MaybeOutputInfo s = Some s' ->
  node_pool_ s' = node_pool_ s /\
  best_move_node_ s' = best_move_node_ s /\
  total_playouts_ s' = total_playouts_ s /\
  (exists reports,
     callbacks s' = callbacks s ++ reports /\
     (length reports <= 1)%nat /\
     forallb is_info_callback reports = true /\
     (best_move_node_ s = None -> reports = [])) /\
  MaybeOutputInfo s' = Some s'.
Proof.
  intros Hs.
  destruct (MaybeOutputInfo_frame _ _ Hs) as (H1 & _ & H2 & H3 & H4).
  do 4 (split; [done|]). by apply (MaybeOutputInfo_again s).
Qed.

(** X9.  What [MaybeTriggerStop] says to the host.  It never touches the
    arena or the count of playouts.  When the stop flag is set after the
    limit checks and the best move has not been answered yet, it makes at
    most one report (none without a best node) and then, as the last call,
    the best-move callback with the moves that [GetBestMoveInternal] finds
    in the arena; after that the best node is forgotten.  Otherwise it
    calls nothing. *)
Theorem stop_answers_after_the_last_report s s' :
  MaybeTriggerStop s = Some s' ->
  node_pool_ s' = node_pool_ s /\ root_node_ s' = root_node_ s /\
  total_playouts_ s' = total_playouts_ s /\
  if stop_ (check_limits s) && negb (responded_bestmove_ s)
  then
    exists reports mv,
      GetBestMoveInternal s = Some mv /\
      callbacks s' = callbacks s ++ reports ++ [BestMoveCallback mv.1 mv.2] /\
      (length reports <= 1)%nat /\
      forallb is_info_callback reports = true /\
      (best_move_node_ s = None -> reports = []) /\
      best_move_node_ s' = None
  else callbacks s' = callbacks s /\ best_move_node_ s' = best_move_node_ s.
Proof.
  unfold MaybeTriggerStop. intros Hs.
  destruct (check_limits_frame s) as (Hlim & Hresp & Hcbs & _).
  destruct (check_limits_fields s) as (Hpool & Hroot & Hbest & Htp).
  rewrite Hresp in Hs.
  destruct (stop_ (check_limits s) && negb (responded_bestmove_ s)) eqn:Hc.
  - destruct (SendUciInfo _) as [s1|] eqn:Hs1; simpl in Hs; [|done].
    destruct (GetBestMoveInternal s1) as [bm|] eqn:Hbm; simpl in Hs; [|done].
    injection Hs as <-. simpl.
    apply SendUciInfo_frame in Hs1
      as (H1 & H2 & H3 & H4 & reports & H5 & H6 & H7 & H8).
    simpl in *.
    split; [congruence|]. split; [congruence|]. split; [congruence|].
    exists reports, bm.
    split.
    { unfold GetBestMoveInternal in *. by rewrite H1, H2, Hpool, Hroot in Hbm. }
    split; [by rewrite H5, Hcbs, app_assoc|].
    split; [done|]. split; [done|]. split; [|done].
    intros Hnone. apply H8. congruence.
  - by injection Hs as <-.
Qed.

(** X10.  Nothing that happens to a search object clears the stop flag or
    changes the limits: over any sequence of worker turns, stop checks and
    calls of [Stop], [Abort] and the destructor, the limits stay the same
    and a stop flag that is set stays set. *)
Theorem stop_is_never_cleared evs s s' :
  run evs s = Some s' ->
  limits_ s' = limits_ s /\ (stop_ s = true -> stop_ s' = true).
Proof.
  revert s. induction evs as [|ev evs IH]; intros s Hrun; simpl in Hrun.
  - by injection Hrun as <-.
  - destruct (step ev s) as [s1|] eqn:Hstep; simpl in Hrun; [|done].
    apply step_keeps_stop in Hstep as [Hl1 Hs1].
    apply IH in Hrun as [Hl Hs]. split; [congruence|auto].
Qed.


(** X12.  One turn of the worker adds to [total_playouts_] the number of
    nodes of the batch it has gathered and backed up (see [batch_done]):
    as many as the selector returned nodes in the gathering loop, and as
    many as paths were walked up to the root.  This number is at most
    [kMiniBatchSize] (zero when that option is not positive), and the count
    never goes down. *)
Theorem turn_counts_its_playouts s s' :
  Worker_iteration s = Some s' ->
  exists ts paths,
    batch_done s s' ts paths /\
    length paths = length ts /\
    (length ts <= Z.to_nat (kMiniBatchSize s))%nat /\
    total_playouts_ s' = total_playouts_ s + Z.of_nat (length ts) /\
    total_playouts_ s <= total_playouts_ s'.
Proof.
  intros Hw.
  destruct (Worker_iteration_batch _ _ Hw) as (ts & paths & Hbatch).
  exists ts, paths. split; [exact Hbatch|].
  destruct Hbatch as (pool1 & pool3 & _ & (Hk & _) & _ & Hpaths & _ & Htp).
  apply Forall2_length in Hpaths. rewrite length_map in Hpaths.
  split; [done|]. split; [done|]. split; [done|]. lia.
Qed.

(** X13.  With batches of one node ([kMiniBatchSize = 1]), on an arena that
    is a tree below the root with sane scores, a turn of the worker leaves
    no reservation behind.  Either the selector gave up and no node was
    visited, or one leaf was; in both cases every node of the arena is
    still there with the [n_in_flight], the parent and the sibling it had,
    the nodes on the path from the visited leaf up to the root inclusive
    have one more visit ([n]), every other node has the visits it had, and
    [total_playouts_] has grown by one exactly when a leaf was visited. *)
Theorem turn_of_one_releases_its_reservations s s' :
  let pool0 := node_pool_ s in
  let root := root_node_ s in
  kMiniBatchSize s = 1 ->
  tree_below pool0 root -> scores_sane pool0 (kCpuct s) ->
  path_to_root pool0 root root [root] ->
  (forall b, best_move_node_ s = Some b -> is_Some (pool0 !! b)) ->
  Worker_iteration s = Some s' ->
  exists visited,
    (visited = [] \/
     exists leaf path, visited = leaf :: path /\
                       path_to_root pool0 root leaf visited) /\
    total_playouts_ s'
    = total_playouts_ s + (match visited with [] => 0 | _ :: _ => 1 end) /\
    forall c nd, pool0 !! c = Some nd ->
      exists nd', node_pool_ s' !! c = Some nd' /\
        n_in_flight nd' = n_in_flight nd /\
        n nd' = n nd + (if bool_decide (c ∈ visited) then 1 else 0) /\
        parent nd' = parent nd /\ sibling nd' = sibling nd.
Proof.
  intros pool0 root Hk Htree Hsane Hroot Hbest Hw.
  apply Worker_iteration_phases in Hw
    as (s1 & comp & nodes & new_nodes & comp2 & pool3 & pool4 & best & s4 & s5
        & Hg & Hcomp2 & Hpool3 & Hb & Hp4 & _ & _ & Htp4 & _ & Hm & Hts).
  apply MaybeOutputInfo_frame in Hm as (Hp5 & _ & _ & Htp5 & _).
  apply MaybeTriggerStop_fields in Hts as (Hp' & _ & Htp').
  rewrite Hp', Hp5, Hp4, Htp', Htp5, Htp4. clear Hp' Hp5 Hp4 Htp' Htp5 Htp4.
  rewrite Hk in Hg. change (Z.to_nat 1) with 1%nat in Hg.
  assert (Heval : eval_only (node_pool_ s1) pool3).
  { destruct (negb (GetBatchSize comp2 =? 0)).
    - by eapply apply_nn_outputs_frame.
    - subst pool3. apply eval_only_refl. }
  destruct (gather_one _ _ _ _ _ Htree Hsane Hroot Hg)
    as [(-> & -> & -> & Hp1)|(leaf & path & Hpath & -> & -> & Hkeep & Hkids)].
  - (* the selector gave up *)
    exists []. split; [by left|]. split; [done|].
    destruct Hcomp2 as [->|[Hmiss _]]; [|done].
    simpl in Hpool3. subst pool3. simpl in Hb. injection Hb as <- _.
    rewrite Hp1. intros c nd Hc. exists nd. split; [done|].
    rewrite bool_decide_eq_false_2 by apply not_elem_of_nil.
    repeat split; lia.
  - exists (leaf :: path). split; [right; by exists leaf, path|].
    split; [done|].
    destruct (reserve_backup pool0 pool3 root (best_move_node_ s) leaf path)
      as (pool4' & best' & Hb' & _ & Hall).
    { done. }
    { intros c Hc. eapply tree_below_children; [done|exact Hpath|].
      by right. }
    { eapply keeps_trans; [exact Hkeep|]. by apply eval_only_keeps. }
    { destruct Hkids as (cs & Hcs). exists cs.
      eapply children_same_links; [|exact Hcs].
      by apply eval_only_same_links. }
    { done. }
    simpl in Hb. fold root in Hb. rewrite Hb' in Hb. simpl in Hb.
    injection Hb as <- _. exact Hall.
Qed.

End ReportsAndStop.

Lemma report_is_not_repeated_witness :
  exists s s',
    run [WorkerTurn; WorkerTurn] fresh_search = Some s /\
    MaybeOutputInfo s = Some s' /\
    MaybeOutputInfo s' = Some s'.
Proof.
  destruct (run [WorkerTurn; WorkerTurn] fresh_search) as [s|] eqn:Hrun.
  - destruct (MaybeOutputInfo s) as [s'|] eqn:Hm.
    + exists s, s'. split; [reflexivity|]. split; [exact Hm|].
      exact (proj2 (proj2 (proj2 (proj2 (report_is_not_repeated s s' Hm))))).
    + exfalso. vm_compute in Hrun. injection Hrun as <-.
      vm_compute in Hm. discriminate Hm.
  - exfalso. vm_compute in Hrun. discriminate Hrun.
Defined.

Lemma stop_answers_after_the_last_report_witness :
  exists s',
    MaybeTriggerStop (Stop fresh_search) = Some s' /\
    node_pool_ s' = node_pool_ (Stop fresh_search).
Proof.
  destruct (MaybeTriggerStop (Stop fresh_search)) as [s'|] eqn:Hts.
  - exists s'. split; [reflexivity|].
    exact (proj1 (stop_answers_after_the_last_report _ _ Hts)).
  - exfalso. vm_compute in Hts. discriminate Hts.
Defined.

(** On a search that has not been worked on, [Stop] followed by a stop
    check answers with null moves and no report. *)
Example stop_before_any_turn :
  (fun s => callbacks s) <$> MaybeTriggerStop (Stop fresh_search)
  = Some [BestMoveCallback 0 0].
Proof. vm_compute. reflexivity. Qed.

Lemma stop_is_never_cleared_witness :
  exists s',
    run [WorkerTurn; WorkerCheck; WorkerTurn] (Stop fresh_search) = Some s' /\
    limits_ s' = limits_ (Stop fresh_search) /\ stop_ s' = true.
Proof.
  destruct (run [WorkerTurn; WorkerCheck; WorkerTurn] (Stop fresh_search))
    as [s'|] eqn:Hrun.
  - exists s'. split; [reflexivity|].
    destruct (stop_is_never_cleared _ _ _ Hrun) as [Hl Hs].
    split; [exact Hl|exact (Hs eq_refl)].
  - exfalso. vm_compute in Hrun. discriminate Hrun.
Defined.


(** The window between the stop check and the exit check: [Stop] is called
    in it while the only worker of a fresh search ends its first turn.  The
    worker leaves its loop, the stop flag is set, and the best move was
    never answered. *)
Example worker_leaves_unanswered :
  (fun s => (stop_ s, responded_bestmove_ s, best_move_calls (callbacks s),
             total_playouts_ s))
    <$> Worker [mkInterference [] [CallStop]] fresh_search
  = Some (true, false, 0%nat, 1).
Proof. vm_compute. reflexivity. Qed.

Lemma turn_counts_its_playouts_witness :
  exists s' ts paths,
    Worker_iteration fresh_search = Some s' /\
    batch_done fresh_search s' ts paths /\
    (length ts <= 16)%nat /\
    total_playouts_ s' = 0 + Z.of_nat (length ts).
Proof.
  destruct (Worker_iteration fresh_search) as [s'|] eqn:Hw.
  - destruct (turn_counts_its_playouts _ _ Hw)
      as (ts & paths & Hbatch & _ & Hle & Htp & _).
    exists s', ts, paths. split; [reflexivity|]. split; [exact Hbatch|].
    split; [exact Hle|exact Htp].
  - exfalso. vm_compute in Hw. discriminate Hw.
Defined.

(** A turn on [one_by_one] visits node 1 and the root: both have one more
    visit, and the reservations are as they were. *)
Example turn_on_one_by_one :
  (fun s => (take 5 ((fun nd => (n nd, n_in_flight nd)) <$> node_pool_ s),
             length (node_pool_ s), total_playouts_ s))
    <$> Worker_iteration one_by_one
  = Some ([(4, 0); (2, 0); (1, 1); (0, 1); (0, 0)], 7%nat, 1).
Proof. vm_compute. reflexivity. Qed.

Lemma turn_of_one_releases_its_reservations_witness :
  exists s' visited,
    Worker_iteration one_by_one = Some s' /\
    total_playouts_ s'
    = total_playouts_ one_by_one
      + (match visited with [] => 0 | _ :: _ => 1 end) /\
    forall c nd, Toy.small_tree !! c = Some nd ->
      exists nd', node_pool_ s' !! c = Some nd' /\
        n_in_flight nd' = n_in_flight nd /\
        n nd' = n nd + (if bool_decide (c ∈ visited) then 1 else 0) /\
        parent nd' = parent nd /\ sibling nd' = sibling nd.
Proof.
  destruct (Worker_iteration one_by_one) as [s'|] eqn:Hw.
  - destruct (turn_of_one_releases_its_reservations one_by_one s' eq_refl
                small_tree_is_tree small_tree_scores_sane
                small_tree_root_path ltac:(discriminate) Hw)
      as (visited & _ & Htp & Hall).
    exists s', visited. split; [reflexivity|]. split; [exact Htp|exact Hall].
  - exfalso. vm_compute in Hw. discriminate Hw.
Defined.

(* ------------------------------------------------------------------ *)
(** ** The bookkeeping of the backup *)

Section Bookkeeping.
Context {Move Board InputPlanes NNCache : Type}.
Context {collab : Collaborators Move Board InputPlanes NNCache}.
Implicit Types (pool : list (Node Move Board)).

(** X14.  The depths that the backup of a node writes on the path from the
    node up to the root, the path being short enough for the [uint16_t]
    counters not to wrap.  The node at place [i] of the path (the processed
    node is at place 0) ends with [max_depth] equal to the greater of what
    it was and [i + 1], and its [full_depth] is not lowered. *)
Theorem backup_never_lowers_depths pool root best node nd path pool' best' :
  pool !! node = Some nd ->
  path_to_root pool root node path ->
  full_depth_nonneg pool ->
  Z.of_nat (length path) + 999 < 2 ^ 16 ->
  backup pool root best node = Some (pool', best') ->
  forall i c cn, path !! i = Some c -> pool !! c = Some cn ->
    exists cn', pool' !! c = Some cn' /\
      max_depth cn' = Z.max (max_depth cn) (Z.of_nat i + 1) /\
      full_depth cn <= full_depth cn'.
Proof.
  intros Hnd (rootnd & Hroot & Hch) Hnn Hlen Hb.
  unfold backup in Hb. rewrite Hnd in Hb. cbn [mbind option_bind] in Hb.
  eapply backup_loop_depths in Hb as (_ & _ & Hin);
    [exact Hin|by exists rootnd|exact Hch|done|lia| | |].
  - by destruct (is_terminal nd).
  - lia.
  - destruct (is_terminal nd); lia.
Qed.

(** X15.  The loop of [Worker] that updates the nodes keeps
    [best_move_node_] the most visited child of the root: if no [n] is
    negative, the best node (if any) has the root as parent and no node
    with the root as parent has a greater [n] than the best node (none of
    them has any visit when there is no best node), then the same holds
    after the nodes of a batch have been backed up. *)
Theorem best_node_stays_most_visited pool root best nodes pool' best' :
  visits_nonneg pool ->
  best_is_most_visited pool root best ->
  backup_all pool root best nodes = Some (pool', best') ->
  visits_nonneg pool' /\ best_is_most_visited pool' root best'.
Proof.
  revert pool best.
  induction nodes as [|node rest IH]; intros pool best Hnn Hinv Hb;
    simpl in Hb.
  - by injection Hb as <- <-.
  - destruct (backup pool root best node) as [[pool1 best1]|] eqn:H1;
      cbn [mbind option_bind] in Hb; [|done].
    unfold backup in H1.
    destruct (pool !! node) as [nd|]; cbn [mbind option_bind] in H1; [|done].
    apply backup_loop_best in H1 as [Hnn1 Hinv1]; [|done..].
    by eapply IH.
Qed.

End Bookkeeping.

Lemma backup_never_lowers_depths_witness :
  exists pool' best',
    backup Toy.small_tree 0%nat None 3%nat = Some (pool', best') /\
    forall i c cn, [3; 2; 0]%nat !! i = Some c ->
      Toy.small_tree !! c = Some cn ->
      exists cn', pool' !! c = Some cn' /\
        max_depth cn' = Z.max (max_depth cn) (Z.of_nat i + 1) /\
        full_depth cn <= full_depth cn'.
Proof.
  destruct (backup Toy.small_tree 0%nat None 3%nat) as [[pool' best']|] eqn:Hb.
  - exists pool', best'. split; [reflexivity|].
    apply (backup_never_lowers_depths Toy.small_tree 0%nat None 3%nat _
             [3; 2; 0]%nat pool' best' eq_refl).
    + eexists. split; [reflexivity|]. simpl. chain_tac.
    + intros [|[|[|[|[|c]]]]] nd Hnd; simpl in Hnd;
        try (injection Hnd as <-; simpl; lia).
      discriminate Hnd.
    + simpl. lia.
    + exact Hb.
  - exfalso. vm_compute in Hb. discriminate Hb.
Defined.

(** [max_depth] and [full_depth] in [Toy.small_tree] after the backup of
    node 3: the maximum depths on the path are 1 at node 3, 2 at node 2
    and 3 at the root, and each node of the path is fully explored to
    depth 1. *)
Example depths_in_small_tree :
  (fun r => map (fun nd => (max_depth nd, full_depth nd)) r.1)
    <$> backup Toy.small_tree 0%nat None 3%nat
  = Some [(3, 1); (0, 0); (2, 1); (1, 1); (0, 0)].
Proof. vm_compute. reflexivity. Qed.

Lemma best_node_stays_most_visited_witness :
  exists pool' best',
    backup_all Toy.small_tree 0%nat (Some 1%nat) [3%nat] = Some (pool', best') /\
    visits_nonneg pool' /\ best_is_most_visited pool' 0%nat best'.
Proof.
  destruct (backup_all Toy.small_tree 0%nat (Some 1%nat) [3%nat])
    as [[pool' best']|] eqn:Hb.
  - exists pool', best'. split; [reflexivity|].
    apply (best_node_stays_most_visited Toy.small_tree 0%nat (Some 1%nat)
             [3%nat] pool' best'); [| |exact Hb].
    + intros [|[|[|[|[|c]]]]] nd Hnd; simpl in Hnd;
        try (injection Hnd as <-; simpl; lia).
      discriminate Hnd.
    + split.
      * intros b [= <-]. eexists. split; reflexivity.
      * intros [|[|[|[|[|c]]]]] nd Hnd Hp; simpl in Hnd;
          try (injection Hnd as <-; simpl in *; first [lia|discriminate Hp]).
        discriminate Hnd.
  - exfalso. vm_compute in Hb. discriminate Hb.
Defined.

(** After the backup of node 3 of [Toy.small_tree], node 2 has two visits
    and takes the place of node 1 as the best node. *)
Example best_in_small_tree :
  snd <$> backup_all Toy.small_tree 0%nat (Some 1%nat) [3%nat]
  = Some (Some 2%nat).
Proof. vm_compute. reflexivity. Qed.
